(** * NAVGame: procedural placement, traversal graph, A* search and
    the level loop

    A shallow embedding of the generation / graph / search core of
    [NAVGame.cpp] and of the game state that [main_run_level] updates
    frame by frame, and the verification of its specification.

    Modelling conventions.
    - [int] values are integers of [Z]; the signed additions and
      subtractions of the source are taken where they do not overflow
      (overflow is undefined behaviour in C++).  The explicit conversions
      of the source are modelled as they are: [static_cast<int>] of a
      floating value is defined only inside the [int] range,
      [static_cast<std::size_t>] of a negative [int] is a huge size, and
      the [& 0xFFFF] masks and shifts of [Graph::edge_key] are bit
      operations on [Z] wrapped to 64 bits.
    - the [float] arithmetic of the search ([heuristic], the costs and
      priorities of [a_star_search]) is IEEE 754 binary32: every
      operation rounds to the nearest value, ties to even, with the
      infinities and NaN ([fcost], [round32]).  The weights of a [Graph]
      are rationals; [build_graph] stores 1 and 10.  The products
      [obstacle_count * DESTRUCTIBLE_RATIO] and [10 * pow(1.2, n)] that
      are truncated to [int] are taken as exact rationals.
    - [std::unordered_map] is a [gmap]; the hash function plays no role.
    - [std::priority_queue] and the random generator are interfaces
      ([PriorityQueue], [RandomSource]) with the laws the C++ standard
      gives them; every theorem holds for all their implementations.
      So are [SDL_HasIntersection] and the order in which a range-for
      visits an [unordered_map] ([Runtime]).  Rendering, fonts and the
      menus have no part in the model: a frame of the level loop takes
      what it polls (quit, keys, elapsed time) as its input.
    - unbounded loops take a fuel argument; [Diverges] / [None] means the
      fuel ran out. *)

From Stdlib Require Import ZArith QArith Qround Qpower Qabs Lqa Lia.
From stdpp Require Import gmap strings list fin_maps sorting.

Local Open Scope Z_scope.

(** ** Configuration constants *)

Definition INFO_BAR_HEIGHT : Z := 40.
Definition GRID_SIZE : Z := 36.
Definition CELL_SIZE : Z := 40.
Definition OBSTACLE_HEALTH : Z := 20.
Definition MAIN_BLOCK_HEALTH : Z := 40.
Definition DESTRUCTIBLE_RATIO : Q := 3 # 10.
Definition ENEMY_ATTACK : Z := 10.

Definition INT_MIN : Z := - 2 ^ 31.
Definition INT_MAX : Z := 2 ^ 31 - 1.

Abbreviation GridPos := (Z * Z)%type.

(** ** Outcomes of a call *)

Inductive exn := length_error | out_of_range.

Inductive outcome (A : Type) :=
| Returns (a : A)
| Throws (e : exn)
| Undefined
| Diverges.
Arguments Returns {A} a.
Arguments Throws {A} e.
Arguments Undefined {A}.
Arguments Diverges {A}.

#[global] Instance outcome_ret : MRet outcome := λ A a, Returns a.

#[global] Instance outcome_bind : MBind outcome := λ A B k m,
  match m with
  | Returns a => k a
  | Throws e => Throws e
  | Undefined => Undefined
  | Diverges => Diverges
  end.

(** ** Floating values *)

(** A [float] is an IEEE 754 binary32 value: a finite value (24
    significant bits, exponents from -149 to 104), an infinity or a NaN.
    Finite values are the rationals they denote; zero has no sign. *)
Inductive fcost := Fin (q : Q) | PInf | NInf | NaN.

Definition fneg (a : fcost) : fcost :=
  match a with
  | Fin q => Fin (- q)
  | PInf => NInf
  | NInf => PInf
  | NaN => NaN
  end.

(** Round to the nearest integer, ties to the even one. *)
Definition rne (x : Q) : Z :=
  let f := Qfloor x in
  match Qcompare (x - inject_Z f) (1 # 2) with
  | Lt => f
  | Gt => f + 1
  | Eq => if Z.even f then f else f + 1
  end.

(** A non-negative value counted in units of [2^-149], the smallest
    positive binary32 value, rounded to 24 significant bits. *)
Definition round_units (X : Q) : Z :=
  let s := Z.max 0 (Z.log2 (Qfloor X) - 23) in
  rne (X / inject_Z (2 ^ s)) * 2 ^ s.

Definition round_pos (x : Q) : fcost :=
  let u := round_units (x * inject_Z (2 ^ 149)) in
  if bool_decide (2 ^ 277 ≤ u) then PInf
  else Fin (Qred (inject_Z u / inject_Z (2 ^ 149))).

(** The binary32 value nearest to a real number (ties to even; an
    infinity from [2^128 - 2^103] on): the rounding of every arithmetic
    operation on [float]. *)
Definition round32 (x : Q) : fcost :=
  if Qle_bool 0 x then round_pos x else fneg (round_pos (- x)).

(** [a + b] *)
Definition fadd (a b : fcost) : fcost :=
  match a, b with
  | Fin x, Fin y => round32 (x + y)
  | NaN, _ => NaN
  | _, NaN => NaN
  | PInf, NInf => NaN
  | NInf, PInf => NaN
  | PInf, _ => PInf
  | _, PInf => PInf
  | NInf, _ => NInf
  | _, NInf => NInf
  end.

Definition fsgn (a : fcost) : option Z :=
  match a with
  | Fin q => Some (Z.sgn (Qnum q))
  | PInf => Some 1
  | NInf => Some (-1)
  | NaN => None
  end.

Definition finf (s : Z) : fcost :=
  if s =? 0 then NaN else if 0 <? s then PInf else NInf.

(** [a * b] *)
Definition fmul (a b : fcost) : fcost :=
  match a, b with
  | Fin x, Fin y => round32 (x * y)
  | _, _ => match fsgn a, fsgn b with
            | Some s, Some t => finf (s * t)
            | _, _ => NaN
            end
  end.

(** [a / b] *)
Definition fdiv (a b : fcost) : fcost :=
  match a, b with
  | Fin x, Fin y => if Qeq_bool y 0 then finf (Z.sgn (Qnum x)) else round32 (x / y)
  | Fin _, (PInf | NInf) => Fin 0
  | (PInf | NInf), Fin y => match fsgn a with
                            | Some s => finf (if Qle_bool 0 y then s else - s)
                            | None => NaN
                            end
  | _, _ => NaN
  end.

(** [std::ceil(a)] *)
Definition fceil (a : fcost) : fcost :=
  match a with
  | Fin x => Fin (inject_Z (Qceiling x))
  | _ => a
  end.

(** [a < b] *)
Definition flt (a b : fcost) : bool :=
  match a, b with
  | Fin x, Fin y => negb (Qle_bool y x)
  | Fin _, PInf => true
  | NInf, Fin _ => true
  | NInf, PInf => true
  | _, _ => false
  end.

(** [static_cast<float>(z)] of an [int]: the nearest binary32 value.  An
    [int] lies between [INT_MIN] and [INT_MAX]; the conversion saturates
    outside that range, where no [int] is. *)
Definition of_int (z : Z) : fcost :=
  round32 (inject_Z (Z.max INT_MIN (Z.min INT_MAX z))).

(** [static_cast<int>(v)]: truncation toward zero, defined only when the
    truncated value is representable. *)
Definition static_cast_int (v : Q) : option Z :=
  let t := Qnum v ÷ Z.pos (Qden v) in
  if bool_decide (INT_MIN ≤ t ≤ INT_MAX) then Some t else None.

(** [std::vector::resize(static_cast<std::size_t>(n))] on a vector of
    [GridPos]: a negative [n] converts to a size above [max_size()]. *)
Definition resize (l : list GridPos) (n : Z) : outcome (list GridPos) :=
  if bool_decide (n < 0) then Throws length_error
  else Returns (take (Z.to_nat n) (l ++ replicate (Z.to_nat n - length l) (0, 0))).

(** ** Graph *)

Record Graph := mkGraph {
  edges : gmap GridPos (list GridPos);
  weights : gmap Z Q
}.

Definition empty_graph : Graph := mkGraph ∅ ∅.

Definition wrap64 (z : Z) : Z := (z + 2 ^ 63) mod 2 ^ 64 - 2 ^ 63.

Definition edge_key (a b : GridPos) : Z :=
  wrap64
    (Z.lor (Z.lor (Z.lor (Z.shiftl (Z.land a.1 0xFFFF) 48)
                         (Z.shiftl (Z.land a.2 0xFFFF) 32))
                  (Z.shiftl (Z.land b.1 0xFFFF) 16))
           (Z.land b.2 0xFFFF)).

Definition add_edge (g : Graph) (a b : GridPos) (w : Q) : Graph :=
  mkGraph (<[a := default [] (edges g !! a) ++ [b]]> (edges g))
          (<[edge_key a b := w]> (weights g)).

Definition neighbors (g : Graph) (node : GridPos) : list GridPos :=
  default [] (edges g !! node).

Definition cost (g : Graph) (a b : GridPos) : fcost :=
  match weights g !! edge_key a b with
  | Some w => Fin w
  | None => PInf
  end.

(** ** Obstacles and items *)

Record SDL_Rect := mkRect { rx : Z; ry : Z; rw : Z; rh : Z }.

Record Obstacle := mkObstacle {
  rect : SDL_Rect;
  type : string;
  health : Z;
  is_main_block : bool;
  nonblocking : bool
}.

Definition new_Obstacle (gx gy : Z) (t : string) (hp : Z) : Obstacle :=
  mkObstacle (mkRect (gx * CELL_SIZE) (gy * CELL_SIZE + INFO_BAR_HEIGHT) CELL_SIZE CELL_SIZE)
             t hp false false.

Definition grid_pos (o : Obstacle) : GridPos :=
  (rx (rect o) ÷ CELL_SIZE, (ry (rect o) - INFO_BAR_HEIGHT) ÷ CELL_SIZE).

Definition is_destroyed (o : Obstacle) : bool :=
  String.eqb (type o) "Destructible" && bool_decide (health o ≤ 0).

(** [Item]: the grid cell and the primary flag; the drawing fields
    (radius, centre, rectangle) are functions of the cell. *)
Record Item := mkItem { ix : Z; iy : Z; is_main : bool }.

Definition item_pos (i : Item) : GridPos := (ix i, iy i).

(** ** A* search *)

Definition heuristic (a b : GridPos) : fcost :=
  of_int (Z.abs (a.1 - b.1) + Z.abs (a.2 - b.2)).

Definition Node := (fcost * GridPos)%type.

(** [std::priority_queue<Node, std::vector<Node>, Cmp>] with
    [Cmp(a, b) = a.first > b.first]: [pq_pop] is [top] followed by [pop].
    The order among entries of equal priority is left to the
    implementation; [Cmp] is a strict weak ordering, and the popped entry
    a least one, as long as no priority in the queue is NaN. *)
Class PriorityQueue := {
  pq : Type;
  pq_empty : pq;
  pq_push : Node → pq → pq;
  pq_pop : pq → option (Node * pq);
  pq_elems : pq → list Node;
  pq_elems_empty : pq_elems pq_empty = [];
  pq_elems_push : ∀ x q, pq_elems (pq_push x q) ≡ₚ x :: pq_elems q;
  pq_pop_None : ∀ q, pq_pop q = None → pq_elems q = [];
  pq_pop_Some : ∀ q x q', pq_pop q = Some (x, q') →
    pq_elems q ≡ₚ x :: pq_elems q' ∧
    (Forall (λ y, y.1 ≠ NaN) (pq_elems q) →
     Forall (λ y, flt y.1 x.1 = false) (pq_elems q'))
}.

(** [cost_so_far[p]]: [operator[]] inserts a zero for a missing key. *)
Definition cs_index (cs : gmap GridPos fcost) (p : GridPos) : fcost * gmap GridPos fcost :=
  match cs !! p with
  | Some c => (c, cs)
  | None => (Fin 0, <[p := Fin 0]> cs)
  end.

(** [std::ceil(health / static_cast<float>(ENEMY_ATTACK))]: [health] is
    converted to [float] for the division. *)
Definition ticks (health : Z) : fcost :=
  fceil (fdiv (of_int health) (of_int ENEMY_ATTACK)).

(** [k_factor]: the literal [0.1f] is the binary32 value nearest to one
    tenth. *)
Definition k_factor (health : Z) : fcost :=
  fmul (ticks health) (round32 (1 # 10)).

Section AStar.
Context `{PQ : PriorityQueue}.

Record astar_state := mkState {
  frontier : pq;
  came_from : gmap GridPos GridPos;
  cost_so_far : gmap GridPos fcost
}.

Variable graph : Graph.
Variable start goal : GridPos.
Variable obstacles : gmap GridPos Obstacle.

(** The last four lines of the loop body: record and enqueue. *)
Definition improve (current neighbor : GridPos) (new_cost : fcost)
    (fr : pq) (cf : gmap GridPos GridPos) (cs : gmap GridPos fcost) : astar_state :=
  let better :=
    match cs !! neighbor with
    | None => true
    | Some old => flt new_cost old
    end in
  if better then
    let cs' := <[neighbor := new_cost]> cs in
    let priority := fadd new_cost (heuristic goal neighbor) in
    mkState (pq_push (priority, neighbor) fr) (<[neighbor := current]> cf) cs'
  else mkState fr cf cs.

(** One iteration of [for (neighbor : graph.neighbors(current))]. *)
Definition relax (current : GridPos) (st : astar_state) (neighbor : GridPos) : astar_state :=
  let '(c0, cs0) := cs_index (cost_so_far st) current in
  let new_cost := fadd c0 (cost graph current neighbor) in
  match obstacles !! neighbor with
  | Some ob =>
      if String.eqb (type ob) "Indestructible" then
        mkState (frontier st) (came_from st) cs0
      else if String.eqb (type ob) "Destructible" then
        let '(c1, cs1) := cs_index cs0 current in
        let new_cost := fadd (fadd c1 (Fin 1)) (k_factor (health ob)) in
        improve current neighbor new_cost (frontier st) (came_from st) cs1
      else improve current neighbor new_cost (frontier st) (came_from st) cs0
  | None => improve current neighbor new_cost (frontier st) (came_from st) cs0
  end.

Definition expand (current : GridPos) (st : astar_state) : astar_state :=
  fold_left (relax current) (neighbors graph current) st.

(** [while (!frontier.empty())] with [fuel] iterations allowed. *)
Fixpoint a_star_loop (fuel : nat) (st : astar_state) : option astar_state :=
  match fuel with
  | O => None
  | S fuel' =>
      match pq_pop (frontier st) with
      | None => Some st
      | Some ((_, current), fr) =>
          let st := mkState fr (came_from st) (cost_so_far st) in
          if decide (current = goal) then Some st
          else a_star_loop fuel' (expand current st)
      end
  end.

Definition a_star_init : astar_state :=
  mkState (pq_push (Fin 0, start) pq_empty) {[start := start]} {[start := Fin 0]}.

Definition a_star_search (fuel : nat)
    : option (gmap GridPos GridPos * gmap GridPos fcost) :=
  match a_star_loop fuel a_star_init with
  | Some st => Some (came_from st, cost_so_far st)
  | None => None
  end.
End AStar.

Definition is_not_edge (pos : GridPos) (grid_size : Z) : bool :=
  bool_decide (1 ≤ pos.1) && bool_decide (pos.1 < grid_size - 1) &&
  bool_decide (1 ≤ pos.2) && bool_decide (pos.2 < grid_size - 1).

(** [while (current != start)]: [path] is kept in push order and reversed
    at the end; [came_from.at] throws on a missing key. *)
Fixpoint reconstruct_loop (fuel : nat) (came_from : gmap GridPos GridPos)
    (start current : GridPos) (path : list GridPos) : outcome (list GridPos) :=
  match fuel with
  | O => Diverges
  | S fuel' =>
      if decide (current = start) then Returns (reverse (path ++ [start]))
      else match came_from !! current with
           | Some prev => reconstruct_loop fuel' came_from start prev (path ++ [current])
           | None => Throws out_of_range
           end
  end.

Definition reconstruct_path (fuel : nat) (came_from : gmap GridPos GridPos)
    (start goal : GridPos) : outcome (list GridPos) :=
  match came_from !! goal with
  | None => Returns [start]
  | Some _ => reconstruct_loop fuel came_from start goal []
  end.

(** ** Level configuration *)

Record LevelConfig := mkLevelConfig {
  obstacle_count : Z;
  item_count : Z;
  enemy_count : Z;
  block_hp : Z;
  enemy_types : list string;
  reward : string
}.

Definition CARD_POOL : list string :=
  ["enemy_fast"; "enemy_strong"; "enemy_tank"; "enemy_spitter"; "enemy_leech"]%string.

Definition BASE_LEVELS : list LevelConfig :=
  [ mkLevelConfig 15 3 1 10 ["basic"%string] "enemy_fast";
    mkLevelConfig 18 4 2 15 ["basic"%string; "strong"%string] "enemy_strong" ].

(** The process-wide [std::mt19937 rng] with [std::shuffle] and
    [rand_int]: the generator state is passed explicitly.  [rand_int min
    max] requires [min <= max]. *)
Class RandomSource := {
  rng_state : Type;
  shuffle : list GridPos → rng_state → list GridPos * rng_state;
  rand_int : Z → Z → rng_state → Z * rng_state;
  shuffle_perm : ∀ l s, (shuffle l s).1 ≡ₚ l;
  rand_int_range : ∀ lo hi s, lo ≤ hi → lo ≤ (rand_int lo hi s).1 ≤ hi
}.

(** The value [10 * std::pow(1.2, n)] before its conversion to [int]. *)
Definition block_hp_value (level : Z) : Q :=
  10 * Qpower (12 # 10) (level - Z.of_nat (length BASE_LEVELS) + 1).

Section Generation.
Context `{RS : RandomSource}.

Definition get_level_config (level : Z) (s : rng_state) : outcome (LevelConfig * rng_state) :=
  if bool_decide (level < Z.of_nat (length BASE_LEVELS)) then
    if bool_decide (level < 0) then Undefined
    else match BASE_LEVELS !! Z.to_nat level with
         | Some cfg => Returns (cfg, s)
         | None => Undefined
         end
  else
    match static_cast_int (block_hp_value level) with
    | None => Undefined
    | Some hp =>
        let '(i, s) := rand_int 0 (Z.of_nat (length CARD_POOL) - 1) s in
        match CARD_POOL !! Z.to_nat i with
        | Some card =>
            Returns (mkLevelConfig (20 + level) 5 (Z.min 5 (1 + level ÷ 3)) hp
                       ["basic"; "strong"; "fire"]%string card, s)
        | None => Undefined
        end
    end.

Definition all_positions (grid_size : Z) : list GridPos :=
  x ← seqZ 0 grid_size; y ← seqZ 0 grid_size; [(x, y)].

Definition manhattan (a b : GridPos) : Z :=
  Z.abs (a.1 - b.1) + Z.abs (a.2 - b.2).

(** The lambda [pick_valid_positions] of [generate_game_entities]. *)
Fixpoint pick_valid_positions (fuel : nat) (all : list GridPos)
    (min_distance count : Z) (s : rng_state)
    : outcome (GridPos * list GridPos * rng_state) :=
  match fuel with
  | O => Diverges
  | S fuel' =>
      let '(picks, s) := shuffle all s in
      picks ← resize picks (count + 1);
      match picks with
      | [] => Undefined
      | player_pos :: enemies =>
          if forallb (λ e, negb (bool_decide (manhattan player_pos e < min_distance))) enemies
          then Returns (player_pos, enemies, s)
          else pick_valid_positions fuel' all min_distance count s
      end
  end.

(** [obstacles.emplace(pos, ob)] keeps an existing entry. *)
Definition emplace (m : gmap GridPos Obstacle) (pos : GridPos) (ob : Obstacle)
    : gmap GridPos Obstacle :=
  match m !! pos with
  | Some _ => m
  | None => <[pos := ob]> m
  end.

(** [for (int i = 0; i < rest_count; ++i)] over [rest_candidates], from
    index [i] on. *)
Fixpoint place_rest (destructible_count i : Z) (rest : list GridPos)
    (obstacles : gmap GridPos Obstacle) : gmap GridPos Obstacle :=
  match rest with
  | [] => obstacles
  | pos :: rest' =>
      let ob :=
        if bool_decide (i < destructible_count)
        then new_Obstacle pos.1 pos.2 "Destructible" OBSTACLE_HEALTH
        else new_Obstacle pos.1 pos.2 "Indestructible" 0 in
      place_rest destructible_count (i + 1) rest' (emplace obstacles pos ob)
  end.

Definition generated : Type :=
  gmap GridPos Obstacle * list Item * GridPos * list GridPos * list GridPos.

Definition generate_game_entities (fuel : nat)
    (grid_size obstacle_count item_count enemy_count main_block_hp : Z)
    (s : rng_state) : outcome (generated * rng_state) :=
  let all := all_positions grid_size in
  let forbidden : gset GridPos :=
    {[ (0, 0); (0, grid_size - 1); (grid_size - 1, 0); (grid_size - 1, grid_size - 1) ]} in
  '(player_pos, enemy_pos_list, s) ← pick_valid_positions fuel all 5 enemy_count s;
  let forbidden := forbidden ∪ {[ player_pos ]} ∪ list_to_set enemy_pos_list in
  let main_item_candidates :=
    filter (λ p, (p ∉ forbidden) ∧ (is_not_edge p grid_size = true)) all in
  if bool_decide (main_item_candidates = []) then Undefined else
  let '(i, s) := rand_int 0 (Z.of_nat (length main_item_candidates) - 1) s in
  match main_item_candidates !! Z.to_nat i with
  | None => Undefined
  | Some main_item_pos =>
      let forbidden := forbidden ∪ {[ main_item_pos ]} in
      let main_block :=
        mkObstacle (rect (new_Obstacle main_item_pos.1 main_item_pos.2 "Destructible" main_block_hp))
                   "Destructible" main_block_hp true false in
      let obstacles := emplace ∅ main_item_pos main_block in
      let rest_candidates := filter (λ p, p ∉ forbidden) all in
      let rest_count := obstacle_count - 1 in
      let rest_count := if bool_decide (rest_count < 0) then 0 else rest_count in
      let rest_count :=
        if bool_decide (rest_count > Z.of_nat (length rest_candidates))
        then Z.of_nat (length rest_candidates) else rest_count in
      let '(rest_candidates, s) := shuffle rest_candidates s in
      rest_candidates ← resize rest_candidates rest_count;
      match static_cast_int (inject_Z rest_count * DESTRUCTIBLE_RATIO) with
      | None => Undefined
      | Some destructible_count =>
          let obstacles := place_rest destructible_count 0 rest_candidates obstacles in
          let forbidden := forbidden ∪ list_to_set rest_candidates in
          let item_candidates := filter (λ p, p ∉ forbidden) all in
          let item_count := if bool_decide (item_count < 1) then 1 else item_count in
          let item_count :=
            if bool_decide (item_count > Z.of_nat (length item_candidates))
            then Z.of_nat (length item_candidates) else item_count in
          let '(item_candidates, s) := shuffle item_candidates s in
          item_candidates ← resize item_candidates (item_count - 1);
          let items :=
            map (λ p : GridPos, mkItem p.1 p.2 false) item_candidates
            ++ [mkItem main_item_pos.1 main_item_pos.2 true] in
          Returns (obstacles, items, player_pos, enemy_pos_list, [main_item_pos], s)
      end
  end.
End Generation.

(** ** Traversal graph *)

Definition has_type (obstacles : gmap GridPos Obstacle) (p : GridPos) (t : string) : bool :=
  match obstacles !! p with
  | Some ob => String.eqb (type ob) t
  | None => false
  end.

Definition dirs : list GridPos := [(-1, 0); (1, 0); (0, -1); (0, 1)].

Definition build_dir (grid_size : Z) (obstacles : gmap GridPos Obstacle)
    (current : GridPos) (graph : Graph) (d : GridPos) : Graph :=
  let neighbor : GridPos := (current.1 + d.1, current.2 + d.2) in
  if (neighbor.1 <? 0) || (neighbor.2 <? 0) ||
     (grid_size <=? neighbor.1) || (grid_size <=? neighbor.2) then graph
  else if has_type obstacles neighbor "Indestructible" then graph
  else
    let weight : Q := if has_type obstacles neighbor "Destructible" then 10%Q else 1%Q in
    add_edge graph current neighbor weight.

Definition build_cell (grid_size : Z) (obstacles : gmap GridPos Obstacle)
    (graph : Graph) (current : GridPos) : Graph :=
  if has_type obstacles current "Indestructible" then graph
  else fold_left (build_dir grid_size obstacles current) dirs graph.

Definition build_graph (grid_size : Z) (obstacles : gmap GridPos Obstacle) : Graph :=
  fold_left (build_cell grid_size obstacles) (all_positions grid_size) empty_graph.

(** ** Game state, player and enemies

    What the source takes from its libraries is an interface:
    [SDL_HasIntersection], and the order in which a range-for visits a
    [std::unordered_map] (some order of its entries). *)

Definition PLAYER_SPEED : Z := 5.
Definition ENEMY_SPEED : Z := 2.
Definition WINDOW_SIZE : Z := GRID_SIZE * CELL_SIZE.

Class Runtime := {
  SDL_HasIntersection : SDL_Rect → SDL_Rect → bool;
  iterate : gmap GridPos Obstacle → list (GridPos * Obstacle);
  iterate_perm : ∀ m, iterate m ≡ₚ map_to_list m
}.

(** [static_cast<int>] of a floating value inside a computation. *)
Definition cast (v : Q) : outcome Z :=
  match static_cast_int v with
  | Some z => Returns z
  | None => Undefined
  end.

(** The rectangle that the constructor of [Item] derives from the cell. *)
Definition Item_rect (it : Item) : SDL_Rect :=
  let radius := CELL_SIZE ÷ 3 in
  let cx := ix it * CELL_SIZE + CELL_SIZE ÷ 2 in
  let cy := iy it * CELL_SIZE + CELL_SIZE ÷ 2 + INFO_BAR_HEIGHT in
  mkRect (cx - radius) (cy - radius) (radius * 2) (radius * 2).

Module GameState.
Record t := mk {
  obstacles : gmap GridPos Obstacle;
  items : list Item;
  destructible_count : Z;
  main_item_pos : list GridPos
}.
End GameState.

Module Player.
Record t := mk { x : Q; y : Q; speed : Q; size : Z; rect : SDL_Rect }.
End Player.

Module Enemy.
Record t := mk {
  x : Q;
  y : Q;
  attack : Z;
  speed : Q;
  size : Z;
  rect : SDL_Rect;
  type : string;
  attack_timer : Q
}.
End Enemy.

Record Keys := mkKeys { key_w : bool; key_s : bool; key_a : bool; key_d : bool }.

Definition sign (v : Z) : Z :=
  if bool_decide (v > 0) then 1 else if bool_decide (v < 0) then -1 else 0.

(** One pass of the loop of [main_run_level]: whether [SDL_QUIT] was
    polled, the keyboard state and the elapsed time [dt]. *)
Record Frame := mkFrame { quit : bool; keys : Keys; dt : Q }.

Record Level := mkLevel {
  game_state : GameState.t;
  player : Player.t;
  enemies : list Enemy.t
}.

Section Game.
Context `{RT : Runtime}.

Definition count_destructible_obstacles (gs : GameState.t) : Z :=
  foldl (λ c kv, if String.eqb (type kv.2) "Destructible" then c + 1 else c) 0
        (iterate (GameState.obstacles gs)).

Definition new_GameState (obs : gmap GridPos Obstacle) (its : list Item)
    (main_pos : list GridPos) : GameState.t :=
  GameState.mk obs its
    (count_destructible_obstacles (GameState.mk obs its 0 main_pos)) main_pos.

(** The inner loop of [collect_item]: is some obstacle flagged
    [is_main_block]? *)
Definition gate_blocked (gs : GameState.t) : bool :=
  existsb (λ kv, is_main_block kv.2) (iterate (GameState.obstacles gs)).

(** The loop of [collect_item] from an iterator on: the result and the
    items from there on. *)
Fixpoint collect_from (gs : GameState.t) (player_rect : SDL_Rect) (its : list Item)
    : bool * list Item :=
  match its with
  | [] => (false, [])
  | it :: rest =>
      if SDL_HasIntersection player_rect (Item_rect it) then
        if is_main it && gate_blocked gs then (false, it :: rest) else (true, rest)
      else
        let '(b, rest') := collect_from gs player_rect rest in (b, it :: rest')
  end.

Definition collect_item (gs : GameState.t) (player_rect : SDL_Rect) : bool * GameState.t :=
  let '(b, its) := collect_from gs player_rect (GameState.items gs) in
  (b, GameState.mk (GameState.obstacles gs) its (GameState.destructible_count gs)
        (GameState.main_item_pos gs)).

Definition destroy_obstacle (gs : GameState.t) (pos : GridPos) : GameState.t :=
  match GameState.obstacles gs !! pos with
  | Some ob =>
      GameState.mk (delete pos (GameState.obstacles gs)) (GameState.items gs)
        (if String.eqb (type ob) "Destructible"
         then GameState.destructible_count gs - 1 else GameState.destructible_count gs)
        (GameState.main_item_pos gs)
  | None => gs
  end.

Definition new_Player (pos : GridPos) (spd : Q) : outcome Player.t :=
  let x := inject_Z (pos.1 * CELL_SIZE) in
  let y := inject_Z (pos.2 * CELL_SIZE) in
  size ← cast (inject_Z CELL_SIZE * (6 # 10));
  px ← cast x;
  py ← cast y;
  Returns (Player.mk x y spd size (mkRect px (py + INFO_BAR_HEIGHT) size size)).

Definition Player_move (p : Player.t) (keys : Keys) (obstacles : gmap GridPos Obstacle)
    (dt : Q) : outcome Player.t :=
  let dx := 0%Q in
  let dy := 0%Q in
  let dy := if key_w keys then (dy - 1)%Q else dy in
  let dy := if key_s keys then (dy + 1)%Q else dy in
  let dx := if key_a keys then (dx - 1)%Q else dx in
  let dx := if key_d keys then (dx + 1)%Q else dx in
  let diagonal := negb (Qeq_bool dx 0) && negb (Qeq_bool dy 0) in
  let dx := if diagonal then (dx * (7071 # 10000))%Q else dx in
  let dy := if diagonal then (dy * (7071 # 10000))%Q else dy in
  let nx := (Player.x p + dx * Player.speed p * dt * 60)%Q in
  let ny := (Player.y p + dy * Player.speed p * dt * 60)%Q in
  ix ← cast nx;
  iy ← cast ny;
  let next_rect := mkRect ix (iy + INFO_BAR_HEIGHT) (Player.size p) (Player.size p) in
  let blocked :=
    existsb (λ kv, negb (nonblocking kv.2) && SDL_HasIntersection next_rect (rect kv.2))
            (iterate obstacles) in
  let bound := inject_Z (WINDOW_SIZE - Player.size p) in
  if negb blocked && Qle_bool 0 nx && Qle_bool 0 ny &&
     negb (Qle_bool bound nx) && negb (Qle_bool bound ny)
  then Returns (Player.mk nx ny (Player.speed p) (Player.size p)
                  (mkRect ix (iy + INFO_BAR_HEIGHT) (rw (Player.rect p)) (rh (Player.rect p))))
  else Returns p.

Definition new_Enemy (pos : GridPos) (atk : Z) (spd : Q) (ztype : string) : outcome Enemy.t :=
  let x := inject_Z (pos.1 * CELL_SIZE) in
  let y := inject_Z (pos.2 * CELL_SIZE) in
  let speed :=
    if String.eqb ztype "fast"
    then (if Qle_bool (spd * (15 # 10)) (spd + 1) then spd + 1 else spd * (15 # 10))%Q
    else spd in
  attack ← (if String.eqb ztype "tank" then cast (inject_Z atk * (1 # 2)) else Returns atk);
  size ← cast (inject_Z CELL_SIZE * (6 # 10));
  ex ← cast x;
  ey ← cast y;
  Returns (Enemy.mk x y attack speed size (mkRect ex (ey + INFO_BAR_HEIGHT) size size) ztype 0).

(** The directions [dirs] that [move_and_attack] tries, in order. *)
Definition chase_dirs (dx dy : Q) : outcome (list GridPos) :=
  ix ← cast dx;
  iy ← cast dy;
  let sx := sign ix in
  let sy := sign iy in
  Returns (if negb (Qle_bool (Qabs dx) (Qabs dy))
           then [(sx, 0); (0, sy); (sx, sy); (- sx, 0); (0, - sy)]
           else [(0, sy); (sx, 0); (sx, sy); (0, - sy); (- sx, 0)]).

(** The scan of [obs_list] up to the first blocking obstacle that
    [next_rect] meets: the obstacles before it, the obstacle, those after. *)
Fixpoint first_hit (next_rect : SDL_Rect) (obs_list : list Obstacle)
    : option (list Obstacle * Obstacle * list Obstacle) :=
  match obs_list with
  | [] => None
  | ob :: rest =>
      if negb (nonblocking ob) && SDL_HasIntersection next_rect (rect ob)
      then Some ([], ob, rest)
      else match first_hit next_rect rest with
           | Some (before, hit, after) => Some (ob :: before, hit, after)
           | None => None
           end
  end.

(** What happens to the obstacle that blocks the way. *)
Definition strike (attack_interval : Q) (e : Enemy.t)
    (before : list Obstacle) (ob : Obstacle) (after : list Obstacle) (gs : GameState.t)
    : Enemy.t * list Obstacle * GameState.t :=
  if String.eqb (type ob) "Destructible" && Qle_bool attack_interval (Enemy.attack_timer e)
  then
    let ob' := mkObstacle (rect ob) (type ob) (health ob - Enemy.attack e)
                          (is_main_block ob) (nonblocking ob) in
    let e' := Enemy.mk (Enemy.x e) (Enemy.y e) (Enemy.attack e) (Enemy.speed e)
                       (Enemy.size e) (Enemy.rect e) (Enemy.type e) 0 in
    if bool_decide (health ob' ≤ 0)
    then (e', before ++ after, destroy_obstacle gs (grid_pos ob'))
    else (e', before ++ ob' :: after, gs)
  else (e, before ++ ob :: after, gs).

(** [for (const auto& d : dirs)] of [move_and_attack]. *)
Fixpoint try_dirs (attack_interval spd : Q) (ds : list GridPos)
    (e : Enemy.t) (obs_list : list Obstacle) (gs : GameState.t)
    : outcome (Enemy.t * list Obstacle * GameState.t) :=
  match ds with
  | [] => Returns (e, obs_list, gs)
  | d :: ds' =>
      if bool_decide (d.1 = 0 ∧ d.2 = 0) then try_dirs attack_interval spd ds' e obs_list gs
      else
        mx ← cast (inject_Z d.1 * spd);
        my ← cast (inject_Z d.2 * spd);
        let next_rect :=
          mkRect (rx (Enemy.rect e) + mx) (ry (Enemy.rect e) + my)
                 (rw (Enemy.rect e)) (rh (Enemy.rect e)) in
        match first_hit next_rect obs_list with
        | Some (before, ob, after) =>
            let '(e, obs_list, gs) := strike attack_interval e before ob after gs in
            try_dirs attack_interval spd ds' e obs_list gs
        | None =>
            let x := (Enemy.x e + inject_Z d.1 * spd)%Q in
            let y := (Enemy.y e + inject_Z d.2 * spd)%Q in
            ex ← cast x;
            ey ← cast y;
            Returns (Enemy.mk x y (Enemy.attack e) (Enemy.speed e) (Enemy.size e)
                       (mkRect ex (ey + INFO_BAR_HEIGHT) (rw (Enemy.rect e)) (rh (Enemy.rect e)))
                       (Enemy.type e) (Enemy.attack_timer e),
                     obs_list, gs)
        end
  end.

Definition move_and_attack (e : Enemy.t) (player : Player.t) (obs_list : list Obstacle)
    (gs : GameState.t) (attack_interval dt : Q)
    : outcome (Enemy.t * list Obstacle * GameState.t) :=
  let e := Enemy.mk (Enemy.x e) (Enemy.y e) (Enemy.attack e) (Enemy.speed e) (Enemy.size e)
                    (Enemy.rect e) (Enemy.type e) (Enemy.attack_timer e + dt) in
  let dx := (Player.x player - Enemy.x e)%Q in
  let dy := (Player.y player - Enemy.y e)%Q in
  let spd := (Enemy.speed e * dt * 60)%Q in
  ds ← chase_dirs dx dy;
  try_dirs attack_interval spd ds e obs_list gs.

(** [ztype_map] of [main_run_level], with its default. *)
Definition ztype_of (chosen_enemy : string) : string :=
  if String.eqb chosen_enemy "enemy_fast" then "fast"
  else if String.eqb chosen_enemy "enemy_tank" then "tank"
  else if String.eqb chosen_enemy "enemy_strong" then "strong"
  else if String.eqb chosen_enemy "enemy_spitter" then "spitter"
  else if String.eqb chosen_enemy "enemy_leech" then "leech"
  else "basic".

(** [for (auto& enemy : enemies)] of [main_run_level]: the enemies that
    moved, those still to move; [true] when an enemy reached the player. *)
Fixpoint enemies_turn (p : Player.t) (dt : Q) (moved todo : list Enemy.t)
    (obs_list : list Obstacle) (gs : GameState.t)
    : outcome (list Enemy.t * GameState.t * bool) :=
  match todo with
  | [] => Returns (moved, gs, false)
  | e :: rest =>
      '(e, obs_list, gs) ← move_and_attack e p obs_list gs (1 # 2) dt;
      px ← cast (Player.x p);
      py ← cast (Player.y p);
      let player_rect := mkRect px (py + INFO_BAR_HEIGHT) (Player.size p) (Player.size p) in
      if SDL_HasIntersection (Enemy.rect e) player_rect
      then Returns (moved ++ e :: rest, gs, true)
      else enemies_turn p dt (moved ++ [e]) rest obs_list gs
  end.

(** The body of [while (running)]: the next state, or the result that
    ends the level. *)
Definition frame (f : Frame) (st : Level) : outcome (Level + string) :=
  if quit f then Returns (inr "exit"%string)
  else
    p ← Player_move (player st) (keys f) (GameState.obstacles (game_state st)) (dt f);
    let gs := (collect_item (game_state st) (Player.rect p)).2 in
    let obs_list := (iterate (GameState.obstacles gs)).*2 in
    '(es, gs, failed) ← enemies_turn p (dt f) [] (enemies st) obs_list gs;
    if failed : bool then Returns (inr "fail"%string)
    else if bool_decide (GameState.items gs = []) then Returns (inr "success"%string)
    else Returns (inl (mkLevel gs p es)).

(** The loop over the frames that are given: [None] while it is still
    running after the last of them. *)
Fixpoint run_frames (fs : list Frame) (st : Level) : outcome (option string) :=
  match fs with
  | [] => Returns None
  | f :: fs' =>
      r ← frame f st;
      match r with
      | inl st' => run_frames fs' st'
      | inr result => Returns (Some result)
      end
  end.

(** [main_run_level] after the call of [generate_game_entities]. *)
Definition run_level (layout : generated) (chosen_enemy : string) (fs : list Frame)
    : outcome (option string) :=
  let '(obs_map, items, player_start, enemy_starts, main_item_list) := layout in
  let gs := new_GameState obs_map items main_item_list in
  p ← new_Player player_start (inject_Z PLAYER_SPEED);
  es ← mapM (λ pos, new_Enemy pos ENEMY_ATTACK (inject_Z ENEMY_SPEED) (ztype_of chosen_enemy))
            enemy_starts;
  run_frames fs (mkLevel gs p es).

Definition main_run_level `{RS : RandomSource} (fuel : nat) (config : LevelConfig)
    (chosen_enemy : string) (fs : list Frame) (s : rng_state) : outcome (option string) :=
  '(layout, _) ← generate_game_entities fuel GRID_SIZE (obstacle_count config)
                   (item_count config) (enemy_count config) (block_hp config) s;
  run_level layout chosen_enemy fs.
End Game.

(** ** Reference implementations of the interfaces

    A priority queue kept as an unsorted list, a random source that
    replays a script of draws (a selection shuffle: each draw picks the
    next element among those left), and a runtime with the rectangle test
    of SDL2 that visits a map in the order of [map_to_list]. *)

Fixpoint pop_min (l : list Node) : option (Node * list Node) :=
  match l with
  | [] => None
  | x :: l' =>
      match pop_min l' with
      | None => Some (x, [])
      | Some (y, r) => if flt y.1 x.1 then Some (y, x :: r) else Some (x, l')
      end
  end.

Fixpoint shuffle_sel (n : nat) (l : list GridPos) (s : list nat) : list GridPos :=
  match n with
  | O => l
  | S n' =>
      let i := (hd O s mod length l)%nat in
      match l !! i with
      | Some x => x :: shuffle_sel n' (delete i l) (tl s)
      | None => l
      end
  end.

Definition script_shuffle (l : list GridPos) (s : list nat) : list GridPos * list nat :=
  (shuffle_sel (length l) l s, drop (length l) s).

Definition script_rand_int (lo hi : Z) (s : list nat) : Z * list nat :=
  (lo + Z.of_nat (hd O s) mod (hi - lo + 1), tl s).

(** [SDL_HasIntersection] as SDL2 implements it: two rectangles of
    positive width and height that overlap on both axes. *)
Definition has_intersection (a b : SDL_Rect) : bool :=
  if bool_decide (rw a ≤ 0 ∨ rh a ≤ 0 ∨ rw b ≤ 0 ∨ rh b ≤ 0) then false
  else
    bool_decide (Z.max (rx a) (rx b) < Z.min (rx a + rw a) (rx b + rw b)) &&
    bool_decide (Z.max (ry a) (ry b) < Z.min (ry a + rh a) (ry b + rh b)).

#[global, refine] Instance plain_runtime : Runtime := {|
  SDL_HasIntersection := has_intersection;
  iterate := map_to_list
|}.
Proof. done. Defined.

(** * Verification *)

(** ** Rounding to binary32 *)

Lemma Qabs_cases x : ((0 <= x)%Q ∧ (Qabs x == x)%Q) ∨ ((x <= 0)%Q ∧ (Qabs x == - x)%Q).
Proof.
  destruct (Qlt_le_dec x 0) as [H|H].
  - right. split; [lra|]. apply Qabs_neg. lra.
  - left. split; [done|]. by apply Qabs_pos.
Qed.

Lemma rne_bounds x : (inject_Z (rne x) - (1 # 2) <= x ∧ x <= inject_Z (rne x) + (1 # 2))%Q.
Proof.
  unfold rne. pose proof (Qfloor_le x) as H1. pose proof (Qlt_floor x) as H2.
  rewrite inject_Z_plus in H2. change (inject_Z 1) with 1%Q in H2.
  destruct (Qcompare_spec (x - inject_Z (Qfloor x)) (1 # 2)) as [H|H|H].
  - destruct (Z.even (Qfloor x)); [|rewrite inject_Z_plus; change (inject_Z 1) with 1%Q];
      split; lra.
  - split; lra.
  - rewrite inject_Z_plus. change (inject_Z 1) with 1%Q. split; lra.
Qed.

Lemma Zlt_Qlt_1 (a b : Z) : a < b → (inject_Z a + 1 <= inject_Z b)%Q.
Proof.
  intros H. change 1%Q with (inject_Z 1). rewrite <- inject_Z_plus, <- Zle_Qle. lia.
Qed.

(** No integer is nearer to [x] than [rne x]. *)
Lemma rne_nearest x (k : Z) : (Qabs (inject_Z (rne x) - x) <= Qabs (inject_Z k - x))%Q.
Proof.
  pose proof (Qfloor_le x) as H1. pose proof (Qlt_floor x) as H2.
  rewrite inject_Z_plus in H2. change (inject_Z 1) with 1%Q in H2.
  assert (k ≤ Qfloor x ∨ Qfloor x + 1 ≤ k) as Hk by lia.
  assert ((inject_Z k <= inject_Z (Qfloor x))%Q ∨ (inject_Z (Qfloor x) + 1 <= inject_Z k)%Q)
    as Hk'.
  { destruct Hk as [Hk|Hk]; [left; by rewrite <- Zle_Qle|right].
    change 1%Q with (inject_Z 1). rewrite <- inject_Z_plus, <- Zle_Qle. lia. }
  clear Hk. unfold rne.
  destruct (Qcompare_spec (x - inject_Z (Qfloor x)) (1 # 2)) as [H|H|H];
    [destruct (Z.even (Qfloor x))| |];
    rewrite ?inject_Z_plus; change (inject_Z 1) with 1%Q;
    apply Qabs_Qle_condition;
    (destruct (Qabs_cases (inject_Z k - x)) as [[? E]|[? E]]; rewrite E);
    destruct Hk'; split; lra.
Qed.

Lemma rne_Z (k : Z) : rne (inject_Z k) = k.
Proof.
  pose proof (rne_nearest (inject_Z k) k) as H.
  assert (inject_Z k - inject_Z k == 0)%Q as E by ring.
  rewrite E in H. change (Qabs 0) with 0%Q in H.
  apply Qabs_Qle_condition in H.
  assert (inject_Z (rne (inject_Z k)) == inject_Z k)%Q as Heq by lra.
  apply inject_Z_injective. exact Heq.
Qed.

Lemma rne_nonneg x : (0 <= x)%Q → 0 ≤ rne x.
Proof.
  intros Hx. destruct (rne_bounds x) as [H1 H2].
  destruct (Z_lt_le_dec (rne x) 0) as [Hneg|]; [|done].
  pose proof (Zlt_Qlt_1 _ _ Hneg) as H. change (inject_Z 0) with 0%Q in H.
  pose proof (rne_nearest x 0) as Hn. change (inject_Z 0) with 0%Q in Hn.
  apply Qabs_Qle_condition in Hn.
  destruct (Qabs_cases (0 - x)) as [[? E]|[? E]]; rewrite E in Hn; lra.
Qed.

Lemma rne_le x (k : Z) : (x <= inject_Z k)%Q → rne x ≤ k.
Proof.
  intros Hx. destruct (Z_le_gt_dec (rne x) k) as [|Hgt]; [done|].
  assert (k < rne x) as Hlt by lia. apply Zlt_Qlt_1 in Hlt.
  pose proof (rne_nearest x k) as Hn. apply Qabs_Qle_condition in Hn.
  destruct (Qabs_cases (inject_Z k - x)) as [[? E]|[? E]]; rewrite E in Hn; lra.
Qed.

(** ** Values in units of [2^-149] *)

(** The non-negative multiples of the unit with 24 significant bits. *)
Definition repr (u : Z) : Prop := ∃ m t, 0 ≤ m < 2 ^ 24 ∧ 0 ≤ t ∧ u = m * 2 ^ t.

Definition ulp_shift (X : Q) : Z := Z.max 0 (Z.log2 (Qfloor X) - 23).

Lemma ulp_shift_nonneg X : 0 ≤ ulp_shift X.
Proof. unfold ulp_shift. lia. Qed.

Lemma inject_pow_pos s : 0 ≤ s → (0 < inject_Z (2 ^ s))%Q.
Proof.
  intros Hs. change 0%Q with (inject_Z 0). rewrite <- Zlt_Qlt. by apply Z.pow_pos_nonneg.
Qed.

Lemma ulp_shift_upper X :
  (0 <= X)%Q → (X < inject_Z (2 ^ (ulp_shift X + 24)))%Q.
Proof.
  intros HX. pose proof (Qlt_floor X) as H2.
  eapply Qlt_le_trans; [exact H2|]. rewrite <- Zle_Qle.
  assert (0 ≤ Qfloor X) as HF.
  { change 0 with (Qfloor 0). by apply Qfloor_resp_le. }
  unfold ulp_shift.
  destruct (Z.eq_dec (Qfloor X) 0) as [->|Hnz].
  { simpl. lia. }
  pose proof (Z.log2_spec (Qfloor X) ltac:(lia)) as [_ Hup].
  assert (2 ^ Z.succ (Z.log2 (Qfloor X)) ≤ 2 ^ (Z.max 0 (Z.log2 (Qfloor X) - 23) + 24)).
  { apply Z.pow_le_mono_r; lia. }
  lia.
Qed.

Lemma ulp_shift_lower X :
  0 < ulp_shift X → (inject_Z (2 ^ (ulp_shift X + 23)) <= X)%Q.
Proof.
  unfold ulp_shift. intros Hs.
  assert (0 < Z.log2 (Qfloor X)) as Hl by lia.
  assert (0 < Qfloor X) as HF.
  { destruct (Z_lt_le_dec 0 (Qfloor X)); [done|]. rewrite Z.log2_nonpos in Hl by done. lia. }
  pose proof (Z.log2_spec (Qfloor X) HF) as [Hlow _].
  replace (Z.max 0 (Z.log2 (Qfloor X) - 23) + 23) with (Z.log2 (Qfloor X)) by lia.
  eapply Qle_trans; [|apply Qfloor_le]. by rewrite <- Zle_Qle.
Qed.

Lemma round_units_eq X :
  round_units X = rne (X / inject_Z (2 ^ ulp_shift X)) * 2 ^ ulp_shift X.
Proof. done. Qed.

Lemma round_units_nonneg X : (0 <= X)%Q → 0 ≤ round_units X.
Proof.
  intros HX. rewrite round_units_eq. apply Z.mul_nonneg_nonneg.
  - apply rne_nonneg. pose proof (inject_pow_pos _ (ulp_shift_nonneg X)).
    apply Qle_shift_div_l; [done|]. lra.
  - apply Z.pow_nonneg. lia.
Qed.

Lemma round_units_repr X : (0 <= X)%Q → repr (round_units X).
Proof.
  intros HX. rewrite round_units_eq.
  set (s := ulp_shift X). pose proof (ulp_shift_nonneg X) as Hs. fold s in Hs.
  pose proof (inject_pow_pos s Hs) as HP.
  assert (0 ≤ rne (X / inject_Z (2 ^ s))) as H0.
  { apply rne_nonneg. apply Qle_shift_div_l; [done|]. lra. }
  assert (rne (X / inject_Z (2 ^ s)) ≤ 2 ^ 24) as H1.
  { apply rne_le. apply Qle_shift_div_r; [done|].
    rewrite <- inject_Z_mult, <- Z.pow_add_r by lia.
    apply Qlt_le_weak. rewrite Z.add_comm. by apply ulp_shift_upper. }
  destruct (Z.eq_dec (rne (X / inject_Z (2 ^ s))) (2 ^ 24)) as [->|Hne].
  - exists (2 ^ 23), (s + 1). split; [lia|]. split; [lia|].
    rewrite Z.pow_add_r by lia. lia.
  - exists (rne (X / inject_Z (2 ^ s))), s. split; [lia|]. split; [lia|done].
Qed.

(** No representable value is nearer to [X] than [round_units X]. *)
Lemma round_units_nearest X Y :
  (0 <= X)%Q → repr Y →
  (Qabs (inject_Z (round_units X) - X) <= Qabs (inject_Z Y - X))%Q.
Proof.
  intros HX (m & t & Hm & Ht & ->). rewrite round_units_eq.
  set (s := ulp_shift X). pose proof (ulp_shift_nonneg X) as Hs. fold s in Hs.
  pose proof (inject_pow_pos s Hs) as HP.
  set (P := inject_Z (2 ^ s)) in *. set (W := (X / P)%Q).
  assert (X == W * P)%Q as HXW by (unfold W; field; lra).
  (* distance to a multiple of the unit in the last place *)
  assert (∀ j : Z, (Qabs (inject_Z (rne W * 2 ^ s) - X) <= Qabs (inject_Z (j * 2 ^ s) - X))%Q)
    as Hmult.
  { intros j. rewrite !inject_Z_mult. fold P.
    assert (inject_Z (rne W) * P - X == (inject_Z (rne W) - W) * P)%Q as -> by (rewrite HXW; ring).
    assert (inject_Z j * P - X == (inject_Z j - W) * P)%Q as -> by (rewrite HXW; ring).
    rewrite !Qabs_Qmult. rewrite (Qabs_pos P) by lra.
    apply Qmult_le_compat_r; [apply rne_nearest|lra]. }
  destruct (Z_le_gt_dec s t) as [Hst|Hts].
  - replace (m * 2 ^ t) with ((m * 2 ^ (t - s)) * 2 ^ s).
    + apply Hmult.
    + rewrite <- Z.mul_assoc, <- Z.pow_add_r by lia. f_equal. f_equal. lia.
  - assert (0 < s) as Hspos by lia.
    pose proof (ulp_shift_lower X Hspos) as Hlow. fold s in Hlow.
    eapply Qle_trans; [apply (Hmult (2 ^ 23))|].
    rewrite <- Z.pow_add_r by lia. rewrite (Z.add_comm 23 s).
    assert (m * 2 ^ t ≤ 2 ^ (s + 23)) as Hle.
    { transitivity (2 ^ 24 * 2 ^ t).
      - apply Z.mul_le_mono_nonneg_r; [apply Z.pow_nonneg|]; lia.
      - rewrite <- Z.pow_add_r by lia. apply Z.pow_le_mono_r; lia. }
    rewrite Zle_Qle in Hle.
    apply Qabs_Qle_condition.
    destruct (Qabs_cases (inject_Z (m * 2 ^ t) - X)) as [[? E]|[? E]]; rewrite E; split; lra.
Qed.

(** ** Finite binary32 values *)

Definition is_float (q : Q) : Prop :=
  ∃ u : Z, repr (Z.abs u) ∧ Z.abs u < 2 ^ 277 ∧ (q * inject_Z (2 ^ 149) == inject_Z u)%Q.

(** A value of the type: a finite one is a binary32 value. *)
Definition float_val (c : fcost) : Prop :=
  match c with
  | Fin q => is_float q
  | _ => True
  end.

#[global] Instance is_float_proper : Proper (Qeq ==> iff) is_float.
Proof.
  intros x y Hxy. unfold is_float. split; intros (u & ? & ? & Hu); exists u;
    (split; [done|]); (split; [done|]); [rewrite <- Hxy|rewrite Hxy]; done.
Qed.

Lemma is_float_opp q : is_float q → is_float (- q).
Proof.
  intros (u & Hr & Hb & Hu). exists (- u). rewrite Z.abs_opp. split; [done|]. split; [done|].
  rewrite inject_Z_opp, <- Hu. ring.
Qed.

Lemma unit_pos : (0 < inject_Z (2 ^ 149))%Q.
Proof. by apply inject_pow_pos. Qed.

Lemma is_float_scaled (m t : Z) :
  Z.abs m < 2 ^ 24 → 0 ≤ t ≤ 253 → is_float (inject_Z (m * 2 ^ t) / inject_Z (2 ^ 149)).
Proof.
  intros Hm Ht. exists (m * 2 ^ t). split; [|split].
  - exists (Z.abs m), t. rewrite Z.abs_mul, (Z.abs_eq (2 ^ t)) by (apply Z.pow_nonneg; lia).
    split; [lia|]. split; [lia|done].
  - rewrite Z.abs_mul, (Z.abs_eq (2 ^ t)) by (apply Z.pow_nonneg; lia).
    assert (2 ^ t ≤ 2 ^ 253) by (apply Z.pow_le_mono_r; lia).
    assert (0 < 2 ^ t) by (apply Z.pow_pos_nonneg; lia).
    change (2 ^ 277) with (2 ^ 24 * 2 ^ 253). nia.
  - pose proof unit_pos. field. lra.
Qed.

Lemma is_float_int (n : Z) : Z.abs n ≤ 2 ^ 24 → is_float (inject_Z n).
Proof.
  intros Hn. destruct (Z.eq_dec (Z.abs n) (2 ^ 24)) as [He|Hne].
  - assert (n = 2 ^ 23 * 2 ^ 1 ∨ n = (- 2 ^ 23) * 2 ^ 1) as [-> | ->] by lia.
    + assert (inject_Z (2 ^ 23 * 2 ^ 1) == inject_Z (2 ^ 23 * 2 ^ 150) / inject_Z (2 ^ 149))%Q
        as -> by reflexivity.
      by apply is_float_scaled.
    + assert (inject_Z (- 2 ^ 23 * 2 ^ 1)
              == inject_Z (- 2 ^ 23 * 2 ^ 150) / inject_Z (2 ^ 149))%Q as -> by reflexivity.
      by apply is_float_scaled.
  - assert (inject_Z n == inject_Z (n * 2 ^ 149) / inject_Z (2 ^ 149))%Q as ->.
    { rewrite inject_Z_mult. pose proof unit_pos. field. lra. }
    apply is_float_scaled; lia.
Qed.

(** Multiples of one eighth below [2^21]. *)
Lemma is_float_eighths (j : Z) : Z.abs j < 2 ^ 24 → is_float (inject_Z j / 8).
Proof.
  intros Hj.
  assert (inject_Z j / 8 == inject_Z (j * 2 ^ 146) / inject_Z (2 ^ 149))%Q as ->.
  { rewrite inject_Z_mult. change (inject_Z (2 ^ 149)) with (inject_Z (2 ^ 146) * 8)%Q.
    pose proof (inject_pow_pos 146 ltac:(lia)). field. lra. }
  apply is_float_scaled; lia.
Qed.

Lemma round_pos_cases x :
  (0 <= x)%Q →
  round_pos x = PInf ∧ 2 ^ 277 ≤ round_units (x * inject_Z (2 ^ 149)) ∨
  ∃ q, round_pos x = Fin q ∧ is_float q ∧ (0 <= q)%Q ∧
       (q * inject_Z (2 ^ 149) == inject_Z (round_units (x * inject_Z (2 ^ 149))))%Q.
Proof.
  intros Hx. unfold round_pos. pose proof unit_pos as HU.
  set (X := (x * inject_Z (2 ^ 149))%Q).
  assert (0 <= X)%Q as HX by (unfold X; apply Qmult_le_0_compat; lra).
  pose proof (round_units_nonneg X HX) as H0. pose proof (round_units_repr X HX) as Hr.
  case_bool_decide as Hov; [by left|]. right. eexists. split; [done|].
  assert (Qred (inject_Z (round_units X) / inject_Z (2 ^ 149)) * inject_Z (2 ^ 149)
          == inject_Z (round_units X))%Q as Heq.
  { rewrite Qred_correct. field. lra. }
  split; [|split; [|done]].
  - exists (round_units X). rewrite Z.abs_eq by done. split; [done|]. split; [lia|done].
  - rewrite Qred_correct. apply Qle_shift_div_l; [done|]. rewrite Qmult_0_l.
    change 0%Q with (inject_Z 0). by rewrite <- Zle_Qle.
Qed.

Lemma Qabs_scale (a b U : Q) :
  (0 < U)%Q → (Qabs (a * U) <= Qabs (b * U))%Q → (Qabs a <= Qabs b)%Q.
Proof.
  intros HU H. rewrite !Qabs_Qmult, (Qabs_pos U) in H by lra.
  apply Qmult_le_r in H; done.
Qed.

Lemma round_pos_nearest x r y :
  (0 <= x)%Q → round_pos x = Fin r → is_float y → (Qabs (r - x) <= Qabs (y - x))%Q.
Proof.
  intros Hx Hr (u & Hru & _ & Hu). pose proof unit_pos as HU.
  destruct (round_pos_cases x Hx) as [[E _]|(q & E & _ & _ & Hq)]; rewrite E in Hr; [done|].
  injection Hr as <-.
  set (X := (x * inject_Z (2 ^ 149))%Q) in *.
  assert (0 <= X)%Q as HX by (unfold X; apply Qmult_le_0_compat; lra).
  apply (Qabs_scale _ _ _ HU).
  assert ((q - x) * inject_Z (2 ^ 149) == inject_Z (round_units X) - X)%Q as ->
    by (unfold X in *; rewrite <- Hq; ring).
  assert ((y - x) * inject_Z (2 ^ 149) == inject_Z u - X)%Q as ->
    by (unfold X in *; rewrite <- Hu; ring).
  destruct (Z_le_gt_dec 0 u) as [Hpos|Hneg].
  - rewrite Z.abs_eq in Hru by done. by apply round_units_nearest.
  - eapply Qle_trans; [apply (round_units_nearest X 0 HX)|].
    + exists 0, 0. lia.
    + assert (inject_Z u < 0)%Q by (change 0%Q with (inject_Z 0); rewrite <- Zlt_Qlt; lia).
      change (inject_Z 0) with 0%Q. apply Qabs_Qle_condition.
      destruct (Qabs_cases (inject_Z u - X)) as [[? E']|[? E']]; rewrite E'; split; lra.
Qed.

(** An overflow leaves every finite value strictly below. *)
Lemma round_pos_PInf x y : (0 <= x)%Q → round_pos x = PInf → is_float y → (y < x)%Q.
Proof.
  intros Hx Hr (u & Hru & Hb & Hu). pose proof unit_pos as HU.
  destruct (round_pos_cases x Hx) as [[_ Hov]|(q & E & _)]; [|congruence].
  set (X := (x * inject_Z (2 ^ 149))%Q) in *.
  assert (0 <= X)%Q as HX by (unfold X; apply Qmult_le_0_compat; lra).
  assert (inject_Z u < X)%Q as Hlt.
  { destruct (Qlt_le_dec (inject_Z u) X) as [|Hge]; [done|]. exfalso.
    assert (0 ≤ u) as Hu0.
    { rewrite Zle_Qle. change (inject_Z 0) with 0%Q. lra. }
    rewrite Z.abs_eq in Hru, Hb by done.
    pose proof (round_units_nearest X u HX Hru) as Hn.
    assert (inject_Z u + 1 <= inject_Z (round_units X))%Q as Hbig.
    { apply Zlt_Qlt_1. lia. }
    apply Qabs_Qle_condition in Hn.
    destruct (Qabs_cases (inject_Z u - X)) as [[? E']|[? E']]; rewrite E' in Hn; lra. }
  unfold X in Hlt. rewrite <- Hu in Hlt. by apply Qmult_lt_r in Hlt.
Qed.

Lemma round32_cases x :
  (round32 x = PInf ∧ ∀ y, is_float y → (y < x)%Q) ∨
  (round32 x = NInf ∧ ∀ y, is_float y → (x < y)%Q) ∨
  ∃ r, round32 x = Fin r ∧ is_float r ∧ Qred r = r ∧
       ∀ y, is_float y → (Qabs (r - x) <= Qabs (y - x))%Q.
Proof.
  unfold round32. destruct (Qle_bool 0 x) eqn:Hs.
  - apply Qle_bool_iff in Hs.
    destruct (round_pos_cases x Hs) as [[E _]|(q & E & Hq & _ & _)].
    + left. split; [done|]. intros y Hy. by apply (round_pos_PInf x y).
    + right. right. exists q. split; [done|]. split; [done|]. split.
      * unfold round_pos in E. case_bool_decide; [done|]. injection E as <-.
        apply Qred_complete, Qred_correct.
      * intros y Hy. by apply round_pos_nearest.
  - assert (x < 0)%Q as Hneg.
    { destruct (Qlt_le_dec x 0) as [|Hge]; [done|]. apply Qle_bool_iff in Hge. congruence. }
    assert (0 <= - x)%Q as Hs' by lra.
    destruct (round_pos_cases (- x) Hs') as [[E _]|(q & E & Hq & _ & _)]; rewrite E; cbn [fneg].
    + right. left. split; [done|]. intros y Hy.
      pose proof (round_pos_PInf (- x) (- y) Hs' E (is_float_opp _ Hy)). lra.
    + right. right. exists (- q)%Q. split; [done|]. split; [by apply is_float_opp|]. split.
      * unfold round_pos in E. case_bool_decide; [done|]. injection E as <-.
        rewrite <- Qred_opp. apply Qred_complete. rewrite Qred_opp, Qred_correct. reflexivity.
      * intros y Hy.
        pose proof (round_pos_nearest (- x) q (- y) Hs' E (is_float_opp _ Hy)) as Hn.
        assert (- q - x == - (q - - x))%Q as E1 by ring.
        assert (y - x == - (- y - - x))%Q as E2 by ring.
        rewrite E1, E2, !Qabs_opp. exact Hn.
Qed.

Lemma round32_val x : float_val (round32 x).
Proof. destruct (round32_cases x) as [[-> _]|[[-> _]|(r & -> & ? & _)]]; done. Qed.

(** A binary32 value rounds to itself. *)
Lemma round32_exact q : is_float q → round32 q = Fin (Qred q).
Proof.
  intros Hq. destruct (round32_cases q) as [[_ H]|[[_ H]|(r & -> & _ & Hred & Hn)]].
  - specialize (H q Hq). lra.
  - specialize (H q Hq). lra.
  - specialize (Hn q Hq). assert (q - q == 0)%Q as E by ring. rewrite E in Hn.
    change (Qabs 0) with 0%Q in Hn. apply Qabs_Qle_condition in Hn.
    f_equal. rewrite <- Hred. apply Qred_complete. lra.
Qed.

Definition fle (a b : fcost) : Prop := flt b a = false.

Lemma flt_Fin x y : flt (Fin x) (Fin y) = true ↔ (x < y)%Q.
Proof.
  simpl. rewrite negb_true_iff. split.
  - intros H. destruct (Qlt_le_dec x y) as [|Hle]; [done|].
    apply Qle_bool_iff in Hle. congruence.
  - intros H. destruct (Qle_bool y x) eqn:E; [|done].
    apply Qle_bool_iff in E. lra.
Qed.

Lemma flt_Fin_false x y : flt (Fin x) (Fin y) = false ↔ (y <= x)%Q.
Proof.
  rewrite <- not_true_iff_false, flt_Fin. split; intros; lra.
Qed.

(** Rounding never crosses a binary32 value. *)
Lemma round32_lower c x : is_float c → (c <= x)%Q → fle (Fin c) (round32 x).
Proof.
  intros Hc Hcx. unfold fle.
  destruct (round32_cases x) as [[-> _]|[[_ H]|(r & -> & _ & _ & Hn)]]; [done| |].
  - specialize (H c Hc). lra.
  - apply flt_Fin_false. specialize (Hn c Hc). apply Qabs_Qle_condition in Hn.
    destruct (Qabs_cases (c - x)) as [[? E]|[? E]]; rewrite E in Hn; lra.
Qed.

Lemma round32_upper c x : is_float c → (x <= c)%Q → fle (round32 x) (Fin c).
Proof.
  intros Hc Hcx. unfold fle.
  destruct (round32_cases x) as [[_ H]|[[-> _]|(r & -> & _ & _ & Hn)]]; [|done|].
  - specialize (H c Hc). lra.
  - apply flt_Fin_false. specialize (Hn c Hc). apply Qabs_Qle_condition in Hn.
    destruct (Qabs_cases (c - x)) as [[? E]|[? E]]; rewrite E in Hn; lra.
Qed.

Definition rank (c : fcost) : Z :=
  match c with
  | Fin q => Qfloor (q * inject_Z (2 ^ 149)) + 2 ^ 277
  | PInf => 2 ^ 278
  | NInf | NaN => 0
  end.

Lemma Qred_inject_Z n : Qred (inject_Z n) = inject_Z n.
Proof.
  pose proof (Qred_correct (inject_Z n)) as He. pose proof (gcd_Qred (inject_Z n)) as Hg.
  destruct (Qred (inject_Z n)) as [a b]. unfold Qeq in He. simpl in He, Hg.
  assert (a = Z.pos b * n) as Ha by lia.
  rewrite Ha, Z.gcd_comm, Z.gcd_mul_diag_l in Hg by lia.
  assert (b = 1%positive) as -> by lia. unfold inject_Z. f_equal. lia.
Qed.

Lemma round32_int n : Z.abs n ≤ 2 ^ 24 → round32 (inject_Z n) = Fin (inject_Z n).
Proof. intros Hn. by rewrite round32_exact, Qred_inject_Z by (by apply is_float_int). Qed.

Lemma of_int_small n : Z.abs n ≤ 2 ^ 24 → of_int n = Fin (inject_Z n).
Proof.
  intros Hn. unfold of_int.
  replace (Z.max INT_MIN (Z.min INT_MAX n)) with n by (unfold INT_MIN, INT_MAX; lia).
  by apply round32_int.
Qed.

Lemma fle_Fin x y : fle (Fin x) (Fin y) ↔ (x <= y)%Q.
Proof. unfold fle. apply flt_Fin_false. Qed.

(** A rounded value between two binary32 values is finite. *)
Lemma round32_between lo hi x :
  is_float lo → is_float hi → (lo <= x <= hi)%Q →
  ∃ r, round32 x = Fin r ∧ is_float r ∧ (lo <= r <= hi)%Q ∧
       ∀ y, is_float y → (Qabs (r - x) <= Qabs (y - x))%Q.
Proof.
  intros Hlo Hhi [H1 H2].
  pose proof (round32_lower lo x Hlo H1) as Hl. pose proof (round32_upper hi x Hhi H2) as Hu.
  destruct (round32_cases x) as [[E _]|[[E _]|(r & E & Hr & _ & Hn)]]; rewrite E in Hl, Hu.
  - done.
  - done.
  - exists r. apply fle_Fin in Hl, Hu. done.
Qed.

Lemma is_float_pow2 (e : Z) : 0 ≤ e ≤ 100 → is_float (inject_Z (2 ^ e)).
Proof.
  intros He.
  assert (inject_Z (2 ^ e) == inject_Z (1 * 2 ^ (e + 149)) / inject_Z (2 ^ 149))%Q as ->.
  { rewrite Z.mul_1_l, Z.pow_add_r, inject_Z_mult by lia. pose proof unit_pos. field. lra. }
  apply is_float_scaled; lia.
Qed.

Lemma of_int_finite z :
  ∃ r, of_int z = Fin r ∧ is_float r ∧ (- inject_Z (2 ^ 31) <= r <= inject_Z (2 ^ 31))%Q ∧
       ∀ c : Z, Z.abs c ≤ 2 ^ 24 → (c ≤ z → (inject_Z c <= r)%Q) ∧ (z ≤ c → (r <= inject_Z c)%Q).
Proof.
  unfold of_int. set (z' := Z.max INT_MIN (Z.min INT_MAX z)).
  assert (INT_MIN ≤ z' ≤ INT_MAX) as Hz by (unfold z', INT_MIN, INT_MAX; lia).
  destruct (round32_between (- inject_Z (2 ^ 31)) (inject_Z (2 ^ 31)) (inject_Z z'))
    as (r & E & Hr & Hb & _).
  - by apply is_float_opp, is_float_pow2.
  - by apply is_float_pow2.
  - rewrite <- inject_Z_opp, <- !Zle_Qle. unfold INT_MIN, INT_MAX in Hz. lia.
  - exists r. split; [done|]. split; [done|]. split; [done|]. intros c Hc. split; intros Hcz.
    + pose proof (round32_lower (inject_Z c) (inject_Z z') (is_float_int c Hc)) as Hl.
      rewrite E in Hl. apply fle_Fin, Hl. rewrite <- Zle_Qle.
      unfold z', INT_MIN, INT_MAX. lia.
    + pose proof (round32_upper (inject_Z c) (inject_Z z') (is_float_int c Hc)) as Hl.
      rewrite E in Hl. apply fle_Fin, Hl. rewrite <- Zle_Qle.
      unfold z', INT_MIN, INT_MAX. lia.
Qed.

Lemma of_int_ENEMY_ATTACK : of_int ENEMY_ATTACK = Fin 10.
Proof. by rewrite of_int_small. Qed.

Lemma Qceiling_gt (x : Q) : (inject_Z (Qceiling x) - 1 < x)%Q.
Proof.
  pose proof (Qceiling_lt x) as H. unfold Z.sub in H.
  rewrite inject_Z_plus, inject_Z_opp in H. exact H.
Qed.

Lemma Qceiling_unique (r : Q) (k : Z) :
  (inject_Z k - 1 < r)%Q → (r <= inject_Z k)%Q → Qceiling r = k.
Proof.
  intros H1 H2. pose proof (Qle_ceiling r) as H3. pose proof (Qceiling_gt r) as H4.
  assert (inject_Z (Qceiling r) < inject_Z k + 1)%Q as H5 by lra.
  assert (inject_Z k < inject_Z (Qceiling r) + 1)%Q as H6 by lra.
  change 1%Q with (inject_Z 1) in H5, H6. rewrite <- inject_Z_plus, <- Zlt_Qlt in H5, H6. lia.
Qed.

(** The quotient by ten rounds to a value with the ceiling of the exact
    quotient, as long as the health converts exactly. *)
Lemma ticks_exact (h : Z) :
  Z.abs h ≤ 2 ^ 24 → ticks h = Fin (inject_Z (Qceiling (inject_Z h / 10))).
Proof.
  intros Hh. unfold ticks. rewrite of_int_ENEMY_ATTACK, of_int_small by lia.
  cbn [fdiv]. change (Qeq_bool 10 0) with false. cbv iota.
  set (x := (inject_Z h / 10)%Q). set (k := Qceiling x).
  assert (inject_Z k - 1 < x)%Q as Hk1.
  { apply Qceiling_gt. }
  assert (x <= inject_Z k)%Q as Hk2 by apply Qle_ceiling.
  assert (- inject_Z (2 ^ 21) <= x <= inject_Z (2 ^ 21))%Q as Hx.
  { unfold x. assert (- (16777216 # 1) <= inject_Z h <= 16777216 # 1)%Q as [? ?].
    { change (16777216 # 1)%Q with (inject_Z (2 ^ 24)).
      rewrite <- inject_Z_opp, <- !Zle_Qle. lia. }
    change (inject_Z (2 ^ 21)) with (2097152 # 1)%Q.
    split; [apply Qle_shift_div_l|apply Qle_shift_div_r]; lra. }
  assert (- 2 ^ 21 ≤ k ≤ 2 ^ 21) as Hkb.
  { split.
    - rewrite Zle_Qle, inject_Z_opp. lra.
    - unfold k. change (2 ^ 21) with (Qceiling (inject_Z (2 ^ 21))).
      apply Qceiling_resp_le. lra. }
  destruct (round32_between (- inject_Z (2 ^ 21)) (inject_Z (2 ^ 21)) x)
    as (r & E & Hr & Hb & Hn).
  { by apply is_float_opp, is_float_pow2. }
  { by apply is_float_pow2. }
  { done. }
  rewrite E. cbn [fceil]. do 2 f_equal. apply Qceiling_unique.
  - destruct (Z.eq_dec (h mod 10) 0) as [Hm|Hm].
    + (* an exact quotient *)
      assert (x == inject_Z k)%Q as Hxk.
      { assert (x == inject_Z (h / 10))%Q as Hq.
        { unfold x. rewrite (Z.div_mod h 10) at 1 by lia. rewrite Hm, Z.add_0_r.
          rewrite inject_Z_mult. field. }
        unfold k. rewrite Hq at 2. rewrite Qceiling_Z. done. }
      assert (is_float x) as Hfx by (rewrite Hxk; apply is_float_int; lia).
      rewrite (round32_exact x Hfx) in E. injection E as <-. rewrite Qred_correct. lra.
    + (* at least a tenth above the integer below *)
      assert (inject_Z k - 1 + (1 # 10) <= x)%Q as Hgap.
      { assert (10 * (k - 1) < h) as Hlt.
        { unfold Z.sub. rewrite Zlt_Qlt, inject_Z_mult, inject_Z_plus, inject_Z_opp.
          change (inject_Z 10) with 10%Q. change (inject_Z 1) with 1%Q.
          assert (inject_Z h == 10 * x)%Q as -> by (unfold x; field). lra. }
        assert (10 * (k + - 1) + 1 ≤ h) as Hle by lia.
        rewrite Zle_Qle, inject_Z_plus, inject_Z_mult, inject_Z_plus in Hle.
        change (inject_Z 10) with 10%Q in Hle. change (inject_Z 1) with 1%Q in Hle.
        change (inject_Z (-1)) with (-1 # 1)%Q in Hle.
        assert (inject_Z h == 10 * x)%Q as Hhx by (unfold x; field). rewrite Hhx in Hle. lra. }
      assert (- 2 ^ 21 < k) as Hk3.
      { destruct (Z.eq_dec k (- 2 ^ 21)) as [Ek|]; [|lia]. exfalso.
        rewrite Ek in Hk2. rewrite inject_Z_opp in Hk2.
        assert (x == - inject_Z (2 ^ 21))%Q as Hx2 by lra.
        assert (inject_Z h == inject_Z (- 20971520))%Q as Hh2.
        { assert (inject_Z h == 10 * x)%Q as -> by (unfold x; field). rewrite Hx2. reflexivity. }
        assert (h = -20971520) as Hh3 by (apply inject_Z_injective; exact Hh2).
        rewrite Hh3 in Hh. vm_compute in Hh. by apply Hh. }
      set (y := (inject_Z (8 * (k + - 1) + 1) / 8)%Q).
      assert (is_float y) as Hy by (apply is_float_eighths; lia).
      assert (y == inject_Z k - 1 + (1 # 8))%Q as Ey.
      { unfold y. rewrite inject_Z_plus, inject_Z_mult, inject_Z_plus.
        change (inject_Z 8) with 8%Q. change (inject_Z 1) with 1%Q.
        change (inject_Z (-1)) with (-1 # 1)%Q. field. }
      specialize (Hn y Hy). apply Qabs_Qle_condition in Hn.
      destruct (Qabs_cases (y - x)) as [[? E']|[? E']]; rewrite E' in Hn; lra.
  - pose proof (round32_upper (inject_Z k) x (is_float_int k ltac:(lia)) Hk2) as Hu.
    rewrite E in Hu. by apply fle_Fin in Hu.
Qed.

Lemma rank_bounds c : float_val c → 0 ≤ rank c ≤ 2 ^ 278.
Proof.
  destruct c as [q| | |]; cbn [rank float_val]; [|lia..]. intros (u & _ & Hb & Hu).
  rewrite (Qfloor_comp _ _ Hu), Qfloor_Z. lia.
Qed.

Lemma rank_lt a b : float_val a → float_val b → flt a b = true → rank a < rank b.
Proof.
  destruct a as [x| | |], b as [y| | |]; cbn [float_val]; intros Ha Hb Hlt; try done.
  - destruct Ha as (u & _ & Hbu & Hu), Hb as (v & _ & Hbv & Hv). apply flt_Fin in Hlt.
    unfold rank. rewrite (Qfloor_comp _ _ Hu), (Qfloor_comp _ _ Hv), !Qfloor_Z.
    assert (inject_Z u < inject_Z v)%Q as H.
    { rewrite <- Hu, <- Hv. apply Qmult_lt_r; [apply unit_pos|done]. }
    rewrite <- Zlt_Qlt in H. lia.
  - destruct Ha as (u & _ & Hbu & Hu). unfold rank. rewrite (Qfloor_comp _ _ Hu), Qfloor_Z.
    change (2 ^ 278) with (2 ^ 277 + 2 ^ 277). lia.
  - destruct Hb as (v & _ & Hbv & Hv). unfold rank. rewrite (Qfloor_comp _ _ Hv), Qfloor_Z. lia.
Qed.

Lemma fadd_val a b : float_val (fadd a b).
Proof. destruct a, b; simpl; try done. apply round32_val. Qed.

(** ** Order of floating values *)

Lemma fle_refl a : fle a a.
Proof. destruct a; unfold fle; try done. apply flt_Fin_false. lra. Qed.

Lemma flt_fle a b : flt a b = true → fle a b.
Proof.
  unfold fle. destruct a, b; try done. rewrite flt_Fin, flt_Fin_false. intros. lra.
Qed.

Lemma fle_trans a b c : b ≠ NaN → fle a b → fle b c → fle a c.
Proof.
  unfold fle. destruct a, b, c; try done. rewrite !flt_Fin_false. intros. lra.
Qed.

Lemma flt_trans a b c : flt a b = true → flt b c = true → flt a c = true.
Proof. destruct a, b, c; try done. rewrite !flt_Fin. intros. lra. Qed.

Lemma fle_flt_trans a b c : a ≠ NaN → fle a b → flt b c = true → flt a c = true.
Proof.
  unfold fle. destruct a, b, c; try done. rewrite flt_Fin_false, !flt_Fin. intros. lra.
Qed.

Lemma flt_fle_trans a b c : c ≠ NaN → flt a b = true → fle b c → flt a c = true.
Proof.
  unfold fle. destruct a, b, c; try done. rewrite flt_Fin_false, !flt_Fin. intros. lra.
Qed.

Lemma flt_not_fle a b : flt a b = true → ¬ fle b a.
Proof. unfold fle. congruence. Qed.

(** ** Non-negative values *)

Definition nonneg_val (c : fcost) : Prop :=
  match c with
  | Fin q => is_float q ∧ (0 <= q)%Q
  | PInf => True
  | _ => False
  end.

Lemma nonneg_val_float c : nonneg_val c → float_val c.
Proof. destruct c; simpl; tauto. Qed.

Lemma nonneg_val_number c : nonneg_val c → c ≠ NaN.
Proof. by destruct c. Qed.

Lemma is_float_0 : is_float 0.
Proof. by apply (is_float_int 0). Qed.

Lemma nonneg_val_0 : nonneg_val (Fin 0).
Proof. split; [apply is_float_0|lra]. Qed.

Lemma nonneg_val_fle_0 c : nonneg_val c → fle (Fin 0) c.
Proof. destruct c as [q| | |]; try done. intros [_ ?]. by apply fle_Fin. Qed.

Lemma round32_above c x :
  is_float c → (0 <= c)%Q → (c <= x)%Q → nonneg_val (round32 x) ∧ fle (Fin c) (round32 x).
Proof.
  intros Hc H0 Hcx. pose proof (round32_lower c x Hc Hcx) as Hl. split; [|done].
  destruct (round32_cases x) as [[E _]|[[E _]|(r & E & Hr & _)]]; rewrite E in *; try done.
  apply fle_Fin in Hl. split; [done|lra].
Qed.

Lemma fadd_nonneg c w :
  nonneg_val c → (0 <= w)%Q → nonneg_val (fadd c (Fin w)) ∧ fle c (fadd c (Fin w)).
Proof.
  destruct c as [q| | |]; try done. intros [Hq H0] Hw. cbn [fadd].
  apply round32_above; [done|done|lra].
Qed.

Lemma fadd_PInf c : nonneg_val c → fadd c PInf = PInf.
Proof. by destruct c. Qed.

(** ** The obstacle factor *)

Definition tenth : Q := 13421773 # 134217728.

Lemma round32_tenth : round32 (1 # 10) = Fin tenth.
Proof. by vm_compute. Qed.

Lemma is_float_fifteen_sixteenths : is_float (- (15 # 16)).
Proof.
  assert (- (15 # 16) == inject_Z (-15 * 2 ^ 145) / inject_Z (2 ^ 149))%Q as -> by reflexivity.
  apply is_float_scaled; lia.
Qed.

Lemma ticks_bounds (h : Z) :
  -10 < h → ∃ t : Z, ticks h = Fin (inject_Z t) ∧ 0 ≤ t ≤ 2 ^ 28.
Proof.
  intros Hh. unfold ticks. rewrite of_int_ENEMY_ATTACK.
  destruct (of_int_finite h) as (r & -> & Hr & [Hr1 Hr2] & Hc).
  destruct (Hc (-9) ltac:(lia)) as [Hlow _]. specialize (Hlow ltac:(lia)).
  change (inject_Z (-9)) with (-9 # 1)%Q in Hlow. change (inject_Z (2 ^ 31)) with (2147483648 # 1)%Q in Hr2.
  cbn [fdiv]. change (Qeq_bool 10 0) with false. cbv iota.
  destruct (round32_between (- (15 # 16)) (inject_Z (2 ^ 28)) (r / 10))
    as (r2 & -> & _ & [Hlo Hhi] & _).
  { apply is_float_fifteen_sixteenths. }
  { by apply is_float_pow2. }
  { change (inject_Z (2 ^ 28)) with (268435456 # 1)%Q.
    split; [apply Qle_shift_div_l|apply Qle_shift_div_r]; lra. }
  cbn [fceil]. exists (Qceiling r2). split; [done|]. split.
  - pose proof (Qle_ceiling r2) as Hc2.
    assert (inject_Z (-1) < inject_Z (Qceiling r2))%Q as Hlt.
    { change (inject_Z (-1)) with (-1 # 1)%Q. lra. }
    rewrite <- Zlt_Qlt in Hlt. lia.
  - change (2 ^ 28) with (Qceiling (inject_Z (2 ^ 28))). by apply Qceiling_resp_le.
Qed.

(** From a health above -10 the factor is finite and not negative. *)
Lemma k_factor_bounds (h : Z) :
  -10 < h → ∃ kq, k_factor h = Fin kq ∧ is_float kq ∧ (0 <= kq <= inject_Z (2 ^ 28))%Q.
Proof.
  intros Hh. unfold k_factor. destruct (ticks_bounds h Hh) as (t & -> & Ht0 & Ht1).
  rewrite round32_tenth. cbn [fmul].
  assert (0 <= inject_Z t <= inject_Z (2 ^ 28))%Q as [H0 H1].
  { change 0%Q with (inject_Z 0). rewrite <- !Zle_Qle. lia. }
  destruct (round32_between 0 (inject_Z (2 ^ 28)) (inject_Z t * tenth))
    as (r & -> & Hr & Hb & _).
  - apply is_float_0.
  - by apply is_float_pow2.
  - unfold tenth. split.
    + lra.
    + lra.
  - eauto.
Qed.

(** ** Rounding is monotone *)

Lemma rne_comp x y : (x == y)%Q → rne x = rne y.
Proof.
  intros H. unfold rne. rewrite (Qfloor_comp _ _ H).
  assert (x - inject_Z (Qfloor y) == y - inject_Z (Qfloor y))%Q as E by (rewrite H; reflexivity).
  by rewrite (Qcompare_comp _ _ E _ _ (Qeq_refl (1 # 2))).
Qed.

Lemma round_units_comp X Y : (X == Y)%Q → round_units X = round_units Y.
Proof.
  intros H. unfold round_units. rewrite (Qfloor_comp _ _ H).
  f_equal. apply rne_comp. by rewrite H.
Qed.

Lemma round_units_mono X Y : (0 <= X)%Q → (X <= Y)%Q → round_units X ≤ round_units Y.
Proof.
  intros HX HXY. assert (0 <= Y)%Q as HY by lra.
  destruct (Z_le_gt_dec (round_units X) (round_units Y)) as [|Hgt]; [done|]. exfalso.
  pose proof (round_units_nearest X (round_units Y) HX (round_units_repr Y HY)) as H1.
  pose proof (round_units_nearest Y (round_units X) HY (round_units_repr X HX)) as H2.
  assert (inject_Z (round_units Y) + 1 <= inject_Z (round_units X))%Q as Hlt
    by (apply Zlt_Qlt_1; lia).
  apply Qabs_Qle_condition in H1, H2.
  assert (X == Y)%Q as E.
  { destruct (Qabs_cases (inject_Z (round_units Y) - X)) as [[? E1]|[? E1]];
      rewrite E1 in H1;
      destruct (Qabs_cases (inject_Z (round_units X) - Y)) as [[? E2]|[? E2]];
      rewrite E2 in H2; lra. }
  apply round_units_comp in E. lia.
Qed.

Lemma round_pos_mono x y : (0 <= x)%Q → (x <= y)%Q → fle (round_pos x) (round_pos y).
Proof.
  intros Hx Hxy. assert (0 <= y)%Q as Hy by lra. pose proof unit_pos as HU.
  assert (round_units (x * inject_Z (2 ^ 149)) ≤ round_units (y * inject_Z (2 ^ 149))) as Hm.
  { apply round_units_mono; [apply Qmult_le_0_compat; lra|]. apply Qmult_le_r; lra. }
  unfold round_pos, fle.
  case_bool_decide as H1; case_bool_decide as H2; try done; [lia|].
  apply flt_Fin_false. rewrite !Qred_correct.
  apply Qmult_le_r with (z := inject_Z (2 ^ 149)); [done|].
  assert (∀ u, inject_Z u / inject_Z (2 ^ 149) * inject_Z (2 ^ 149) == inject_Z u)%Q as E
    by (intros u; field; lra).
  rewrite !E, <- Zle_Qle. done.
Qed.

Lemma round_pos_sign x : (0 <= x)%Q → fle (Fin 0) (round_pos x).
Proof.
  intros Hx. destruct (round_pos_cases x Hx) as [[-> _]|(q & -> & _ & H0 & _)]; [done|].
  by apply fle_Fin.
Qed.

Lemma fle_fneg a b : fle a b → fle (fneg b) (fneg a).
Proof.
  unfold fle. destruct a, b; try done. cbn [fneg]. rewrite !flt_Fin_false. intros. lra.
Qed.

Lemma round32_mono x y : (x <= y)%Q → fle (round32 x) (round32 y).
Proof.
  intros Hxy. unfold round32.
  destruct (Qle_bool 0 x) eqn:Hsx, (Qle_bool 0 y) eqn:Hsy.
  - apply Qle_bool_iff in Hsx. by apply round_pos_mono.
  - apply Qle_bool_iff in Hsx.
    assert (0 <= y)%Q as Hy by lra. apply Qle_bool_iff in Hy. congruence.
  - apply Qle_bool_iff in Hsy.
    assert (x < 0)%Q as Hneg.
    { destruct (Qlt_le_dec x 0) as [|Hge]; [done|]. apply Qle_bool_iff in Hge. congruence. }
    pose proof (round_pos_sign (- x) ltac:(lra)) as H1.
    pose proof (round_pos_sign y Hsy) as H2.
    apply fle_fneg in H1. change (fneg (Fin 0)) with (Fin (- 0)) in H1.
    apply (fle_trans _ (Fin 0)); [done| |done].
    destruct (round_pos (- x)) as [q| | |]; try done;
      cbn [fneg] in *; apply fle_Fin in H1; apply fle_Fin; lra.
  - assert (y < 0)%Q as Hneg.
    { destruct (Qlt_le_dec y 0) as [|Hge]; [done|]. apply Qle_bool_iff in Hge. congruence. }
    apply fle_fneg, round_pos_mono; lra.
Qed.

(** Adding a finite value is monotone on costs that are not negative. *)
Lemma fadd_mono a b z :
  nonneg_val a → nonneg_val b → fle a b → fle (fadd a (Fin z)) (fadd b (Fin z)).
Proof.
  destruct a as [x| | |], b as [y| | |]; try done.
  intros _ _ Hxy. apply fle_Fin in Hxy. cbn [fadd]. apply round32_mono. lra.
Qed.

(** ** The ticks and the factor are finite and monotone *)

Lemma ticks_finite (h : Z) : ∃ t : Z, ticks h = Fin (inject_Z t).
Proof.
  unfold ticks. rewrite of_int_ENEMY_ATTACK.
  destruct (of_int_finite h) as (r & -> & Hr & [Hr1 Hr2] & _).
  change (inject_Z (2 ^ 31)) with (2147483648 # 1)%Q in Hr1, Hr2.
  cbn [fdiv]. change (Qeq_bool 10 0) with false. cbv iota.
  destruct (round32_between (- inject_Z (2 ^ 28)) (inject_Z (2 ^ 28)) (r / 10))
    as (r2 & -> & _).
  { by apply is_float_opp, is_float_pow2. }
  { by apply is_float_pow2. }
  { change (inject_Z (2 ^ 28)) with (268435456 # 1)%Q.
    split; [apply Qle_shift_div_l|apply Qle_shift_div_r]; lra. }
  cbn [fceil]. eauto.
Qed.

Lemma of_int_mono (a b : Z) : a ≤ b → fle (of_int a) (of_int b).
Proof.
  intros H. unfold of_int. apply round32_mono. rewrite <- Zle_Qle. lia.
Qed.

Lemma ticks_mono (a b : Z) : a ≤ b → fle (ticks a) (ticks b).
Proof.
  intros H. pose proof (of_int_mono a b H) as Hm.
  destruct (ticks_finite a) as [ta Ea], (ticks_finite b) as [tb Eb].
  revert Ea Eb. unfold ticks. rewrite of_int_ENEMY_ATTACK.
  destruct (of_int_finite a) as (ra & Ha & _), (of_int_finite b) as (rb & Hb & _).
  rewrite Ha, Hb in *. apply fle_Fin in Hm.
  cbn [fdiv]. change (Qeq_bool 10 0) with false. cbv iota.
  assert (fle (round32 (ra / 10)) (round32 (rb / 10))) as Hdiv.
  { apply round32_mono. apply Qmult_le_r with (z := 10%Q); [lra|].
    assert (∀ r : Q, r / 10 * 10 == r)%Q as E by (intros r; field).
    by rewrite !E. }
  destruct (round32 (ra / 10)) as [qa| | |], (round32 (rb / 10)) as [qb| | |]; try done.
  cbn [fceil]. intros _ _. apply fle_Fin in Hdiv. apply fle_Fin.
  rewrite <- Zle_Qle. by apply Qceiling_resp_le.
Qed.

Lemma k_factor_mono (a b : Z) : a ≤ b → fle (k_factor a) (k_factor b).
Proof.
  intros H. pose proof (ticks_mono a b H) as Hm. unfold k_factor.
  destruct (ticks_finite a) as [ta Ea], (ticks_finite b) as [tb Eb]. rewrite Ea, Eb in *.
  apply fle_Fin in Hm. rewrite round32_tenth. cbn [fmul].
  apply round32_mono. unfold tenth. lra.
Qed.

Lemma is_float_tenth : is_float tenth.
Proof.
  assert (tenth == inject_Z (13421773 * 2 ^ 122) / inject_Z (2 ^ 149))%Q as -> by reflexivity.
  apply is_float_scaled; lia.
Qed.

(** ** The list priority queue satisfies the interface *)

Lemma pop_min_None l : pop_min l = None → l = [].
Proof.
  destruct l as [|x l]; [done|]. simpl.
  destruct (pop_min l) as [[y r]|]; [|done]. by destruct (flt y.1 x.1).
Qed.

Lemma pop_min_Some l x r :
  pop_min l = Some (x, r) →
  l ≡ₚ x :: r ∧
  (Forall (λ y, y.1 ≠ NaN) l → Forall (λ y, flt y.1 x.1 = false) r).
Proof.
  revert x r. induction l as [|a l IH]; intros x r; [done|]. simpl.
  destruct (pop_min l) as [[y r']|] eqn:E.
  - destruct (IH y r' eq_refl) as [Hp Hf].
    destruct (flt y.1 a.1) eqn:Hlt; intros [= <- <-].
    + split; [by rewrite Hp; apply Permutation_swap|].
      intros [Ha Hl]%Forall_cons. constructor.
      * apply flt_fle in Hlt. exact Hlt.
      * by apply Hf.
    + split; [done|]. intros [Ha Hl]%Forall_cons. rewrite Hp. constructor; [exact Hlt|].
      eapply Forall_impl; [by apply Hf|]. intros z Hz. simpl in Hz.
      apply (fle_trans _ y.1); [|exact Hlt|exact Hz].
      rewrite Hp in Hl. by apply Forall_cons in Hl as [? _].
  - intros [= <- <-]. apply pop_min_None in E as ->. split; [done|]. by intros _.
Qed.

#[global, refine] Instance list_pq : PriorityQueue := {|
  pq := list Node;
  pq_empty := [];
  pq_push x q := x :: q;
  pq_pop := pop_min;
  pq_elems q := q
|}.
Proof.
  - done.
  - done.
  - apply pop_min_None.
  - apply pop_min_Some.
Defined.

(** ** The scripted random source satisfies the interface *)

Lemma shuffle_sel_perm n l s : shuffle_sel n l s ≡ₚ l.
Proof.
  revert l s. induction n as [|n IH]; intros l s; [done|]. simpl.
  destruct (l !! _) as [x|] eqn:E; [|done].
  rewrite IH. symmetry. by apply delete_Permutation.
Qed.

Lemma script_rand_int_range lo hi s :
  lo ≤ hi → lo ≤ (script_rand_int lo hi s).1 ≤ hi.
Proof.
  intros H. simpl.
  pose proof (Z.mod_pos_bound (Z.of_nat (hd O s)) (hi - lo + 1)). lia.
Qed.

#[global, refine] Instance script_rng : RandomSource := {|
  rng_state := list nat;
  shuffle := script_shuffle;
  rand_int := script_rand_int
|}.
Proof.
  - intros l s. apply shuffle_sel_perm.
  - apply script_rand_int_range.
Defined.

Lemma cs_index_Some (cs : gmap GridPos fcost) p c :
  cs !! p = Some c → cs_index cs p = (c, cs).
Proof. unfold cs_index. by intros ->. Qed.

(** ** Path reconstruction without a recorded goal *)

(** C7.  When the result of [a_star_search] does not record the goal,
    [reconstruct_path] returns the one-cell path [[start]]: it neither
    throws nor loops, whatever fuel it is given. *)
Theorem reconstruct_path_unreached `{PQ : PriorityQueue}
    (graph : Graph) (start goal : GridPos) (obstacles : gmap GridPos Obstacle)
    (fuel fuel' : nat) (cf : gmap GridPos GridPos) (cs : gmap GridPos fcost) :
  a_star_search graph start goal obstacles fuel = Some (cf, cs) →
  cf !! goal = None →
  reconstruct_path fuel' cf start goal = Returns [start].
Proof. intros _ Hg. unfold reconstruct_path. by rewrite Hg. Qed.

(** ** Level configuration beyond the base table *)

Lemma block_hp_value_mono l1 l2 :
  l1 ≤ l2 → (block_hp_value l1 <= block_hp_value l2)%Q.
Proof.
  intros H. unfold block_hp_value.
  assert ((12 # 10) ^ (l1 - Z.of_nat (length BASE_LEVELS) + 1)
          <= (12 # 10) ^ (l2 - Z.of_nat (length BASE_LEVELS) + 1))%Q as Hp.
  { apply Qpower_le_compat_l; [lia|]. by apply Qle_bool_iff. }
  lra.
Qed.

Lemma block_hp_value_pos l : (0 < block_hp_value l)%Q.
Proof.
  unfold block_hp_value.
  assert (0 < (12 # 10) ^ (l - Z.of_nat (length BASE_LEVELS) + 1))%Q as Hp.
  { by apply Qpower_0_lt. }
  lra.
Qed.

Lemma static_cast_int_floor v z :
  (0 <= v)%Q → static_cast_int v = Some z → z = Qfloor v.
Proof.
  intros Hv. unfold static_cast_int.
  destruct v as [n d]. simpl.
  assert (0 ≤ n) by (unfold Qle in Hv; simpl in Hv; lia).
  rewrite Z.quot_div_nonneg by lia.
  case_bool_decide; [|done]. by intros [= <-].
Qed.

Lemma static_cast_int_defined v :
  (0 <= v)%Q → Qfloor v ≤ INT_MAX → static_cast_int v = Some (Qfloor v).
Proof.
  intros Hv Hmax. unfold static_cast_int.
  destruct v as [n d]. simpl in *.
  assert (0 ≤ n) by (unfold Qle in Hv; simpl in Hv; lia).
  rewrite Z.quot_div_nonneg by lia.
  assert (0 ≤ n / Z.pos d) by (apply Z.div_pos; lia).
  rewrite bool_decide_eq_true_2; [done|]. unfold INT_MIN. lia.
Qed.

Lemma static_cast_int_overflow v :
  (0 <= v)%Q → INT_MAX < Qfloor v → static_cast_int v = None.
Proof.
  intros Hv Hmax. unfold static_cast_int.
  destruct v as [n d]. simpl in *.
  assert (0 ≤ n) by (unfold Qle in Hv; simpl in Hv; lia).
  rewrite Z.quot_div_nonneg by lia.
  rewrite bool_decide_eq_false_2; [done|]. lia.
Qed.

Section LevelConfig.
Context `{RS : RandomSource}.

Lemma card_pool_lookup (s : rng_state) :
  ∃ card, CARD_POOL !! Z.to_nat (rand_int 0 (Z.of_nat (length CARD_POOL) - 1) s).1 = Some card.
Proof.
  pose proof (rand_int_range 0 (Z.of_nat (length CARD_POOL) - 1) s) as H.
  simpl in H. specialize (H ltac:(lia)).
  apply lookup_lt_is_Some_2. simpl. lia.
Qed.

(** Inside the table-free range whose hit points fit an [int]
    (levels 2 to 106) the configuration is defined and follows the
    closed formulas. *)
Lemma get_level_config_formula (level : Z) (s : rng_state) :
  2 ≤ level ≤ 106 →
  ∃ card s',
    get_level_config level s =
      Returns (mkLevelConfig (20 + level) 5 (Z.min 5 (1 + level ÷ 3))
                 (Qfloor (block_hp_value level))
                 ["basic"; "strong"; "fire"]%string card, s').
Proof.
  intros Hl. unfold get_level_config.
  rewrite bool_decide_eq_false_2 by (simpl; lia).
  rewrite static_cast_int_defined.
  - destruct (card_pool_lookup s) as [card Hcard].
    destruct (rand_int 0 _ s) as [i s']. simpl in Hcard. rewrite Hcard. eauto.
  - apply Qlt_le_weak, block_hp_value_pos.
  - transitivity (Qfloor (block_hp_value 106)).
    + apply Qfloor_resp_le, block_hp_value_mono. lia.
    + by vm_compute.
Qed.

(** Whenever the configurations of two levels beyond the table are
    produced, obstacle count and block hit points are ordered like the
    levels, and the enemy count is at most 5. *)
Lemma get_level_config_monotone (l1 l2 : Z) (s1 s2 s1' s2' : rng_state)
    (c1 c2 : LevelConfig) :
  2 ≤ l1 → l1 ≤ l2 →
  get_level_config l1 s1 = Returns (c1, s1') →
  get_level_config l2 s2 = Returns (c2, s2') →
  obstacle_count c1 ≤ obstacle_count c2 ∧ block_hp c1 ≤ block_hp c2 ∧
  enemy_count c1 ≤ enemy_count c2 ≤ 5.
Proof.
  intros H1 H12. unfold get_level_config.
  rewrite !bool_decide_eq_false_2 by (simpl; lia).
  destruct (static_cast_int (block_hp_value l1)) as [h1|] eqn:E1; [|done].
  destruct (static_cast_int (block_hp_value l2)) as [h2|] eqn:E2; [|done].
  apply static_cast_int_floor in E1; [|apply Qlt_le_weak, block_hp_value_pos].
  apply static_cast_int_floor in E2; [|apply Qlt_le_weak, block_hp_value_pos].
  destruct (rand_int _ _ s1) as [i1 t1], (rand_int _ _ s2) as [i2 t2].
  destruct (CARD_POOL !! Z.to_nat i1); [|done].
  destruct (CARD_POOL !! Z.to_nat i2); [|done].
  intros [= <- <-] [= <- <-]. simpl. subst h1 h2.
  split; [lia|]. split.
  - by apply Qfloor_resp_le, block_hp_value_mono.
  - assert (l1 ÷ 3 ≤ l2 ÷ 3) by (apply Z.quot_le_mono; lia). lia.
Qed.

Lemma get_level_config_overflow (level : Z) (s : rng_state) :
  107 ≤ level → get_level_config level s = Undefined.
Proof.
  intros Hl. unfold get_level_config.
  rewrite bool_decide_eq_false_2 by (simpl; lia).
  rewrite static_cast_int_overflow; [done| |].
  - apply Qlt_le_weak, block_hp_value_pos.
  - eapply Z.lt_le_trans; [|apply Qfloor_resp_le, (block_hp_value_mono 107); lia].
    by vm_compute.
Qed.

(** C9.  At level 107 the value [10 * 1.2 ^ 106] (about 2.47e9) is above
    [INT_MAX], so its conversion to [int] is undefined: the call yields no
    configuration, whereas level 106 yields 2060776223 hit points. *)
Theorem get_level_config_107 (s : rng_state) :
  get_level_config 107 s = Undefined ∧
  INT_MAX < Qfloor (block_hp_value 107) ∧
  ∃ card s',
    get_level_config 106 s =
      Returns (mkLevelConfig 126 5 5 2060776223
                 ["basic"; "strong"; "fire"]%string card, s').
Proof.
  split; [by apply get_level_config_overflow|].
  split; [by vm_compute|].
  destruct (get_level_config_formula 106 s ltac:(lia)) as (card & s' & ->).
  by exists card, s'.
Qed.
End LevelConfig.

(** ** Placement *)

Definition corners (grid_size : Z) : gset GridPos :=
  {[ (0, 0); (0, grid_size - 1); (grid_size - 1, 0); (grid_size - 1, grid_size - 1) ]}.

Lemma elem_of_all_positions g x y :
  (x, y) ∈ all_positions g ↔ (0 ≤ x < g ∧ 0 ≤ y < g).
Proof.
  unfold all_positions. rewrite list_elem_of_bind. split.
  - intros (x' & Hy & Hx). apply list_elem_of_bind in Hy as (y' & Hxy & Hy).
    apply list_elem_of_singleton in Hxy as [= -> ->].
    apply elem_of_seqZ in Hx, Hy. lia.
  - intros [Hx Hy]. exists x. split; [|apply elem_of_seqZ; lia].
    apply list_elem_of_bind. exists y. split; [by apply list_elem_of_singleton|].
    apply elem_of_seqZ; lia.
Qed.

Lemma NoDup_all_positions g : NoDup (all_positions g).
Proof.
  unfold all_positions. apply NoDup_bind.
  - intros x1 x2 p _ _ H1 H2.
    apply list_elem_of_bind in H1 as (y1 & H1 & _), H2 as (y2 & H2 & _).
    apply list_elem_of_singleton in H1, H2. congruence.
  - intros x _. apply NoDup_bind.
    + intros y1 y2 p _ _ H1 H2. apply list_elem_of_singleton in H1, H2. congruence.
    + intros y _. apply NoDup_singleton.
    + apply NoDup_seqZ.
  - apply NoDup_seqZ.
Qed.

Lemma resize_Returns l n l' :
  resize l n = Returns l' →
  0 ≤ n ∧ l' = take (Z.to_nat n) (l ++ replicate (Z.to_nat n - length l) (0, 0)).
Proof. unfold resize. case_bool_decide; [done|]. intros [= <-]. split; [lia|done]. Qed.

Lemma resize_fits l n l' :
  resize l n = Returns l' → n ≤ Z.of_nat (length l) → l' = take (Z.to_nat n) l.
Proof.
  intros [Hn ->]%resize_Returns Hle.
  replace (Z.to_nat n - length l)%nat with 0%nat by lia.
  simpl. by rewrite app_nil_r.
Qed.

Lemma resize_negative l n : n < 0 → resize l n = Throws length_error.
Proof. intros. unfold resize. by rewrite bool_decide_eq_true_2. Qed.

Definition main_block_at (goal : GridPos) (hp : Z) : Obstacle :=
  mkObstacle (rect (new_Obstacle goal.1 goal.2 "Destructible" hp)) "Destructible" hp true false.

Lemma emplace_lookup_old m pos ob p o :
  m !! p = Some o → emplace m pos ob !! p = Some o.
Proof.
  intros H. unfold emplace. destruct (m !! pos) eqn:E; [done|].
  rewrite lookup_insert_ne; [done|]. congruence.
Qed.

Lemma emplace_lookup m pos ob p o :
  emplace m pos ob !! p = Some o → m !! p = Some o ∨ (p = pos ∧ o = ob).
Proof.
  unfold emplace. destruct (m !! pos) eqn:E; [by left|].
  rewrite lookup_insert. case_decide; [|by left]. intros [= <-]. by right.
Qed.

Lemma place_rest_lookup_old dc i rest m p o :
  m !! p = Some o → place_rest dc i rest m !! p = Some o.
Proof.
  revert i m. induction rest as [|q rest IH]; intros i m H; [done|].
  simpl. apply IH. by apply emplace_lookup_old.
Qed.

Lemma place_rest_lookup dc i rest m p o :
  place_rest dc i rest m !! p = Some o →
  m !! p = Some o ∨
  (p ∈ rest ∧ is_main_block o = false ∧
   (o = new_Obstacle p.1 p.2 "Destructible" OBSTACLE_HEALTH ∨
    o = new_Obstacle p.1 p.2 "Indestructible" 0)).
Proof.
  revert i m. induction rest as [|q rest IH]; intros i m H; [by left|].
  simpl in H. apply IH in H as [H|(Hin & Hm & Ho)].
  - apply emplace_lookup in H as [H|[-> ->]]; [by left|].
    right. split; [by left|]. case_bool_decide; split; auto.
  - right. split; [by right|done].
Qed.

Lemma place_rest_dom dc i rest m p :
  p ∈ rest → is_Some (place_rest dc i rest m !! p).
Proof.
  revert i m. induction rest as [|q rest IH]; intros i m H; [by apply elem_of_nil in H|].
  simpl. apply elem_of_cons in H as [->|H]; [|by apply IH].
  match goal with |- context [emplace m q ?ob] => set (o := ob) end.
  destruct (m !! q) as [o'|] eqn:E.
  - exists o'. apply place_rest_lookup_old. by apply emplace_lookup_old.
  - exists o. apply place_rest_lookup_old. unfold emplace. rewrite E. apply lookup_insert_eq.
Qed.

Lemma not_elem_of_forbidden (p pl : GridPos) (C : gset GridPos) (en : list GridPos) :
  p ∉ C ∪ {[pl]} ∪ list_to_set en ↔ (p ∉ C) ∧ (p ≠ pl) ∧ (p ∉ en).
Proof.
  rewrite !not_elem_of_union, not_elem_of_singleton, not_elem_of_list_to_set. tauto.
Qed.

Section GenerationFacts.
Context `{RS : RandomSource}.

Lemma pick_valid_positions_inv fuel all md count s player enemies s' :
  pick_valid_positions fuel all md count s = Returns (player, enemies, s') →
  ∃ s0, resize (shuffle all s0).1 (count + 1) = Returns (player :: enemies) ∧
        Forall (λ e, md ≤ manhattan player e) enemies.
Proof.
  revert s. induction fuel as [|fuel IH]; intros s; [done|]. simpl.
  destruct (shuffle all s) as [picks s1] eqn:E.
  destruct (resize picks (count + 1)) as [[|p es]| | |] eqn:R; simpl; try done.
  destruct (forallb _ es) eqn:F.
  - intros [= <- <- <-]. exists s. rewrite E. split; [done|].
    apply Is_true_true, forallb_True in F. eapply Forall_impl; [exact F|].
    intros e He. simpl in He. apply negb_prop_elim in He.
    rewrite bool_decide_spec in He. lia.
  - apply IH.
Qed.

Lemma generate_inv fuel g oc ic ec hp s obs items player enemies mains s' :
  generate_game_entities fuel g oc ic ec hp s
    = Returns (obs, items, player, enemies, mains, s') →
  ∃ goal rest its dc s0,
    resize (shuffle (all_positions g) s0).1 (ec + 1) = Returns (player :: enemies) ∧
    Forall (λ e, 5 ≤ manhattan player e) enemies ∧
    mains = [goal] ∧
    (goal ∈ all_positions g ∧ (goal ∉ corners g) ∧ (goal ≠ player) ∧ (goal ∉ enemies) ∧
     is_not_edge goal g = true) ∧
    (NoDup rest ∧
     ∀ p, p ∈ rest →
       p ∈ all_positions g ∧ (p ∉ corners g) ∧ (p ≠ player) ∧ (p ∉ enemies) ∧ p ≠ goal) ∧
    obs = place_rest dc 0 rest (emplace ∅ goal (main_block_at goal hp)) ∧
    (NoDup its ∧
     ∀ p, p ∈ its →
       p ∈ all_positions g ∧ (p ∉ corners g) ∧ (p ≠ player) ∧ (p ∉ enemies) ∧ (p ≠ goal) ∧
       p ∉ rest) ∧
    items = map (λ p : GridPos, mkItem p.1 p.2 false) its ++ [mkItem goal.1 goal.2 true].
Proof.
  unfold generate_game_entities.
  destruct (pick_valid_positions fuel _ 5 ec s) as [[[pl en] s1]| | |] eqn:Hpick;
    simpl; try done.
  apply pick_valid_positions_inv in Hpick as (s0 & Hres & Hdist).
  fold (corners g).
  set (forb1 := corners g ∪ {[pl]} ∪ list_to_set en).
  set (cands := filter _ (all_positions g)).
  case_bool_decide as Hne; [done|].
  destruct (rand_int 0 _ s1) as [i s2].
  destruct (cands !! Z.to_nat i) as [goal|] eqn:Hgoal; [|done].
  set (forb2 := forb1 ∪ {[goal]}).
  set (restc := filter _ (all_positions g)).
  set (rc := if bool_decide (_ > Z.of_nat (length restc)) then _ else _).
  destruct (shuffle restc s2) as [rest0 s3] eqn:Hsh1.
  destruct (resize rest0 rc) as [rest| | |] eqn:Hrest; simpl; try done.
  destruct (static_cast_int _) as [dc|]; [|done].
  set (forb3 := forb2 ∪ list_to_set rest).
  set (itemc := filter _ (all_positions g)).
  set (icn := if bool_decide (_ > Z.of_nat (length itemc)) then _ else _).
  destruct (shuffle itemc s3) as [item0 s4] eqn:Hsh2.
  destruct (resize item0 (icn - 1)) as [its| | |] eqn:Hits; simpl; try done.
  intros [= <- <- <- <- <- <-].
  exists goal, rest, its, dc, s0.
  assert (goal ∈ cands) as Hgin by (by eapply list_elem_of_lookup_2).
  apply list_elem_of_filter in Hgin as [[Hgf Hge] Hgall].
  assert (rest0 ≡ₚ restc) as Hp1.
  { pose proof (shuffle_perm restc s2) as Hp. by rewrite Hsh1 in Hp. }
  assert (item0 ≡ₚ itemc) as Hp2.
  { pose proof (shuffle_perm itemc s3) as Hp. by rewrite Hsh2 in Hp. }
  assert (rest = take (Z.to_nat rc) rest0) as Hrest'.
  { apply resize_fits; [done|]. rewrite Hp1. unfold rc.
    repeat case_bool_decide; lia. }
  assert (its = take (Z.to_nat (icn - 1)) item0) as Hits'.
  { apply resize_fits; [done|]. rewrite Hp2. unfold icn.
    repeat case_bool_decide; lia. }
  split; [done|]. split; [done|]. split; [done|].
  apply not_elem_of_forbidden in Hgf as (Hg1 & Hg2 & Hg3).
  split; [done|].
  split.
  { split.
    - rewrite Hrest'. eapply sublist_NoDup; [|apply sublist_take].
      rewrite Hp1. apply NoDup_filter, NoDup_all_positions.
    - intros p Hp. rewrite Hrest' in Hp. apply elem_of_take in Hp as (k & Hp & _).
      apply list_elem_of_lookup_2 in Hp. rewrite Hp1 in Hp.
      apply list_elem_of_filter in Hp as [Hpf Hpall].
      unfold forb2 in Hpf.
      apply not_elem_of_union in Hpf as [Hpf Hpg%not_elem_of_singleton].
      apply not_elem_of_forbidden in Hpf as (? & ? & ?). done. }
  split; [done|].
  split.
  { split.
    - rewrite Hits'. eapply sublist_NoDup; [|apply sublist_take].
      rewrite Hp2. apply NoDup_filter, NoDup_all_positions.
    - intros p Hp. rewrite Hits' in Hp. apply elem_of_take in Hp as (k & Hp & _).
      apply list_elem_of_lookup_2 in Hp. rewrite Hp2 in Hp.
      apply list_elem_of_filter in Hp as [Hpf Hpall].
      unfold forb3, forb2 in Hpf.
      apply not_elem_of_union in Hpf as [Hpf Hpr%not_elem_of_list_to_set].
      apply not_elem_of_union in Hpf as [Hpf Hpg%not_elem_of_singleton].
      apply not_elem_of_forbidden in Hpf as (? & ? & ?). done. }
  done.
Qed.
End GenerationFacts.

(** A batch that passed the distance test has pairwise distinct cells:
    a batch longer than the grid is padded with [(0, 0)] by [resize] and
    is never accepted unless it has no enemy. *)
Lemma accepted_batch_NoDup g (shuffled : list GridPos) count player enemies :
  shuffled ≡ₚ all_positions g →
  resize shuffled (count + 1) = Returns (player :: enemies) →
  Forall (λ e, 5 ≤ manhattan player e) enemies →
  NoDup (player :: enemies).
Proof.
  intros Hperm Hres Hdist.
  assert (NoDup shuffled) as Hnd by (rewrite Hperm; apply NoDup_all_positions).
  destruct (decide (count + 1 ≤ Z.of_nat (length shuffled))) as [Hfit|Hpad].
  { rewrite (resize_fits _ _ _ Hres Hfit).
    eapply sublist_NoDup; [exact Hnd|apply sublist_take]. }
  apply resize_Returns in Hres as [_ Hres].
  rewrite take_ge in Hres by (rewrite length_app, length_replicate; lia).
  destruct (Z.to_nat (count + 1) - length shuffled)%nat as [|k] eqn:Ek; [lia|].
  rewrite Forall_forall in Hdist.
  destruct shuffled as [|p sh].
  - simpl in Hres. injection Hres as -> ->.
    destruct k as [|k]; [apply NoDup_singleton|].
    specialize (Hdist (0, 0) ltac:(by left)). unfold manhattan in Hdist. simpl in Hdist. lia.
  - simpl in Hres. injection Hres as -> ->.
    assert (5 ≤ manhattan p (0, 0)) as H0.
    { apply Hdist. apply elem_of_app. right. by left. }
    destruct p as [px py].
    assert ((px, py) ∈ all_positions g) as Hin by (rewrite <- Hperm; by left).
    apply elem_of_all_positions in Hin.
    unfold manhattan in H0. simpl in H0.
    set (q := if decide (1 ≤ px) then (px - 1, py) else (px, py - 1)).
    assert (q ∈ all_positions g) as Hq.
    { unfold q. case_decide; apply elem_of_all_positions; lia. }
    assert (q ≠ (px, py)) as Hne.
    { unfold q. case_decide; intros [=]; lia. }
    rewrite <- Hperm in Hq. apply elem_of_cons in Hq as [Hq|Hq]; [done|].
    specialize (Hdist q ltac:(apply elem_of_app; by left)).
    unfold q, manhattan in Hdist. case_decide; simpl in Hdist; lia.
Qed.

Definition primary_items (items : list Item) : list Item :=
  filter (λ i, is_main i = true) items.

Definition secondary_cells (items : list Item) : list GridPos :=
  item_pos <$> filter (λ i, is_main i = false) items.

(** The part of the claimed layout properties that every returned layout
    has: the cells are pairwise distinct, the goal guard and the primary
    item counting as the goal cell they share, and no obstacle and no item
    lies on a corner. *)
Definition placement_valid (g : Z) (r : generated) : Prop :=
  let '(obs, items, player, enemies, mains) := r in
  ∃ goal,
    mains = [goal] ∧
    NoDup (player :: enemies ++ goal :: elements (dom obs ∖ {[goal]}) ++ secondary_cells items) ∧
    (∀ p, p ∈ dom obs → p ∉ corners g) ∧
    (∀ i, i ∈ items → item_pos i ∉ corners g).

(** The layout properties as the specification words them: the player
    start, the enemy starts, the goal cell (which holds the goal guard and
    the primary item), the other obstacle cells and the other item cells
    are pairwise distinct, and neither the player start, nor an enemy
    start, nor an item, nor an obstacle lies on a corner. *)
Definition placement_claimed (g : Z) (r : generated) : Prop :=
  let '(obs, items, player, enemies, mains) := r in
  ∃ goal,
    mains = [goal] ∧
    NoDup (player :: enemies ++ goal :: elements (dom obs ∖ {[goal]}) ++ secondary_cells items) ∧
    (∀ p, p ∈ player :: enemies ++ elements (dom obs) ++ (item_pos <$> items) → p ∉ corners g).

Definition goal_guarded (g hp : Z) (r : generated) : Prop :=
  let '(obs, items, player, enemies, mains) := r in
  ∃ goal,
    mains = [goal] ∧
    (1 ≤ goal.1 ≤ g - 2 ∧ 1 ≤ goal.2 ≤ g - 2) ∧
    (goal ≠ player) ∧ (goal ∉ enemies) ∧ (goal ∉ corners g) ∧
    (∃ ob, obs !! goal = Some ob ∧ is_main_block ob = true ∧
           type ob = "Destructible"%string ∧ health ob = hp ∧ grid_pos ob = goal) ∧
    (∀ p ob, obs !! p = Some ob → is_main_block ob = true → p = goal) ∧
    primary_items items = [mkItem goal.1 goal.2 true].

Lemma filter_map_secondary (its : list GridPos) goal :
  filter (λ i, is_main i = false)
    (map (λ p : GridPos, mkItem p.1 p.2 false) its ++ [mkItem goal.1 goal.2 true]) =
  map (λ p : GridPos, mkItem p.1 p.2 false) its.
Proof.
  rewrite filter_app. rewrite (filter_cons_False _ (mkItem _ _ true)) by done.
  rewrite filter_nil, app_nil_r.
  induction its as [|p its IH]; [done|]. simpl.
  rewrite filter_cons_True by done. by rewrite IH.
Qed.

Lemma filter_map_primary (its : list GridPos) goal :
  filter (λ i, is_main i = true)
    (map (λ p : GridPos, mkItem p.1 p.2 false) its ++ [mkItem goal.1 goal.2 true]) =
  [mkItem goal.1 goal.2 true].
Proof.
  rewrite filter_app. rewrite (filter_cons_True _ (mkItem _ _ true)) by done.
  rewrite filter_nil.
  induction its as [|p its IH]; [done|]. simpl.
  rewrite filter_cons_False by done. exact IH.
Qed.

Lemma item_pos_map (its : list GridPos) :
  item_pos <$> map (λ p : GridPos, mkItem p.1 p.2 false) its = its.
Proof.
  induction its as [|[x y] its IH]; [done|]. simpl. by rewrite <- IH at 2.
Qed.

Lemma generated_obstacles_dom dc rest goal ob :
  dom (place_rest dc 0 rest (emplace ∅ goal ob)) = {[goal]} ∪ list_to_set rest.
Proof.
  apply set_eq. intros p. rewrite elem_of_dom, elem_of_union, elem_of_singleton,
    elem_of_list_to_set. split.
  - intros [o Ho]. apply place_rest_lookup in Ho as [Ho|[Hin _]]; [|by right].
    apply emplace_lookup in Ho as [Ho|[-> _]]; [|by left].
    by rewrite lookup_empty in Ho.
  - intros [->|Hin]; [|by apply place_rest_dom].
    exists ob. apply place_rest_lookup_old. unfold emplace.
    rewrite lookup_empty. apply lookup_insert_eq.
Qed.

Section PlacementTheorems.
Context `{RS : RandomSource}.

(** C4.  Every layout that [generate_game_entities] returns keeps each
    enemy start at Manhattan distance at least 5 from the player start;
    player and enemy starts are the accepted batch, the first
    [enemy_count + 1] cells of one shuffle of all positions. *)
Theorem enemy_min_distance fuel g oc ic ec hp s obs items player enemies mains s' :
  generate_game_entities fuel g oc ic ec hp s
    = Returns (obs, items, player, enemies, mains, s') →
  Forall (λ e, 5 ≤ manhattan player e) enemies ∧
  ∃ s0, resize (shuffle (all_positions g) s0).1 (ec + 1) = Returns (player :: enemies).
Proof.
  intros H. apply generate_inv in H as (goal & rest & its & dc & s0 & Hres & Hdist & _).
  split; [done|]. by exists s0.
Qed.

(** A rejected batch is thrown away as a whole: the next attempt shuffles
    all positions again. *)
Lemma pick_valid_positions_retry fuel all md count s picks :
  resize (shuffle all s).1 (count + 1) = Returns picks →
  ¬ Forall (λ e, md ≤ manhattan (hd (0, 0) picks) e) (tl picks) →
  pick_valid_positions (S fuel) all md count s =
    pick_valid_positions fuel all md count (shuffle all s).2.
Proof.
  intros Hres Hrej. simpl. destruct (shuffle all s) as [sh s1]. simpl in *.
  rewrite Hres. simpl. destruct picks as [|p es].
  - exfalso. apply Hrej. constructor.
  - simpl in Hrej. destruct (forallb _ es) eqn:F; [|done].
    exfalso. apply Hrej. apply Is_true_true, forallb_True in F.
    eapply Forall_impl; [exact F|]. intros e He. simpl in He.
    apply negb_prop_elim in He. rewrite bool_decide_spec in He. lia.
Qed.

(** C5.  In every returned layout the goal cell is strictly inside the
    grid, differs from the player start, the enemy starts and the corners,
    holds the one obstacle flagged [is_main_block] (Destructible, with the
    requested hit points) and the one item flagged [is_main]. *)
Theorem goal_cell_guarded fuel g oc ic ec hp s r s' :
  generate_game_entities fuel g oc ic ec hp s = Returns (r, s') →
  goal_guarded g hp r.
Proof.
  destruct r as [[[[obs items] player] enemies] mains]. intros H.
  apply generate_inv in H
    as (goal & rest & its & dc & s0 & _ & _ & -> & (Hgall & Hgc & Hgp & Hge & Hedge)
        & (_ & Hrest) & -> & _ & ->).
  exists goal. split; [done|].
  split.
  { unfold is_not_edge in Hedge. rewrite !andb_true_iff, !bool_decide_eq_true in Hedge. lia. }
  do 3 (split; [done|]).
  split.
  { exists (main_block_at goal hp). split.
    - apply place_rest_lookup_old. unfold emplace. rewrite lookup_empty. apply lookup_insert_eq.
    - repeat split; try done. unfold grid_pos, main_block_at, new_Obstacle, CELL_SIZE,
        INFO_BAR_HEIGHT. simpl. destruct goal as [x y]. simpl. f_equal.
      + by rewrite Z.quot_mul.
      + replace (y * 40 + 40 - 40) with (y * 40) by lia. by rewrite Z.quot_mul. }
  split; [|apply filter_map_primary].
  intros p ob Hp Hmain. apply place_rest_lookup in Hp as [Hp|(_ & Hfalse & _)]; [|congruence].
  apply emplace_lookup in Hp as [Hp|[-> _]]; [|done]. by rewrite lookup_empty in Hp.
Qed.

(** X16.  In every returned layout the player start, the enemy starts,
    the goal cell, the cells of the obstacles other than the goal guard
    and the cells of the non-primary items are pairwise distinct (the goal
    guard and the primary item sit on the goal cell), and no obstacle and
    no item lies on a grid corner. *)
Theorem placement_disjoint fuel g oc ic ec hp s r s' :
  generate_game_entities fuel g oc ic ec hp s = Returns (r, s') →
  placement_valid g r.
Proof.
  destruct r as [[[[obs items] player] enemies] mains]. intros H.
  apply generate_inv in H
    as (goal & rest & its & dc & s0 & Hres & Hdist & -> & (Hgall & Hgc & Hgp & Hge & Hedge)
        & (Hrnd & Hrest) & -> & (Hind & Hits) & ->).
  exists goal. split; [done|].
  rewrite generated_obstacles_dom.
  assert (NoDup (player :: enemies)) as Hpe.
  { eapply accepted_batch_NoDup; [|exact Hres|exact Hdist]. apply shuffle_perm. }
  split; [|split].
  - assert (({[goal]} ∪ list_to_set rest) ∖ {[goal]} = (list_to_set rest : gset GridPos)) as ->.
    { apply set_eq. intros p. rewrite elem_of_difference, elem_of_union, !elem_of_singleton,
        elem_of_list_to_set. split; [tauto|]. intros Hp. split; [by right|].
      intros ->. by destruct (Hrest _ Hp) as (_ & _ & _ & _ & ?). }
    rewrite (elements_list_to_set rest Hrnd).
    unfold secondary_cells. rewrite filter_map_secondary, item_pos_map.
    rewrite app_comm_cons. apply NoDup_app. split; [done|]. split.
    + intros p Hp Hp'. apply elem_of_cons in Hp'. rewrite elem_of_app in Hp'.
      assert (p ≠ player ∧ p ∉ enemies) as [Hp1 Hp2].
      { destruct Hp' as [->|[Hp'|Hp']]; [done| |].
        - by destruct (Hrest _ Hp') as (_ & _ & ? & ? & _).
        - by destruct (Hits _ Hp') as (_ & _ & ? & ? & _). }
      apply elem_of_cons in Hp as [->|Hp]; done.
    + apply NoDup_cons. split.
      * rewrite elem_of_app. intros [Hg|Hg].
        -- by destruct (Hrest _ Hg) as (_ & _ & _ & _ & ?).
        -- by destruct (Hits _ Hg) as (_ & _ & _ & _ & ? & _).
      * apply NoDup_app. split; [done|]. split; [|done].
        intros p Hp Hp'. by destruct (Hits _ Hp') as (_ & _ & _ & _ & _ & ?).
  - intros p. rewrite elem_of_union, elem_of_singleton, elem_of_list_to_set.
    intros [->|Hp]; [done|]. by destruct (Hrest _ Hp) as (_ & ? & _).
  - intros i. rewrite elem_of_app, list_elem_of_singleton. intros [Hi| ->]; [|done].
    apply list_elem_of_fmap in Hi as (p & -> & Hp). unfold item_pos. simpl.
    destruct p as [x y]. simpl. by destruct (Hits _ Hp) as (_ & ? & _).
Qed.
End PlacementTheorems.

(** ** Item clamping when no cell is left *)

Definition returns {A} (o : outcome A) : bool :=
  match o with Returns _ => true | _ => false end.

Section ItemClamp.
Context `{RS : RandomSource}.

(** When the requested obstacles cover every cell that is still free, no
    candidate is left for the items: [item_count] is clamped to 0 and
    [resize(item_count - 1)] throws.  The call never returns a layout. *)
Lemma generate_no_free_cell fuel g oc ic ec hp s :
  Z.of_nat (length (all_positions g)) < oc →
  returns (generate_game_entities fuel g oc ic ec hp s) = false.
Proof.
  intros Hoc. unfold generate_game_entities.
  destruct (pick_valid_positions fuel _ 5 ec s) as [[[pl en] s1]| | |] eqn:Hpick;
    simpl; try done.
  set (forb1 := _ ∪ {[pl]} ∪ list_to_set en).
  set (cands := filter _ (all_positions g)).
  case_bool_decide as Hne; [done|].
  destruct (rand_int 0 _ s1) as [i s2].
  destruct (cands !! Z.to_nat i) as [goal|] eqn:Hgoal; [|done].
  set (forb2 := forb1 ∪ {[goal]}).
  set (restc := filter _ (all_positions g)).
  set (rc := if bool_decide (_ > Z.of_nat (length restc)) then _ else _).
  destruct (shuffle restc s2) as [rest0 s3] eqn:Hsh1.
  assert (rest0 ≡ₚ restc) as Hp1.
  { pose proof (shuffle_perm restc s2) as Hp. by rewrite Hsh1 in Hp. }
  assert (rc = Z.of_nat (length restc)) as Hrc.
  { pose proof (length_filter (λ p, p ∉ forb2) (all_positions g)) as Hlen.
    fold restc in Hlen. unfold rc. repeat case_bool_decide; lia. }
  destruct (resize rest0 rc) as [rest| | |] eqn:Hrest; simpl; try done.
  apply resize_fits in Hrest; [|rewrite Hp1; lia].
  rewrite take_ge in Hrest by (rewrite Hp1; lia). subst rest.
  destruct (static_cast_int _) as [dc|]; [|done].
  set (forb3 := forb2 ∪ list_to_set rest0).
  assert (filter (λ p, p ∉ forb3) (all_positions g) = []) as ->.
  { destruct (filter (λ p, p ∉ forb3) (all_positions g)) as [|p l] eqn:E; [done|].
    assert (p ∈ filter (λ p, p ∉ forb3) (all_positions g)) as Hp by (rewrite E; by left).
    apply list_elem_of_filter in Hp as [Hp Hall]. exfalso. apply Hp.
    destruct (decide (p ∈ forb2)) as [Hin|Hout].
    - apply elem_of_union. by left.
    - apply elem_of_union. right. apply elem_of_list_to_set.
      rewrite Hp1. by apply list_elem_of_filter. }
  simpl. destruct (shuffle [] s3) as [item0 s4].
  rewrite resize_negative; [done|]. repeat case_bool_decide; lia.
Qed.
End ItemClamp.

(** C8.  [generate_game_entities(6, 40, 3, 1, 10)]: the 39 requested
    secondary obstacles take every free cell of the 6 x 6 grid, no cell is
    left for an item, and the call throws [std::length_error] instead of
    returning the primary item alone.  No random source and no amount of
    retries makes the call return. *)
Theorem generate_items_length_error :
  (∀ (RS : RandomSource) (fuel : nat) (s : rng_state),
     returns (generate_game_entities fuel 6 40 3 1 10 s) = false) ∧
  generate_game_entities (RS := script_rng) 1 6 40 3 1 10 [0; 34]%nat
    = Throws length_error.
Proof.
  split.
  - intros RS fuel s. apply generate_no_free_cell. by vm_compute.
  - by vm_compute.
Qed.

Definition layout_of {S} (o : outcome (generated * S)) : option generated :=
  match o with Returns (r, _) => Some r | _ => None end.

Definition player_of {S} (o : outcome (generated * S)) : option GridPos :=
  match o with Returns (r, _) => Some r.1.1.2 | _ => None end.

(** C3.  [pick_valid_positions] shuffles [all_positions] without
    consulting the forbidden set, which holds the four corners and which
    every later selection filters on.  On the layout that
    [generate_game_entities(8, 5, 3, 1, 40)] returns when the first shuffle
    puts cell (0, 0) first and cell (7, 7) second, the player starts on the
    corner (0, 0): the layout does not have the claimed properties. *)
Theorem placement_player_on_corner :
  ∃ r, layout_of (generate_game_entities (RS := script_rng) 1 8 5 3 1 40 [0; 62]%nat)
         = Some r ∧
       r.1.1.2 = (0, 0) ∧ (0, 0) ∈ corners 8 ∧ ¬ placement_claimed 8 r.
Proof.
  assert (player_of (generate_game_entities (RS := script_rng) 1 8 5 3 1 40 [0; 62]%nat)
          = Some (0, 0)) as Hpl by (vm_compute; reflexivity).
  assert ((0, 0) ∈ corners 8) as Hcorner.
  { unfold corners. rewrite !elem_of_union, !elem_of_singleton. tauto. }
  destruct (generate_game_entities _ _ _ _ _ _ _) as [[r s']| | |]; try done.
  injection Hpl as Hpl. exists r. split; [done|]. split; [done|]. split; [done|].
  destruct r as [[[[obs items] player] enemies] mains]. simpl in Hpl. subst player.
  intros (goal & _ & _ & Hc). apply (Hc (0, 0)); [by left|done].
Qed.

Lemma placement_disjoint_witness :
  returns (generate_game_entities (RS := script_rng) 1 8 5 3 1 40 [0; 62]%nat) = true ∧
  match layout_of (generate_game_entities (RS := script_rng) 1 8 5 3 1 40 [0; 62]%nat) with
  | Some r => placement_valid 8 r
  | None => True
  end.
Proof.
  split; [vm_compute; reflexivity|].
  destruct (generate_game_entities _ _ _ _ _ _ _) as [[r s']| | |] eqn:E; try exact I.
  exact (placement_disjoint _ _ _ _ _ _ _ _ _ E).
Defined.

Lemma enemy_min_distance_witness :
  returns (generate_game_entities (RS := script_rng) 1 8 5 3 1 40 [0; 62]%nat) = true ∧
  match layout_of (generate_game_entities (RS := script_rng) 1 8 5 3 1 40 [0; 62]%nat) with
  | Some (_, _, player, enemies, _) =>
      Forall (λ e, 5 ≤ manhattan player e) enemies ∧
      ∃ s0, resize (shuffle (all_positions 8) s0).1 (1 + 1) = Returns (player :: enemies)
  | None => True
  end.
Proof.
  split; [vm_compute; reflexivity|].
  destruct (generate_game_entities _ _ _ _ _ _ _) as [[r s']| | |] eqn:E; try exact I.
  destruct r as [[[[obs items] player] enemies] mains].
  exact (enemy_min_distance _ _ _ _ _ _ _ _ _ _ _ _ _ E).
Defined.

Lemma goal_cell_guarded_witness :
  returns (generate_game_entities (RS := script_rng) 1 8 5 3 1 40 [0; 62]%nat) = true ∧
  match layout_of (generate_game_entities (RS := script_rng) 1 8 5 3 1 40 [0; 62]%nat) with
  | Some r => goal_guarded 8 40 r
  | None => True
  end.
Proof.
  split; [vm_compute; reflexivity|].
  destruct (generate_game_entities _ _ _ _ _ _ _) as [[r s']| | |] eqn:E; try exact I.
  exact (goal_cell_guarded _ _ _ _ _ _ _ _ _ E).
Defined.

(** A 3 x 3 grid whose centre is walled in by Indestructible obstacles. *)
Definition walled_obstacles : gmap GridPos Obstacle :=
  {[ (0, 1) := new_Obstacle 0 1 "Indestructible" 0;
     (1, 0) := new_Obstacle 1 0 "Indestructible" 0;
     (2, 1) := new_Obstacle 2 1 "Indestructible" 0;
     (1, 2) := new_Obstacle 1 2 "Indestructible" 0 ]}.

Definition recorded_at {A} (o : option (gmap GridPos GridPos * A)) (p : GridPos)
    : option (option GridPos) :=
  match o with Some (cf, _) => Some (cf !! p) | None => None end.

Lemma reconstruct_path_unreached_witness :
  ∃ cf cs,
    a_star_search (PQ := list_pq) (build_graph 3 walled_obstacles) (2, 2) (1, 1)
                  walled_obstacles 10 = Some (cf, cs) ∧
    cf !! (1, 1) = None ∧
    reconstruct_path 0 cf (2, 2) (1, 1) = Returns [(2, 2)].
Proof.
  assert (recorded_at (a_star_search (PQ := list_pq) (build_graph 3 walled_obstacles)
                         (2, 2) (1, 1) walled_obstacles 10) (1, 1) = Some None) as Hrec
    by (vm_compute; reflexivity).
  destruct (a_star_search _ _ _ _ _) as [[cf cs]|] eqn:E; [|done].
  injection Hrec as Hrec. exists cf, cs. split; [done|]. split; [done|].
  exact (reconstruct_path_unreached _ _ _ _ _ 0%nat _ _ E Hrec).
Defined.

(** ** Edge keys *)

Lemma lor_add_aligned a b m :
  0 ≤ m → (2 ^ m | a) → 0 ≤ b < 2 ^ m → Z.lor a b = a + b.
Proof.
  intros Hm [c ->] Hb.
  assert (Z.land (c * 2 ^ m) b = 0) as Hland.
  { apply Z.bits_inj'. intros n Hn. rewrite Z.land_spec, Z.bits_0.
    rewrite <- Z.shiftl_mul_pow2 by done.
    destruct (decide (n < m)) as [Hlt|Hge].
    - by rewrite Z.shiftl_spec_low.
    - rewrite andb_false_iff. right.
      destruct (decide (b = 0)) as [->|Hb0]; [apply Z.bits_0|].
      apply Z.bits_above_log2; [lia|].
      assert (Z.log2 b < m) by (apply Z.log2_lt_pow2; lia). lia. }
  rewrite <- Z.lxor_lor by done. symmetry. by apply Z.add_nocarry_lxor.
Qed.

Definition low16 (z : Z) : Z := z mod 2 ^ 16.

Lemma edge_key_sum a b :
  edge_key a b =
  wrap64 (low16 a.1 * 2 ^ 48 + low16 a.2 * 2 ^ 32 + low16 b.1 * 2 ^ 16 + low16 b.2).
Proof.
  unfold edge_key. f_equal.
  change 0xFFFF with (Z.ones 16). rewrite !Z.land_ones by lia.
  fold (low16 a.1) (low16 a.2) (low16 b.1) (low16 b.2).
  assert (∀ z, 0 ≤ low16 z < 2 ^ 16) as Hlow by (intros z; apply Z.mod_pos_bound; lia).
  pose proof (Hlow a.1). pose proof (Hlow a.2). pose proof (Hlow b.1). pose proof (Hlow b.2).
  rewrite !Z.shiftl_mul_pow2 by lia.
  rewrite (lor_add_aligned (low16 a.1 * 2 ^ 48) (low16 a.2 * 2 ^ 32) 48);
    [|lia|by apply Z.divide_factor_r|lia].
  rewrite (lor_add_aligned (_ + _) (low16 b.1 * 2 ^ 16) 32); [|lia| |lia].
  2:{ exists (low16 a.1 * 2 ^ 16 + low16 a.2). lia. }
  rewrite (lor_add_aligned _ _ 16); [done|lia| |lia].
  exists (low16 a.1 * 2 ^ 32 + low16 a.2 * 2 ^ 16 + low16 b.1). lia.
Qed.

Lemma wrap64_inj x y :
  0 ≤ x < 2 ^ 64 → 0 ≤ y < 2 ^ 64 → wrap64 x = wrap64 y → x = y.
Proof.
  unfold wrap64. intros Hx Hy H.
  assert ((x + 2 ^ 63) mod 2 ^ 64 = (y + 2 ^ 63) mod 2 ^ 64) as Hm by lia.
  destruct (decide (x < 2 ^ 63)), (decide (y < 2 ^ 63)).
  - rewrite !Z.mod_small in Hm by lia. lia.
  - rewrite (Z.mod_small (x + _)) in Hm by lia.
    replace (y + 2 ^ 63) with (y - 2 ^ 63 + 1 * 2 ^ 64) in Hm by lia.
    rewrite Z.mod_add, Z.mod_small in Hm by lia. lia.
  - rewrite (Z.mod_small (y + _)) in Hm by lia.
    replace (x + 2 ^ 63) with (x - 2 ^ 63 + 1 * 2 ^ 64) in Hm by lia.
    rewrite Z.mod_add, Z.mod_small in Hm by lia. lia.
  - replace (y + 2 ^ 63) with (y - 2 ^ 63 + 1 * 2 ^ 64) in Hm by lia.
    replace (x + 2 ^ 63) with (x - 2 ^ 63 + 1 * 2 ^ 64) in Hm by lia.
    rewrite !Z.mod_add, !Z.mod_small in Hm by lia. lia.
Qed.

Lemma edge_key_inj a b a' b' :
  edge_key a b = edge_key a' b' ↔
  low16 a.1 = low16 a'.1 ∧ low16 a.2 = low16 a'.2 ∧
  low16 b.1 = low16 b'.1 ∧ low16 b.2 = low16 b'.2.
Proof.
  rewrite !edge_key_sum.
  assert (∀ z, 0 ≤ low16 z < 2 ^ 16) as Hlow by (intros z; apply Z.mod_pos_bound; lia).
  pose proof (Hlow a.1). pose proof (Hlow a.2). pose proof (Hlow b.1). pose proof (Hlow b.2).
  pose proof (Hlow a'.1). pose proof (Hlow a'.2). pose proof (Hlow b'.1). pose proof (Hlow b'.2).
  split; [|by intros (-> & -> & -> & ->)].
  intros Hk%wrap64_inj; lia.
Qed.

Lemma low16_small z : 0 ≤ z < 65536 → low16 z = z.
Proof. intros. unfold low16. apply Z.mod_small. lia. Qed.

(** ** The edges [build_graph] emits *)

Definition in_grid (g : Z) (p : GridPos) : Prop := 0 ≤ p.1 < g ∧ 0 ≤ p.2 < g.

Definition step (a d : GridPos) : GridPos := (a.1 + d.1, a.2 + d.2).

Definition expected_weight (obstacles : gmap GridPos Obstacle) (b : GridPos) : Q :=
  if has_type obstacles b "Destructible" then 10%Q else 1%Q.

(** The edge that the body of the direction loop adds, if any. *)
Definition emit_dir (g : Z) (obstacles : gmap GridPos Obstacle) (a d : GridPos)
    : option (GridPos * Q) :=
  let b := step a d in
  if (b.1 <? 0) || (b.2 <? 0) || (g <=? b.1) || (g <=? b.2) then None
  else if has_type obstacles b "Indestructible" then None
  else Some (b, expected_weight obstacles b).

Definition cell_edges (g : Z) (obstacles : gmap GridPos Obstacle) (a : GridPos)
    : list (GridPos * Q) :=
  if has_type obstacles a "Indestructible" then [] else omap (emit_dir g obstacles a) dirs.

Definition add_edges (a : GridPos) (G : Graph) (es : list (GridPos * Q)) : Graph :=
  fold_left (λ G e, add_edge G a e.1 e.2) es G.

Lemma build_dir_emit g obs a G d :
  build_dir g obs a G d =
  match emit_dir g obs a d with Some e => add_edge G a e.1 e.2 | None => G end.
Proof.
  unfold build_dir, emit_dir, step. simpl.
  destruct (_ || _ || _ || _); [done|]. by destruct (has_type obs _ "Indestructible").
Qed.

Lemma fold_build_dir g obs a ds G :
  fold_left (build_dir g obs a) ds G = add_edges a G (omap (emit_dir g obs a) ds).
Proof.
  revert G. induction ds as [|d ds IH]; intros G; [done|]. simpl.
  rewrite IH, build_dir_emit. by destruct (emit_dir g obs a d).
Qed.

Lemma build_cell_edges g obs G a :
  build_cell g obs G a = add_edges a G (cell_edges g obs a).
Proof.
  unfold build_cell, cell_edges. destruct (has_type obs a "Indestructible"); [done|].
  apply fold_build_dir.
Qed.

Lemma elem_of_cell_edges g obs a b w :
  (b, w) ∈ cell_edges g obs a ↔
  has_type obs a "Indestructible" = false ∧ has_type obs b "Indestructible" = false ∧
  (∃ d, d ∈ dirs ∧ b = step a d) ∧ (0 ≤ b.1 < g ∧ 0 ≤ b.2 < g) ∧
  w = expected_weight obs b.
Proof.
  unfold cell_edges. destruct (has_type obs a "Indestructible") eqn:Ha.
  { split; [by intros ?%elem_of_nil|]. by intros [? _]. }
  rewrite list_elem_of_omap. split.
  - intros (d & Hd & He). unfold emit_dir in He.
    destruct (_ || _ || _ || _) eqn:Hb; [done|].
    destruct (has_type obs (step a d) "Indestructible") eqn:Hi; [done|].
    injection He as <- <-. rewrite !orb_false_iff in Hb.
    destruct Hb as [[[?%Z.ltb_ge ?%Z.ltb_ge] ?%Z.leb_gt] ?%Z.leb_gt].
    repeat split; eauto; lia.
  - intros (_ & Hi & (d & Hd & ->) & Hb & ->). exists d. split; [done|].
    unfold emit_dir. rewrite Hi.
    assert (((step a d).1 <? 0) = false) as -> by (apply Z.ltb_ge; lia).
    assert (((step a d).2 <? 0) = false) as -> by (apply Z.ltb_ge; lia).
    assert ((g <=? (step a d).1) = false) as -> by (apply Z.leb_gt; lia).
    assert ((g <=? (step a d).2) = false) as -> by (apply Z.leb_gt; lia).
    done.
Qed.

Lemma cell_edges_NoDup g obs a : NoDup (cell_edges g obs a).*1.
Proof.
  unfold cell_edges. destruct (has_type obs a "Indestructible"); [constructor|].
  apply (sublist_NoDup _ (step a <$> dirs)).
  - destruct a as [x y]. unfold dirs, step. simpl.
    repeat (apply NoDup_cons; split;
            [rewrite ?elem_of_cons, elem_of_nil; intros H;
             repeat (destruct H as [H|H]; [injection H; lia|]); done|]).
    constructor.
  - induction dirs as [|d ds IH]; [done|]. simpl.
    destruct (emit_dir g obs a d) as [[b w]|] eqn:E.
    + assert (b = step a d) as ->.
      { unfold emit_dir in E. destruct (_ || _ || _ || _); [done|].
        destruct (has_type obs (step a d) _); [done|]. by injection E. }
      simpl. by apply sublist_skip.
    + by apply sublist_cons.
Qed.

Lemma neighbors_add_edges a G es a' :
  neighbors (add_edges a G es) a' =
  neighbors G a' ++ (if decide (a' = a) then es.*1 else []).
Proof.
  revert G. induction es as [|[b w] es IH]; intros G.
  { simpl. case_decide; by rewrite app_nil_r. }
  simpl. fold (add_edges a (add_edge G a b w) es). rewrite IH.
  unfold neighbors at 1, add_edge. simpl.
  destruct (decide (a' = a)) as [->|Hne].
  - rewrite lookup_insert_eq. simpl. fold (neighbors G a). by rewrite <- app_assoc.
  - rewrite lookup_insert_ne by done. done.
Qed.

Lemma neighbors_build_cells g obs cells G a :
  NoDup cells →
  neighbors (fold_left (build_cell g obs) cells G) a =
  neighbors G a ++ (if decide (a ∈ cells) then (cell_edges g obs a).*1 else []).
Proof.
  revert G. induction cells as [|c cells IH]; intros G Hnd.
  { simpl. by rewrite app_nil_r. }
  apply NoDup_cons in Hnd as [Hc Hnd]. simpl.
  rewrite IH, build_cell_edges, neighbors_add_edges, <- app_assoc by done. f_equal.
  destruct (decide (a = c)) as [->|Hne].
  - rewrite decide_False by done. rewrite decide_True by (by left). by rewrite app_nil_r.
  - simpl. destruct (decide (a ∈ cells)) as [Hin|Hout].
    + by rewrite decide_True by (by right).
    + rewrite decide_False; [done|]. by intros [?|?]%elem_of_cons.
Qed.

Lemma neighbors_build_graph g obs a :
  neighbors (build_graph g obs) a =
  if decide (a ∈ all_positions g) then (cell_edges g obs a).*1 else [].
Proof.
  unfold build_graph. rewrite neighbors_build_cells by apply NoDup_all_positions. done.
Qed.

Lemma weights_add_edges_untouched a G es k :
  (∀ e, e ∈ es → edge_key a e.1 ≠ k) →
  weights (add_edges a G es) !! k = weights G !! k.
Proof.
  revert G. induction es as [|e es IH]; intros G Hk; [done|]. simpl.
  fold (add_edges a (add_edge G a e.1 e.2) es).
  rewrite IH by (intros e' He'; apply Hk; by right).
  simpl. apply lookup_insert_ne. apply Hk. by left.
Qed.

Lemma weights_add_edges_sound a G es k w :
  weights (add_edges a G es) !! k = Some w →
  weights G !! k = Some w ∨ ∃ b, (b, w) ∈ es ∧ k = edge_key a b.
Proof.
  revert G. induction es as [|[b w'] es IH]; intros G H; [by left|]. simpl in H.
  apply IH in H as [H|(b' & Hin & ->)].
  - simpl in H. rewrite lookup_insert in H. case_decide as Hk.
    + injection H as <-. right. exists b. split; [by left|done].
    + by left.
  - right. exists b'. split; [by right|done].
Qed.

Lemma weights_add_edges_present a G es k :
  is_Some (weights G !! k) ∨ (∃ e, e ∈ es ∧ k = edge_key a e.1) →
  is_Some (weights (add_edges a G es) !! k).
Proof.
  revert G. induction es as [|e es IH]; intros G H.
  { destruct H as [H|(e & He & _)]; [done|by apply elem_of_nil in He]. }
  simpl. apply IH. destruct (decide (k = edge_key a e.1)) as [->|Hne].
  - left. simpl. rewrite lookup_insert_eq. eauto.
  - destruct H as [H|(e' & He' & ->)].
    + left. simpl. by rewrite lookup_insert_ne.
    + apply elem_of_cons in He' as [->|He']; [done|]. right. eauto.
Qed.

Lemma weights_build_untouched g obs cells G k :
  (∀ a e, a ∈ cells → e ∈ cell_edges g obs a → edge_key a e.1 ≠ k) →
  weights (fold_left (build_cell g obs) cells G) !! k = weights G !! k.
Proof.
  revert G. induction cells as [|c cells IH]; intros G Hk; [done|]. simpl.
  rewrite IH by (intros a e Ha; apply Hk; by right).
  rewrite build_cell_edges. apply weights_add_edges_untouched.
  intros e. apply Hk. by left.
Qed.

Lemma weights_build_sound g obs cells G k w :
  weights (fold_left (build_cell g obs) cells G) !! k = Some w →
  weights G !! k = Some w ∨
  ∃ a b, a ∈ cells ∧ (b, w) ∈ cell_edges g obs a ∧ k = edge_key a b.
Proof.
  revert G. induction cells as [|c cells IH]; intros G H; [by left|]. simpl in H.
  apply IH in H as [H|(a & b & Ha & Hb & ->)].
  - rewrite build_cell_edges in H. apply weights_add_edges_sound in H as [H|(b & Hb & ->)].
    + by left.
    + right. exists c, b. split; [by left|done].
  - right. exists a, b. split; [by right|done].
Qed.

Lemma weights_build_present g obs cells G k :
  is_Some (weights G !! k) ∨
  (∃ a e, a ∈ cells ∧ e ∈ cell_edges g obs a ∧ k = edge_key a e.1) →
  is_Some (weights (fold_left (build_cell g obs) cells G) !! k).
Proof.
  revert G. induction cells as [|c cells IH]; intros G H.
  { destruct H as [H|(a & e & Ha & _)]; [done|by apply elem_of_nil in Ha]. }
  simpl. apply IH. rewrite build_cell_edges.
  destruct H as [H|(a & e & Ha & He & ->)].
  - left. apply weights_add_edges_present. by left.
  - apply elem_of_cons in Ha as [->|Ha].
    + left. apply weights_add_edges_present. right. eauto.
    + right. eauto.
Qed.

(** ** The traversal graph *)

Definition edge_expected (g : Z) (obstacles : gmap GridPos Obstacle) (a b : GridPos) : Prop :=
  in_grid g a ∧ in_grid g b ∧ (∃ d, d ∈ dirs ∧ b = step a d) ∧
  has_type obstacles a "Indestructible" = false ∧
  has_type obstacles b "Indestructible" = false.

(** For every grid size the adjacency lists hold exactly the expected
    edges, each once. *)
Lemma build_graph_neighbors g obs a b :
  b ∈ neighbors (build_graph g obs) a ↔ edge_expected g obs a b.
Proof.
  rewrite neighbors_build_graph. unfold edge_expected, in_grid.
  destruct a as [x y]. case_decide as Hin.
  - apply elem_of_all_positions in Hin. rewrite list_elem_of_fmap. split.
    + intros ([b' w] & -> & He). apply elem_of_cell_edges in He. simpl. tauto.
    + intros (_ & Hb & Hd & Ha & Hbi). exists (b, expected_weight obs b).
      split; [done|]. apply elem_of_cell_edges. tauto.
  - split; [by intros ?%elem_of_nil|]. intros (Ha & _). simpl in Ha.
    destruct Hin. by apply elem_of_all_positions.
Qed.

Lemma build_graph_neighbors_NoDup g obs a : NoDup (neighbors (build_graph g obs) a).
Proof.
  rewrite neighbors_build_graph. case_decide; [apply cell_edges_NoDup|constructor].
Qed.

Lemma build_graph_weight_sound g obs k w :
  weights (build_graph g obs) !! k = Some w →
  ∃ a b, edge_expected g obs a b ∧ k = edge_key a b ∧ w = expected_weight obs b.
Proof.
  intros H. apply weights_build_sound in H as [H|(a & b & Ha & Hb & ->)].
  { unfold empty_graph in H. simpl in H. by rewrite lookup_empty in H. }
  exists a, b. apply elem_of_cell_edges in Hb. destruct a as [x y].
  apply elem_of_all_positions in Ha. unfold edge_expected, in_grid. simpl. tauto.
Qed.

Lemma edge_expected_key_inj g obs a b a' b' :
  g ≤ 65536 → in_grid g a → in_grid g b → edge_expected g obs a' b' →
  edge_key a b = edge_key a' b' → a = a' ∧ b = b'.
Proof.
  intros Hg [? ?] [? ?] ([? ?] & [? ?] & _) (K1 & K2 & K3 & K4)%edge_key_inj.
  rewrite !low16_small in K1, K2, K3, K4 by lia.
  destruct a, b, a', b'. simpl in *. by subst.
Qed.

(** For every grid size up to 65536 and every obstacle map,
    [build_graph] lists [b] among the neighbours of [a] exactly when both
    are grid cells free of Indestructible obstacles and [b] is one of the
    four neighbours of [a]; each such edge is listed once and carries the
    weight 10 when [b] holds a Destructible obstacle and 1 otherwise; no
    weight is stored for any other pair of grid cells. *)
Lemma build_graph_correct (g : Z) (obs : gmap GridPos Obstacle) :
  g ≤ 65536 →
  (∀ a b, b ∈ neighbors (build_graph g obs) a ↔ edge_expected g obs a b) ∧
  (∀ a, NoDup (neighbors (build_graph g obs) a)) ∧
  (∀ a b, b ∈ neighbors (build_graph g obs) a →
          cost (build_graph g obs) a b = Fin (expected_weight obs b)) ∧
  (∀ a b, in_grid g a → in_grid g b → b ∉ neighbors (build_graph g obs) a →
          cost (build_graph g obs) a b = PInf).
Proof.
  intros Hg. split; [apply build_graph_neighbors|].
  split; [apply build_graph_neighbors_NoDup|]. split.
  - intros a b Hab. pose proof Hab as Hexp. apply build_graph_neighbors in Hexp.
    assert (is_Some (weights (build_graph g obs) !! edge_key a b)) as [w Hw].
    { apply weights_build_present. right.
      rewrite neighbors_build_graph in Hab. case_decide as Hin; [|by apply elem_of_nil in Hab].
      apply list_elem_of_fmap in Hab as (e & -> & He). eauto. }
    unfold cost. rewrite Hw.
    apply build_graph_weight_sound in Hw as (a' & b' & Hexp' & Hk & ->).
    destruct Hexp as (Ha & Hb & _).
    by destruct (edge_expected_key_inj g obs a b a' b' Hg Ha Hb Hexp' Hk) as [-> ->].
  - intros a b Ha Hb Hab. unfold cost.
    destruct (weights (build_graph g obs) !! edge_key a b) as [w|] eqn:Hw; [|done].
    apply build_graph_weight_sound in Hw as (a' & b' & Hexp' & Hk & ->).
    destruct (edge_expected_key_inj g obs a b a' b' Hg Ha Hb Hexp' Hk) as [-> ->].
    destruct Hab. by apply build_graph_neighbors.
Qed.

(** The same statement without the bound on the grid size. *)
Definition graph_claimed (g : Z) (obs : gmap GridPos Obstacle) : Prop :=
  ∀ a b,
    (b ∈ neighbors (build_graph g obs) a ↔ edge_expected g obs a b) ∧
    (b ∈ neighbors (build_graph g obs) a →
     cost (build_graph g obs) a b = Fin (expected_weight obs b)).

Lemma bind_singleton_fmap {A B} (h : A → B) (l : list A) :
  (l ≫= λ y, [h y]) = h <$> l.
Proof. induction l as [|x l IH]; [done|]. by rewrite bind_cons, fmap_cons, IH. Qed.

(** The cells in loop order: all columns but the last, then the last
    column from its first cell on. *)
Lemma all_positions_last_column g :
  0 < g →
  all_positions g =
    (seqZ 0 (g - 1) ≫= λ x, seqZ 0 g ≫= λ y, [(x, y)])
    ++ (g - 1, 0) :: ((λ y, (g - 1, y)) <$> seqZ 1 (g - 1)).
Proof.
  intros Hg. unfold all_positions.
  replace g with ((g - 1) + 1) at 1 by lia.
  rewrite seqZ_app by lia. rewrite bind_app. f_equal.
  rewrite (seqZ_cons (0 + (g - 1)) 1) by lia. rewrite (seqZ_nil (Z.succ _) (Z.pred 1)) by lia.
  rewrite bind_cons. change ([] ≫= _) with (@nil GridPos). rewrite app_nil_r.
  rewrite bind_singleton_fmap.
  rewrite (seqZ_cons 0 g) by lia. rewrite fmap_cons.
  replace (0 + (g - 1)) with (g - 1) by lia.
  replace (Z.succ 0) with 1 by lia. replace (Z.pred g) with (g - 1) by lia. done.
Qed.

Lemma weights_last_column (n : Z) (obs : gmap GridPos Obstacle) (k : Z) :
  0 ≤ n →
  (∀ y e, 1 ≤ y ≤ n → e ∈ cell_edges (n + 1) obs (n, y) → edge_key (n, y) e.1 ≠ k) →
  ∃ G1, weights (build_graph (n + 1) obs) !! k =
        weights (add_edges (n, 0) G1 (cell_edges (n + 1) obs (n, 0))) !! k.
Proof.
  intros Hn Hk. unfold build_graph. rewrite all_positions_last_column by lia.
  rewrite fold_left_app. replace (n + 1 - 1) with n by lia.
  set (G1 := fold_left _ (_ ≫= _) empty_graph). exists G1.
  change (fold_left ?f (?c :: ?l) G1) with (fold_left f l (f G1 c)).
  rewrite weights_build_untouched.
  - by rewrite build_cell_edges.
  - intros a e Ha He. apply list_elem_of_fmap in Ha as (y & -> & Hy).
    apply elem_of_seqZ in Hy. apply (Hk y e); [lia|done].
Qed.

Definition far_obstacle : gmap GridPos Obstacle :=
  {[ (65536, 1) := new_Obstacle 65536 1 "Destructible" OBSTACLE_HEALTH ]}.

Lemma far_obstacle_weight :
  weights (build_graph (65536 + 1) far_obstacle) !! edge_key (0, 0) (0, 1) = Some 10%Q.
Proof.
  destruct (weights_last_column 65536 far_obstacle (edge_key (0, 0) (0, 1))) as [G1 ->].
  - lia.
  - intros y [b w] Hy He Hk. simpl in Hk.
    apply elem_of_cell_edges in He as (_ & _ & (d & Hd & ->) & Hb & _).
    apply edge_key_inj in Hk as (_ & K2 & K3 & K4). unfold low16 in *.
    unfold dirs in Hd. rewrite !elem_of_cons, elem_of_nil in Hd.
    unfold step in *. simpl in *.
    change (2 ^ 16) with 65536 in *.
    destruct Hd as [->|[->|[->|[->|[]]]]]; simpl in *; Z.div_mod_to_equations; lia.
  - assert (cell_edges (65536 + 1) far_obstacle (65536, 0)
            = [((65535, 0), 1%Q); ((65536, 1), 10%Q)]) as -> by (vm_compute; reflexivity).
    assert (edge_key (0, 0) (0, 1) = edge_key (65536, 0) (65536, 1)) as ->
      by (vm_compute; reflexivity).
    unfold add_edges. simpl. apply lookup_insert_eq.
Qed.

Lemma far_obstacle_edge :
  (0, 1) ∈ neighbors (build_graph (65536 + 1) far_obstacle) (0, 0).
Proof.
  apply build_graph_neighbors. unfold edge_expected, in_grid.
  split; [simpl; lia|]. split; [simpl; lia|]. split.
  - exists (0, 1). split; [|reflexivity]. unfold dirs. rewrite !elem_of_cons. tauto.
  - split; reflexivity.
Qed.


Lemma far_weight_is_10 :
  cost (build_graph (65536 + 1) far_obstacle) (0, 0) (0, 1) = Fin 10%Q.
Proof. unfold cost. rewrite far_obstacle_weight. reflexivity. Qed.

Lemma far_expected : expected_weight far_obstacle (0, 1) = 1%Q.
Proof. reflexivity. Qed.

(** With 65537 columns the unbounded statement fails: [edge_key] keeps
    16 bits of each coordinate, so the edge (65536, 0) -> (65536, 1), whose
    destination holds a Destructible obstacle, overwrites the weight of the
    edge (0, 0) -> (0, 1), whose destination is free. *)
Lemma graph_claimed_fails_65537 : ¬ graph_claimed (65536 + 1) far_obstacle.
Proof.
  unfold graph_claimed. intros H. destruct (H (0, 0) (0, 1)) as [_ Hw]. clear H.
  apply (λ H, H far_obstacle_edge) in Hw.
  rewrite far_weight_is_10, far_expected in Hw. discriminate Hw.
Qed.

(** ** Properties of [Graph] and [build_graph] *)

Definition fits16 (p : GridPos) : Prop := 0 ≤ p.1 < 65536 ∧ 0 ≤ p.2 < 65536.

(** X1.  [Graph::edge_key] gives two edges the same key exactly when the
    low 16 bits of their four coordinates agree; edges whose coordinates
    all lie in 0..65535 therefore have distinct keys. *)
Theorem edge_key_collision (a b a' b' : GridPos) :
  (edge_key a b = edge_key a' b' ↔
   low16 a.1 = low16 a'.1 ∧ low16 a.2 = low16 a'.2 ∧
   low16 b.1 = low16 b'.1 ∧ low16 b.2 = low16 b'.2) ∧
  (fits16 a ∧ fits16 b ∧ fits16 a' ∧ fits16 b' ∧ edge_key a b = edge_key a' b' →
   a = a' ∧ b = b').
Proof.
  split; [apply edge_key_inj|].
  intros ([? ?] & [? ?] & [? ?] & [? ?] & (K1 & K2 & K3 & K4)%edge_key_inj).
  rewrite !low16_small in K1, K2, K3, K4 by lia.
  destruct a, b, a', b'. simpl in *. by subst.
Qed.

(** X2.  After [add_edge(a, b, w)] the cost of [a -> b] is [w] and [b] is
    appended to the neighbours of [a]; the neighbours of every other node
    and the cost of every edge with another key are unchanged. *)
Theorem add_edge_round_trip (g : Graph) (a b : GridPos) (w : Q) :
  cost (add_edge g a b w) a b = Fin w ∧
  neighbors (add_edge g a b w) a = neighbors g a ++ [b] ∧
  (∀ a', a' ≠ a → neighbors (add_edge g a b w) a' = neighbors g a') ∧
  (∀ a' b', edge_key a' b' ≠ edge_key a b →
            cost (add_edge g a b w) a' b' = cost g a' b').
Proof.
  unfold cost, neighbors, add_edge. simpl. split; [by rewrite lookup_insert_eq|].
  split; [by rewrite lookup_insert_eq|]. split.
  - intros a' Hne. by rewrite lookup_insert_ne.
  - intros a' b' Hne. by rewrite lookup_insert_ne.
Qed.

Lemma length_omap_le {A B} (f : A → option B) (l : list A) :
  (length (omap f l) ≤ length l)%nat.
Proof.
  induction l as [|x l IH]; [done|].
  change (omap f (x :: l)) with (match f x with Some y => y :: omap f l | None => omap f l end).
  destruct (f x); simpl; lia.
Qed.

(** X3.  For every grid size and obstacle map, [build_graph] lists [b]
    among the neighbours of [a] exactly when [a] and [b] are cells of the
    grid, [b] is one step left, right, up or down of [a], and neither holds
    an Indestructible obstacle; each neighbour is listed once, so a cell has
    at most four. *)
Theorem build_graph_adjacency (g : Z) (obs : gmap GridPos Obstacle) (a : GridPos) :
  (∀ b, b ∈ neighbors (build_graph g obs) a ↔ edge_expected g obs a b) ∧
  NoDup (neighbors (build_graph g obs) a) ∧
  (length (neighbors (build_graph g obs) a) ≤ 4)%nat.
Proof.
  split; [intros b; apply build_graph_neighbors|].
  split; [apply build_graph_neighbors_NoDup|].
  rewrite neighbors_build_graph. case_decide; [|simpl; lia].
  rewrite length_fmap. unfold cell_edges.
  destruct (has_type obs a "Indestructible"); [simpl; lia|].
  apply (length_omap_le (emit_dir g obs a) dirs).
Qed.

Lemma edge_expected_sym g obs a b : edge_expected g obs a b → edge_expected g obs b a.
Proof.
  intros (Ha & Hb & (d & Hd & ->) & Hia & Hib).
  split; [done|]. split; [done|]. split; [|done].
  exists (- d.1, - d.2). split.
  - unfold dirs in *. rewrite !elem_of_cons, elem_of_nil in *.
    destruct Hd as [->|[->|[->|[->|[]]]]]; simpl; tauto.
  - unfold step. destruct a as [x y]. simpl. f_equal; lia.
Qed.

(** X4.  The adjacency built by [build_graph] is symmetric: [b] is a
    neighbour of [a] exactly when [a] is a neighbour of [b]. *)
Theorem build_graph_symmetric (g : Z) (obs : gmap GridPos Obstacle) (a b : GridPos) :
  b ∈ neighbors (build_graph g obs) a ↔ a ∈ neighbors (build_graph g obs) b.
Proof. rewrite !build_graph_neighbors. split; apply edge_expected_sym. Qed.

(** X5.  For a grid size up to 65536, the cost stored for each listed
    edge is 10 when its destination holds a Destructible obstacle and 1
    otherwise, and the cost of every other pair of grid cells is
    infinite. *)
Theorem build_graph_weights (g : Z) (obs : gmap GridPos Obstacle) :
  g ≤ 65536 →
  (∀ a b, b ∈ neighbors (build_graph g obs) a →
          cost (build_graph g obs) a b =
            Fin (if has_type obs b "Destructible" then 10%Q else 1%Q)) ∧
  (∀ a b, in_grid g a → in_grid g b → b ∉ neighbors (build_graph g obs) a →
          cost (build_graph g obs) a b = PInf).
Proof. intros Hg. by destruct (build_graph_correct g obs Hg) as (_ & _ & ? & ?). Qed.

(** A 2 x 2 grid with a Destructible obstacle on cell (1, 0). *)
Definition gate_obstacles : gmap GridPos Obstacle :=
  {[ (1, 0) := new_Obstacle 1 0 "Destructible" 20 ]}.

Lemma build_graph_weights_witness :
  (1, 0) ∈ neighbors (build_graph 2 gate_obstacles) (0, 0) ∧
  cost (build_graph 2 gate_obstacles) (0, 0) (1, 0) = Fin 10 ∧
  cost (build_graph 2 gate_obstacles) (1, 0) (0, 0) = Fin 1 ∧
  cost (build_graph 2 gate_obstacles) (0, 0) (1, 1) = PInf.
Proof.
  destruct (build_graph_weights 2 gate_obstacles ltac:(lia)) as [Hin Hout].
  assert (neighbors (build_graph 2 gate_obstacles) (0, 0) = [(1, 0); (0, 1)]) as H00
    by (vm_compute; reflexivity).
  assert (neighbors (build_graph 2 gate_obstacles) (1, 0) = [(0, 0); (1, 1)]) as H10
    by (vm_compute; reflexivity).
  split; [rewrite H00; by left|]. split; [|split].
  - rewrite (Hin (0, 0) (1, 0)); [done|]. rewrite H00. by left.
  - rewrite (Hin (1, 0) (0, 0)); [done|]. rewrite H10. by left.
  - apply Hout; [unfold in_grid; simpl; lia..|]. rewrite H00.
    intros H. repeat (apply elem_of_cons in H as [H|H]; [discriminate|]).
    by apply elem_of_nil in H.
Defined.

(** X6.  Whatever the grid size, every cost of a graph made by
    [build_graph] is 1, 10 or infinite, and the cost of a listed edge is
    never infinite. *)
Theorem build_graph_cost_values (g : Z) (obs : gmap GridPos Obstacle) (a b : GridPos) :
  (cost (build_graph g obs) a b = PInf ∨ cost (build_graph g obs) a b = Fin 1 ∨
   cost (build_graph g obs) a b = Fin 10) ∧
  (b ∈ neighbors (build_graph g obs) a → cost (build_graph g obs) a b ≠ PInf).
Proof.
  split.
  - unfold cost. destruct (weights (build_graph g obs) !! edge_key a b) as [w|] eqn:Hw;
      [|by left].
    apply build_graph_weight_sound in Hw as (a' & b' & _ & _ & ->).
    unfold expected_weight. destruct (has_type obs b' "Destructible"); auto.
  - intros Hab.
    assert (is_Some (weights (build_graph g obs) !! edge_key a b)) as [w Hw].
    { apply weights_build_present. right.
      rewrite neighbors_build_graph in Hab. case_decide as Hin; [|by apply elem_of_nil in Hab].
      apply list_elem_of_fmap in Hab as (e & -> & He). eauto. }
    unfold cost. by rewrite Hw.
Qed.

(** ** Invariants of [a_star_search] *)

Section AStarFacts.
Context `{PQ : PriorityQueue}.
Variable graph : Graph.
Variable start goal : GridPos.
Variable obstacles : gmap GridPos Obstacle.

(** An edge of the graph that the search does not skip. *)
Definition traversable (u v : GridPos) : Prop :=
  v ∈ neighbors graph u ∧ has_type obstacles v "Indestructible" = false.

(** The candidate cost as the loop body computes it from the recorded
    cost [c] of [current]. *)
Definition candidate_cost (c : fcost) (current neighbor : GridPos) : fcost :=
  match obstacles !! neighbor with
  | Some ob =>
      if String.eqb (type ob) "Destructible"
      then fadd (fadd c (Fin 1)) (k_factor (health ob))
      else fadd c (cost graph current neighbor)
  | None => fadd c (cost graph current neighbor)
  end.

Lemma relax_recorded current st neighbor c :
  cost_so_far st !! current = Some c →
  relax graph goal obstacles current st neighbor =
    if has_type obstacles neighbor "Indestructible" then st
    else improve goal current neighbor (candidate_cost c current neighbor)
           (frontier st) (came_from st) (cost_so_far st).
Proof.
  intros Hc. unfold relax, has_type, candidate_cost.
  rewrite (cs_index_Some _ _ _ Hc).
  destruct (obstacles !! neighbor) as [ob|]; [|done].
  destruct (String.eqb (type ob) "Indestructible") eqn:Hi; [by destruct st|].
  destruct (String.eqb (type ob) "Destructible"); [|done].
  by rewrite (cs_index_Some _ _ _ Hc).
Qed.

(** What [improve] does to the three components. *)
Definition improves (new_cost : fcost) (cs : gmap GridPos fcost) (v : GridPos) : bool :=
  match cs !! v with
  | None => true
  | Some old => flt new_cost old
  end.

Lemma improve_true current v nc fr cf cs :
  improves nc cs v = true →
  improve goal current v nc fr cf cs =
    mkState (pq_push (fadd nc (heuristic goal v), v) fr) (<[v := current]> cf) (<[v := nc]> cs).
Proof. unfold improve, improves. by intros ->. Qed.

Lemma improve_false current v nc fr cf cs :
  improves nc cs v = false → improve goal current v nc fr cf cs = mkState fr cf cs.
Proof. unfold improve, improves. by intros ->. Qed.

Record basic_inv (st : astar_state) : Prop := {
  bi_dom : ∀ v, is_Some (came_from st !! v) ↔ is_Some (cost_so_far st !! v);
  bi_start : is_Some (came_from st !! start);
  bi_pred : ∀ v u, came_from st !! v = Some u →
      (v = start ∧ u = start) ∨ (traversable u v ∧ is_Some (came_from st !! u));
  bi_reach : ∀ v, is_Some (came_from st !! v) → rtc traversable start v;
  bi_front : ∀ e, e ∈ pq_elems (frontier st) → is_Some (cost_so_far st !! e.2)
}.

Lemma basic_inv_init : basic_inv (a_star_init start).
Proof.
  unfold a_star_init. split; simpl.
  - intros v. rewrite !lookup_singleton_is_Some. done.
  - rewrite lookup_singleton_eq. eauto.
  - intros v u H. apply lookup_singleton_Some in H as [<- <-]. by left.
  - intros v H. apply lookup_singleton_is_Some in H as <-. done.
  - intros e He. rewrite pq_elems_push, pq_elems_empty in He.
    apply list_elem_of_singleton in He as ->. simpl. rewrite lookup_singleton_eq. eauto.
Qed.

Lemma basic_inv_pop st x fr :
  basic_inv st → pq_pop (frontier st) = Some (x, fr) →
  basic_inv (mkState fr (came_from st) (cost_so_far st)) ∧
  is_Some (cost_so_far st !! x.2).
Proof.
  intros [Hd Hs Hp Hr Hf] Hpop. apply pq_pop_Some in Hpop as [Hperm _].
  split; [split; simpl; try done|].
  - intros e He. apply Hf. rewrite Hperm. by right.
  - apply Hf. rewrite Hperm. by left.
Qed.

Lemma basic_inv_relax current st v :
  basic_inv st → is_Some (cost_so_far st !! current) → v ∈ neighbors graph current →
  basic_inv (relax graph goal obstacles current st v) ∧
  is_Some (cost_so_far (relax graph goal obstacles current st v) !! current).
Proof.
  intros Hinv [c Hc] Hv. rewrite (relax_recorded _ _ _ _ Hc).
  destruct (has_type obstacles v "Indestructible") eqn:Hi; [by eauto|].
  destruct (improves (candidate_cost c current v) (cost_so_far st) v) eqn:Hb.
  2:{ rewrite improve_false by done. destruct st. by eauto. }
  rewrite improve_true by done. destruct Hinv as [Hd Hs Hp Hr Hf].
  assert (is_Some (came_from st !! current)) as Hcur by (apply Hd; eauto).
  split; [split; simpl|].
  - intros x. rewrite !lookup_insert_is_Some. by rewrite Hd.
  - apply lookup_insert_is_Some. destruct (decide (v = start)); auto.
  - intros x u. rewrite lookup_insert. case_decide as Hx.
    + intros [= <-]. subst x. right. split; [done|].
      apply lookup_insert_is_Some. destruct (decide (v = current)); auto.
    + intros Hxu. destruct (Hp _ _ Hxu) as [?|[? ?]]; [by left|]. right. split; [done|].
      apply lookup_insert_is_Some. destruct (decide (v = u)); auto.
  - intros x. rewrite lookup_insert_is_Some. intros [<-|[_ Hx]]; [|by apply Hr].
    eapply rtc_r; [by apply Hr|done].
  - intros e. rewrite pq_elems_push. intros [->|He]%elem_of_cons; simpl.
    + apply lookup_insert_is_Some. by left.
    + apply lookup_insert_is_Some. destruct (decide (v = e.2)); auto.
  - simpl. apply lookup_insert_is_Some. destruct (decide (v = current)); eauto.
Qed.

Lemma basic_inv_expand current st :
  basic_inv st → is_Some (cost_so_far st !! current) →
  basic_inv (expand graph goal obstacles current st).
Proof.
  unfold expand. intros Hinv Hc.
  assert (∀ l st, (∀ v, v ∈ l → v ∈ neighbors graph current) →
                  basic_inv st → is_Some (cost_so_far st !! current) →
                  basic_inv (fold_left (relax graph goal obstacles current) l st)) as Hfold.
  { clear st Hinv Hc. induction l as [|v l IH]; intros st Hl Hinv Hc; [done|]. simpl.
    destruct (basic_inv_relax current st v Hinv Hc) as [? ?]; [apply Hl; by left|].
    apply IH; [|done|done]. intros x Hx. apply Hl. by right. }
  by apply Hfold.
Qed.

Lemma basic_inv_loop fuel st st' :
  basic_inv st → a_star_loop graph goal obstacles fuel st = Some st' → basic_inv st'.
Proof.
  revert st. induction fuel as [|fuel IH]; intros st Hinv; [done|]. simpl.
  destruct (pq_pop (frontier st)) as [[[p current] fr]|] eqn:Hpop.
  - destruct (basic_inv_pop _ _ _ Hinv Hpop) as [Hinv' Hc]. simpl in Hc.
    case_decide; [by intros [= <-]|].
    apply IH. by apply basic_inv_expand.
  - by intros [= <-].
Qed.
End AStarFacts.

(** ** The relaxation step of [a_star_search] *)

Section RelaxStep.
Context `{PQ : PriorityQueue}.
Variable graph : Graph.
Variable goal : GridPos.
Variable obstacles : gmap GridPos Obstacle.





End RelaxStep.






(** ** Path reconstruction *)

(** [forward cf start v l]: [l] runs from [start] to [v], each cell being
    the recorded predecessor of the next. *)
Inductive forward (cf : gmap GridPos GridPos) (start : GridPos)
    : GridPos → list GridPos → Prop :=
| forward_start : forward cf start start [start]
| forward_snoc u v l :
    v ≠ start → cf !! v = Some u → forward cf start u l → forward cf start v (l ++ [v]).

Lemma reconstruct_loop_forward fuel cf start current acc path :
  reconstruct_loop fuel cf start current acc = Returns path →
  ∃ l, forward cf start current l ∧ path = l ++ reverse acc.
Proof.
  revert current acc. induction fuel as [|fuel IH]; intros current acc; [done|]. simpl.
  case_decide as Hcur.
  - intros [= <-]. subst current. exists [start]. split; [constructor|].
    by rewrite reverse_app.
  - destruct (cf !! current) as [prev|] eqn:Hprev; [|done].
    intros (l & Hl & ->)%IH. exists (l ++ [current]). split; [by econstructor|].
    by rewrite reverse_app, <- app_assoc.
Qed.

Lemma forward_ends cf start v l :
  forward cf start v l → head l = Some start ∧ last l = Some v.
Proof.
  induction 1 as [|u v l Hv Hcf Hl [IH1 IH2]]; [done|]. split.
  - destruct l; [done|]. done.
  - by rewrite last_snoc.
Qed.

Lemma forward_links cf start v l l1 a b l2 :
  forward cf start v l → l = l1 ++ a :: b :: l2 → cf !! b = Some a ∧ b ≠ start.
Proof.
  intros H. revert l1 a b l2.
  induction H as [|u v l Hv Hcf Hl IH]; intros l1 a b l2 Heq.
  { destruct l1 as [|? [|? ?]]; discriminate. }
  destruct (forward_ends cf start u l Hl) as [_ Hlast].
  destruct l2 as [|c l2 _] using rev_ind.
  - replace (l1 ++ [a; b]) with ((l1 ++ [a]) ++ [b]) in Heq by (by rewrite <- app_assoc).
    apply app_inj_tail in Heq as [-> ->]. rewrite last_snoc in Hlast.
    injection Hlast as ->. done.
  - replace (l1 ++ a :: b :: l2 ++ [c]) with ((l1 ++ a :: b :: l2) ++ [c]) in Heq
      by (by rewrite <- app_assoc).
    apply app_inj_tail in Heq as [-> ->]. by eapply IH.
Qed.

(** X7.  Whatever the predecessor map, a path that [reconstruct_path]
    returns for a recorded goal begins with [start], ends with [goal], and
    each of its cells after the first is a cell other than [start] whose
    recorded predecessor is the cell before it. *)
Theorem reconstruct_path_follows (fuel : nat) (cf : gmap GridPos GridPos)
    (start goal : GridPos) (path : list GridPos) :
  is_Some (cf !! goal) →
  reconstruct_path fuel cf start goal = Returns path →
  head path = Some start ∧ last path = Some goal ∧
  ∀ l1 a b l2, path = l1 ++ a :: b :: l2 → cf !! b = Some a ∧ b ≠ start.
Proof.
  intros [u Hu]. unfold reconstruct_path. rewrite Hu.
  intros (l & Hl & ->)%reconstruct_loop_forward. rewrite app_nil_r.
  destruct (forward_ends _ _ _ _ Hl) as [? ?]. split; [done|]. split; [done|].
  intros l1 a b l2 Heq. exact (forward_links _ _ _ _ _ _ _ _ Hl Heq).
Qed.

Lemma reconstruct_loop_cycle (P : GridPos → Prop) cf start fuel current acc :
  (∀ v, P v → v ≠ start ∧ ∃ u, cf !! v = Some u ∧ P u) →
  P current → reconstruct_loop fuel cf start current acc = Diverges.
Proof.
  intros HP. revert current acc. induction fuel as [|fuel IH]; intros current acc Hc; [done|].
  simpl. destruct (HP _ Hc) as (Hne & u & Hu & HPu).
  rewrite decide_False by done. rewrite Hu. by apply IH.
Qed.

(** [chain cf start v w n]: [n] steps along recorded predecessors lead
    from [v] to [w], through cells other than [start]. *)
Inductive chain (cf : gmap GridPos GridPos) (start : GridPos)
    : GridPos → GridPos → nat → Prop :=
| chain_here v : chain cf start v v 0
| chain_step v u w n :
    v ≠ start → cf !! v = Some u → chain cf start u w n → chain cf start v w (S n).

Lemma reconstruct_loop_throws cf start v w n fuel acc :
  chain cf start v w n → w ≠ start → cf !! w = None → (n < fuel)%nat →
  reconstruct_loop fuel cf start v acc = Throws out_of_range.
Proof.
  intros Hch Hw Hnone. revert fuel acc.
  induction Hch as [v|v u w n Hv Hu Hch IH]; intros fuel acc Hn.
  - destruct fuel as [|fuel]; [lia|]. simpl. rewrite decide_False by done. by rewrite Hnone.
  - destruct fuel as [|fuel]; [lia|]. simpl. rewrite decide_False by done. rewrite Hu.
    apply IH; [done|done|lia].
Qed.

(** X8.  When the predecessor chain of the goal is caught in a set of
    cells that does not hold [start] (a cycle), [reconstruct_path] does not
    return, whatever the fuel; when the chain of a recorded goal meets,
    after any number [n] of steps, a cell other than [start] without a
    recorded predecessor, [came_from.at] throws [std::out_of_range] (at
    iteration [n + 1]). *)
Theorem reconstruct_path_bad_chain (cf : gmap GridPos GridPos) (start goal : GridPos) :
  (∀ P : GridPos → Prop,
     (∀ v, P v → v ≠ start ∧ ∃ u, cf !! v = Some u ∧ P u) → P goal →
     ∀ fuel, reconstruct_path fuel cf start goal = Diverges) ∧
  (∀ w n fuel, is_Some (cf !! goal) → chain cf start goal w n →
     w ≠ start → cf !! w = None → (n < fuel)%nat →
     reconstruct_path fuel cf start goal = Throws out_of_range).
Proof.
  split.
  - intros P HP Hg fuel. unfold reconstruct_path.
    destruct (HP _ Hg) as (_ & u & -> & _). by eapply reconstruct_loop_cycle.
  - intros w n fuel [u Hu] Hch Hw Hnone Hn. unfold reconstruct_path. rewrite Hu.
    by eapply reconstruct_loop_throws.
Qed.

Lemma reconstruct_loop_no_throw cf start fuel current acc e :
  (∀ v u, cf !! v = Some u → is_Some (cf !! u)) →
  is_Some (cf !! current) →
  reconstruct_loop fuel cf start current acc ≠ Throws e.
Proof.
  intros Hclosed. revert current acc. induction fuel as [|fuel IH]; intros current acc [u Hu];
    [done|]. simpl. case_decide; [done|]. rewrite Hu. apply IH. by eapply Hclosed.
Qed.

Section AStarResults.
Context `{PQ : PriorityQueue}.
Variable graph : Graph.
Variable start goal : GridPos.
Variable obstacles : gmap GridPos Obstacle.

Lemma a_star_search_basic fuel cf cs :
  a_star_search graph start goal obstacles fuel = Some (cf, cs) →
  ∃ fr, basic_inv graph start obstacles (mkState fr cf cs).
Proof.
  unfold a_star_search.
  destruct (a_star_loop _ _ _ fuel _) as [st|] eqn:Hloop; [|done].
  intros [= <- <-]. exists (frontier st).
  apply (basic_inv_loop graph start goal obstacles) in Hloop; [|apply basic_inv_init].
  by destruct st.
Qed.

(** X9.  In every result of [a_star_search], [came_from] and
    [cost_so_far] record the same cells, [start] is recorded, every
    recorded cell can be reached from [start] along edges of the graph that
    do not enter an Indestructible obstacle, and the recorded predecessor
    of a cell is itself recorded and joined to the cell by such an edge
    (or the cell is [start], its own predecessor). *)
Theorem a_star_search_records (fuel : nat) (cf : gmap GridPos GridPos)
    (cs : gmap GridPos fcost) :
  a_star_search graph start goal obstacles fuel = Some (cf, cs) →
  dom cf = dom cs ∧ start ∈ dom cf ∧
  (∀ v, v ∈ dom cf → rtc (traversable graph obstacles) start v) ∧
  (∀ v u, cf !! v = Some u →
          (v = start ∧ u = start) ∨ (traversable graph obstacles u v ∧ u ∈ dom cf)).
Proof.
  intros (fr & [Hd Hs Hp Hr Hf])%a_star_search_basic. simpl in *.
  split; [|split; [|split]].
  - apply set_eq. intros v. rewrite !elem_of_dom. apply Hd.
  - by apply elem_of_dom.
  - intros v Hv%elem_of_dom. by apply Hr.
  - intros v u Hvu. destruct (Hp _ _ Hvu) as [?|[? ?]]; [by left|]. right.
    by rewrite elem_of_dom.
Qed.

(** X10.  On a result of [a_star_search], [reconstruct_path] never
    throws; and a path it returns for a recorded goal runs from [start] to
    [goal] along edges of the graph, entering no cell that holds an
    Indestructible obstacle. *)
Theorem reconstruct_path_on_search (fuel fuel' : nat) (cf : gmap GridPos GridPos)
    (cs : gmap GridPos fcost) :
  a_star_search graph start goal obstacles fuel = Some (cf, cs) →
  (∀ e, reconstruct_path fuel' cf start goal ≠ Throws e) ∧
  (∀ path, is_Some (cf !! goal) → reconstruct_path fuel' cf start goal = Returns path →
     head path = Some start ∧ last path = Some goal ∧
     ∀ l1 a b l2, path = l1 ++ a :: b :: l2 → traversable graph obstacles a b).
Proof.
  intros (fr & [Hd Hs Hp Hr Hf])%a_star_search_basic. simpl in *. split.
  - intros e. unfold reconstruct_path. destruct (cf !! goal) as [u|] eqn:Hu; [|done].
    apply reconstruct_loop_no_throw; [|by eauto].
    intros v w Hvw. destruct (Hp _ _ Hvw) as [[_ ->]|[_ ?]]; done.
  - intros path [u Hu]. unfold reconstruct_path. rewrite Hu.
    intros (l & Hl & ->)%reconstruct_loop_forward. rewrite app_nil_r.
    destruct (forward_ends _ _ _ _ Hl) as [? ?]. split; [done|]. split; [done|].
    intros l1 a b l2 Heq. destruct (forward_links _ _ _ _ _ _ _ _ Hl Heq) as [Hab Hb].
    destruct (Hp _ _ Hab) as [[? _]|[? _]]; done.
Qed.

(** X11.  A goal other than [start] that cannot be reached from [start]
    along edges of the graph that avoid Indestructible obstacles (for
    instance a goal that itself holds one) is never recorded, and
    [reconstruct_path] then returns the one-cell path [[start]]. *)
Theorem a_star_search_unreachable (fuel fuel' : nat) (cf : gmap GridPos GridPos)
    (cs : gmap GridPos fcost) :
  ¬ rtc (traversable graph obstacles) start goal →
  a_star_search graph start goal obstacles fuel = Some (cf, cs) →
  cf !! goal = None ∧ reconstruct_path fuel' cf start goal = Returns [start].
Proof.
  intros Hun (fr & [Hd Hs Hp Hr Hf])%a_star_search_basic. simpl in *.
  assert (cf !! goal = None) as Hg.
  { destruct (cf !! goal) as [u|] eqn:Hu; [|done]. destruct Hun. apply Hr. eauto. }
  split; [done|]. unfold reconstruct_path. by rewrite Hg.
Qed.

(** X12.  When [start] is the goal, the search stops at the first pop:
    only [start] is recorded, as its own predecessor and at cost 0, and
    the reconstructed path is [[start]]. *)
Theorem a_star_search_start_is_goal (fuel fuel' : nat) :
  a_star_search graph start start obstacles (S fuel)
    = Some ({[start := start]}, {[start := Fin 0]}) ∧
  reconstruct_path (S fuel') {[start := start]} start start = Returns [start].
Proof.
  split.
  - unfold a_star_search. simpl.
    destruct (pq_pop (pq_push (Fin 0, start) pq_empty)) as [[[p current] fr]|] eqn:Hpop.
    + apply pq_pop_Some in Hpop as [Hperm _].
      rewrite pq_elems_push, pq_elems_empty in Hperm.
      assert ((p, current) ∈ [(Fin 0, start)]) as Hin by (rewrite Hperm; by left).
      apply list_elem_of_singleton in Hin as [= -> ->]. by rewrite decide_True.
    + apply pq_pop_None in Hpop. simpl in Hpop.
      pose proof (pq_elems_push (Fin 0, start) pq_empty) as Hperm.
      rewrite Hpop in Hperm. by apply Permutation_nil_cons in Hperm.
  - unfold reconstruct_path. rewrite lookup_singleton_eq. simpl. by rewrite decide_True.
Qed.
End AStarResults.

(** ** Chains of recorded predecessors *)

Lemma forward_recorded cf start v l :
  is_Some (cf !! start) → forward cf start v l → ∀ y, y ∈ l → is_Some (cf !! y).
Proof.
  intros Hs. induction 1 as [|u v l Hv Hcf Hl IH]; intros y Hy.
  - apply list_elem_of_singleton in Hy as ->. done.
  - apply elem_of_app in Hy as [Hy|Hy]; [by apply IH|].
    apply list_elem_of_singleton in Hy as ->. eauto.
Qed.

Lemma forward_insert cf start x l v u :
  forward cf start x l → v ∉ l → forward (<[v := u]> cf) start x l.
Proof.
  induction 1 as [|u' v' l Hv Hcf Hl IH]; intros Hnot; [constructor|].
  rewrite not_elem_of_app, list_elem_of_singleton in Hnot. destruct Hnot as [Hl' Hne].
  apply forward_snoc with u'; [done| |by apply IH].
  by rewrite lookup_insert_ne.
Qed.

Lemma forward_unique cf start x l1 l2 :
  forward cf start x l1 → forward cf start x l2 → l1 = l2.
Proof.
  intros H1. revert l2. induction H1 as [|u v l Hv Hcf Hl IH]; intros l2 H2.
  - inversion H2 as [|u' v' l' Hv' Hcf' Hl' E1 E2]; [done|]. done.
  - inversion H2 as [E1 E2|u' v' l' Hv' Hcf' Hl' E1 E2]; [by subst|].
    rewrite Hcf in Hcf'. injection Hcf' as <-. by rewrite (IH l').
Qed.

Lemma forward_prefix cf start x l l1 y l2 :
  forward cf start x l → l = l1 ++ y :: l2 → forward cf start y (l1 ++ [y]).
Proof.
  intros H. revert l1 y l2. induction H as [|u v l Hv Hcf Hl IH]; intros l1 y l2 Heq.
  - destruct l1 as [|? [|? ?]]; [|discriminate..].
    injection Heq as <- <-. constructor.
  - destruct l2 as [|z l2 _] using rev_ind.
    + apply app_inj_tail in Heq as [<- <-]. by apply forward_snoc with u.
    + replace (l1 ++ y :: l2 ++ [z]) with ((l1 ++ y :: l2) ++ [z]) in Heq
        by (by rewrite <- app_assoc).
      apply app_inj_tail in Heq as [-> ->]. by eapply IH.
Qed.

Lemma forward_NoDup cf start x l : forward cf start x l → NoDup l.
Proof.
  induction 1 as [|u v l Hv Hcf Hl IH]; [apply NoDup_singleton|].
  apply NoDup_app. split; [done|]. split; [|apply NoDup_singleton].
  intros y Hy Hy'. apply list_elem_of_singleton in Hy' as ->.
  apply list_elem_of_split in Hy as (l1 & l2 & Heq).
  pose proof (forward_prefix _ _ _ _ _ _ _ Hl Heq) as Hpre.
  pose proof (forward_snoc _ _ _ _ _ Hv Hcf Hl) as Hall.
  pose proof (forward_unique _ _ _ _ _ Hpre Hall) as E.
  apply app_inj_tail in E as [E _]. subst l1.
  apply (f_equal length) in Heq. rewrite length_app in Heq. simpl in Heq. lia.
Qed.

Lemma forward_length cf start x l :
  is_Some (cf !! start) → forward cf start x l → (length l ≤ size cf)%nat.
Proof.
  intros Hs Hl. rewrite <- (size_list_to_set (C := gset GridPos) l) by (by eapply forward_NoDup).
  rewrite <- size_dom. apply subseteq_size. intros y Hy%elem_of_list_to_set.
  apply elem_of_dom. by eapply forward_recorded.
Qed.

Lemma reconstruct_loop_chain cf start x l fuel acc :
  forward cf start x l → (length l ≤ fuel)%nat →
  reconstruct_loop fuel cf start x acc = Returns (l ++ reverse acc).
Proof.
  intros H. revert fuel acc. induction H as [|u v l Hv Hcf Hl IH]; intros fuel acc Hn.
  - destruct fuel as [|fuel]; [simpl in Hn; lia|]. simpl. rewrite decide_True by done.
    by rewrite reverse_app.
  - rewrite length_app in Hn. simpl in Hn.
    destruct fuel as [|fuel]; [lia|]. simpl. rewrite decide_False by done. rewrite Hcf.
    rewrite IH by lia. by rewrite reverse_app, <- app_assoc.
Qed.

(** ** Costs recorded by [a_star_search] *)

Section AStarCosts.
Context `{PQ : PriorityQueue}.
Variable graph : Graph.
Variable start goal : GridPos.
Variable obstacles : gmap GridPos Obstacle.

Abbreviation traversable := (traversable graph obstacles).
Abbreviation candidate_cost := (candidate_cost graph obstacles).
Abbreviation relax := (relax graph goal obstacles).
Abbreviation expand := (expand graph goal obstacles).
Abbreviation a_star_loop := (a_star_loop graph goal obstacles).

(** The cost the search charges, from cost 0, for stepping from [u] into
    [v] (for an edge it does not skip). *)
Definition step_cost (u v : GridPos) : fcost :=
  match obstacles !! v with
  | Some ob =>
      if String.eqb (type ob) "Destructible"
      then fadd (Fin 1) (k_factor (health ob))
      else cost graph u v
  | None => cost graph u v
  end.

(** Every edge that is not skipped has a finite, non-negative cost, which
    is positive unless the edge is a self-loop. *)
Definition costs_ok : Prop :=
  ∀ u v, traversable u v →
    ∃ w, step_cost u v = Fin w ∧ (0 <= w)%Q ∧ (u ≠ v → (0 < w)%Q).

(** No Destructible obstacle of the live map has a health of -10 or less,
    and no weight of the graph is negative: no step lowers a cost. *)
Definition live_ok : Prop :=
  (∀ p ob, obstacles !! p = Some ob → type ob = "Destructible"%string → -10 < health ob) ∧
  (∀ k w, weights graph !! k = Some w → (0 <= w)%Q).

Lemma candidate_cost_above c u v :
  live_ok → nonneg_val c → nonneg_val (candidate_cost c u v) ∧ fle c (candidate_cost c u v).
Proof.
  intros [Hh Hw] Hc.
  assert (nonneg_val (fadd c (cost graph u v)) ∧ fle c (fadd c (cost graph u v))) as Hstatic.
  { unfold cost. destruct (weights graph !! edge_key u v) as [w|] eqn:E.
    - apply fadd_nonneg; [done|]. by eapply Hw.
    - rewrite fadd_PInf by done. split; [done|]. by destruct c. }
  unfold candidate_cost. destruct (obstacles !! v) as [ob|] eqn:Hob; [|done].
  destruct (String.eqb (type ob) "Destructible") eqn:Ht; [|done].
  apply String.eqb_eq in Ht.
  destruct (k_factor_bounds (health ob) (Hh v ob Hob Ht)) as (kq & -> & _ & Hk0 & _).
  destruct (fadd_nonneg c 1 Hc ltac:(lra)) as [H1 H2].
  destruct (fadd_nonneg (fadd c (Fin 1)) kq H1 Hk0) as [H3 H4].
  split; [done|]. eapply fle_trans; [|exact H2|exact H4]. by apply nonneg_val_number.
Qed.

Lemma candidate_cost_mono a b u v :
  live_ok → nonneg_val a → nonneg_val b → fle a b →
  fle (candidate_cost a u v) (candidate_cost b u v).
Proof.
  intros [Hh Hw] Ha Hb Hab.
  assert (fle (fadd a (cost graph u v)) (fadd b (cost graph u v))) as Hstatic.
  { unfold cost. destruct (weights graph !! edge_key u v) as [w|] eqn:E.
    - by apply fadd_mono.
    - by rewrite !fadd_PInf. }
  unfold candidate_cost. destruct (obstacles !! v) as [ob|] eqn:Hob; [|done].
  destruct (String.eqb (type ob) "Destructible") eqn:Ht; [|done].
  apply String.eqb_eq in Ht.
  destruct (k_factor_bounds (health ob) (Hh v ob Hob Ht)) as (kq & -> & Hkf & Hk0 & _).
  destruct (fadd_nonneg a 1 Ha ltac:(lra)) as [H1 _].
  destruct (fadd_nonneg b 1 Hb ltac:(lra)) as [H2 _].
  apply fadd_mono; [done|done|]. by apply fadd_mono.
Qed.
Record cost_inv (st : astar_state) : Prop := {
  ci_basic : basic_inv graph start obstacles st;
  ci_start : came_from st !! start = Some start ∧ cost_so_far st !! start = Some (Fin 0);
  ci_val : ∀ v c, cost_so_far st !! v = Some c → nonneg_val c;
  ci_pred : ∀ v u, came_from st !! v = Some u → v ≠ start →
      u ≠ v ∧ ∃ cu cv c, cost_so_far st !! u = Some cu ∧ cost_so_far st !! v = Some cv ∧
                         nonneg_val c ∧ fle cu c ∧ cv = candidate_cost c u v;
  ci_chain : ∀ v, is_Some (came_from st !! v) → ∃ l, forward (came_from st) start v l
}.

Lemma cost_inv_init : cost_inv (a_star_init start).
Proof.
  split.
  - apply basic_inv_init.
  - simpl. by rewrite !lookup_singleton_eq.
  - simpl. intros v c [<- <-]%lookup_singleton_Some. apply nonneg_val_0.
  - simpl. intros v u [<- <-]%lookup_singleton_Some. done.
  - simpl. intros v [u [<- <-]%lookup_singleton_Some]. exists [start]. constructor.
Qed.

Lemma cost_inv_pop st x fr :
  cost_inv st → pq_pop (frontier st) = Some (x, fr) →
  cost_inv (mkState fr (came_from st) (cost_so_far st)).
Proof.
  intros [Hb Hs Hf Hp Hc] Hpop. split; try done.
  by destruct (basic_inv_pop _ _ _ _ _ _ Hb Hpop).
Qed.

(** Along a recorded predecessor the cost does not decrease. *)
Lemma cost_inv_edge st v u :
  live_ok → cost_inv st → came_from st !! v = Some u → v ≠ start →
  ∃ cu cv, cost_so_far st !! u = Some cu ∧ cost_so_far st !! v = Some cv ∧ fle cu cv.
Proof.
  intros Hok Hinv Hvu Hv.
  destruct (ci_pred _ Hinv _ _ Hvu Hv) as (_ & cu & cv & c & Hcu & Hcv & Hc & Hle & ->).
  exists cu, (candidate_cost c u v). split; [done|]. split; [done|].
  destruct (candidate_cost_above c u v Hok Hc) as [_ Hup].
  eapply fle_trans; [|exact Hle|exact Hup]. by apply nonneg_val_number.
Qed.

Lemma forward_costs st x l :
  live_ok → cost_inv st → forward (came_from st) start x l →
  ∀ y, y ∈ l → ∃ cy cx, cost_so_far st !! y = Some cy ∧ cost_so_far st !! x = Some cx ∧
                        fle cy cx.
Proof.
  intros Hok Hinv. induction 1 as [|u v l Hv Hcf Hl IH]; intros y Hy.
  - apply list_elem_of_singleton in Hy as ->. destruct (ci_start _ Hinv) as [_ Hs].
    exists (Fin 0), (Fin 0). split; [done|]. split; [done|]. apply fle_refl.
  - destruct (cost_inv_edge st v u Hok Hinv Hcf Hv) as (cu & cv & Hcu & Hcv & Hle).
    apply elem_of_app in Hy as [Hy|Hy].
    + destruct (IH y Hy) as (cy & cu' & Hcy & Hcu' & Hle').
      rewrite Hcu in Hcu'. injection Hcu' as <-.
      exists cy, cv. split; [done|]. split; [done|].
      eapply fle_trans; [|exact Hle'|exact Hle].
      eapply nonneg_val_number, ci_val; [exact Hinv|exact Hcu].
    + apply list_elem_of_singleton in Hy as ->. exists cv, cv. split; [done|]. split; [done|].
      apply fle_refl.
Qed.

Lemma cost_inv_relax current cq st v :
  live_ok → cost_inv st → cost_so_far st !! current = Some cq →
  v ∈ neighbors graph current →
  cost_inv (relax current st v) ∧ cost_so_far (relax current st v) !! current = Some cq.
Proof.
  intros Hok Hinv Hc Hv.
  assert (basic_inv graph start obstacles (relax current st v)) as Hbasic.
  { apply basic_inv_relax; [apply Hinv|by eauto|done]. }
  revert Hbasic. rewrite (relax_recorded _ _ _ _ _ _ _ Hc).
  destruct (has_type obstacles v "Indestructible") eqn:Hi; [done|].
  set (nc := candidate_cost cq current v).
  destruct (improves nc (cost_so_far st) v) eqn:Hb.
  2:{ rewrite improve_false by done. destruct st. done. }
  rewrite improve_true by done. intros Hbasic.
  destruct Hinv as [Hbi [Hs1 Hs2] Hval Hp Hch].
  pose proof (Hval _ _ Hc) as Hcq.
  destruct (candidate_cost_above cq current v Hok Hcq) as [Hnc Hup]. fold nc in Hnc, Hup.
  assert (∀ old, cost_so_far st !! v = Some old → flt nc old = true) as Hold.
  { intros old Ho. unfold improves in Hb. by rewrite Ho in Hb. }
  assert (v ≠ start) as Hvs.
  { intros ->. pose proof (Hold _ Hs2) as Hlt. pose proof (nonneg_val_fle_0 _ Hnc) as Hle.
    unfold fle in Hle. congruence. }
  assert (v ≠ current) as Hvc.
  { intros ->. pose proof (Hold _ Hc) as Hlt. unfold fle in Hup. congruence. }
  assert (is_Some (came_from st !! current)) as Hcur by (apply (bi_dom _ _ _ _ Hbi); eauto).
  destruct (Hch _ Hcur) as [lu Hlu].
  assert (forward (<[v := current]> (came_from st)) start current lu) as Hlu'.
  { apply forward_insert; [done|]. intros Hin.
    destruct (forward_costs st current lu Hok
                (Build_cost_inv st Hbi (conj Hs1 Hs2) Hval Hp Hch) Hlu v Hin)
      as (cy & cq' & Hcy & Hcq' & Hle).
    rewrite Hc in Hcq'. injection Hcq' as <-.
    pose proof (Hold _ Hcy) as Hlt.
    pose proof (fle_flt_trans cq nc cy (nonneg_val_number _ Hcq) Hup Hlt) as Hlt'.
    unfold fle in Hle. congruence. }
  split; [split; simpl|].
  - done.
  - by rewrite !lookup_insert_ne.
  - intros x c. rewrite lookup_insert. case_decide; [|apply Hval]. by intros [= <-].
  - intros x u. rewrite lookup_insert. case_decide as Hx.
    + intros [= <-] _. subst x. split; [done|].
      exists cq, nc, cq. rewrite lookup_insert_ne by done. rewrite lookup_insert_eq.
      split; [done|]. split; [done|]. split; [done|]. split; [apply fle_refl|done].
    + intros Hxu Hxs.
      destruct (Hp _ _ Hxu Hxs) as (Hux & cu & cx & c & Hcu & Hcx & Hc0 & Hle & Heq).
      split; [done|]. rewrite (lookup_insert_ne _ v x) by done.
      destruct (decide (v = u)) as [->|Hvu].
      * rewrite lookup_insert_eq. exists nc, cx, c.
        split; [done|]. split; [done|]. split; [done|]. split; [|done].
        eapply fle_trans; [|apply flt_fle, (Hold _ Hcu)|exact Hle].
        by eapply nonneg_val_number, Hval.
      * rewrite lookup_insert_ne by done. eauto 10.
  - assert (∀ x l, forward (came_from st) start x l →
              ∃ l', forward (<[v := current]> (came_from st)) start x l') as Hre.
    { induction 1 as [|u x l Hx Hcf Hl [l' IH]]; [exists [start]; constructor|].
      destruct (decide (x = v)) as [->|Hne].
      - exists (lu ++ [v]). apply forward_snoc with current; [done| |done].
        apply lookup_insert_eq.
      - exists (l' ++ [x]). apply forward_snoc with u; [done| |done].
        by rewrite lookup_insert_ne. }
    intros x [<-|[_ Hx]]%lookup_insert_is_Some.
    + exists (lu ++ [v]). apply forward_snoc with current; [done| |done].
      apply lookup_insert_eq.
    + destruct (Hch x Hx) as [l Hl]. by eapply Hre.
  - simpl. by rewrite lookup_insert_ne.
Qed.

Lemma cost_inv_fold current cq l st :
  live_ok → (∀ v, v ∈ l → v ∈ neighbors graph current) →
  cost_inv st → cost_so_far st !! current = Some cq →
  cost_inv (fold_left (relax current) l st) ∧
  cost_so_far (fold_left (relax current) l st) !! current = Some cq.
Proof.
  intros Hok. revert st. induction l as [|v l IH]; intros st Hl Hinv Hc; [done|]. simpl.
  destruct (cost_inv_relax current cq st v Hok Hinv Hc) as [? ?]; [apply Hl; by left|].
  apply IH; [|done|done]. intros x Hx. apply Hl. by right.
Qed.

Lemma cost_inv_loop fuel st st' :
  live_ok → cost_inv st → a_star_loop fuel st = Some st' → cost_inv st'.
Proof.
  intros Hok. revert st. induction fuel as [|fuel IH]; intros st Hinv; [done|]. simpl.
  destruct (pq_pop (frontier st)) as [[[p current] fr]|] eqn:Hpop.
  - pose proof (cost_inv_pop _ _ _ Hinv Hpop) as Hinv'.
    case_decide; [by intros [= <-]|].
    destruct (basic_inv_pop _ _ _ _ _ _ (ci_basic _ Hinv) Hpop) as [_ [c Hc]]. simpl in Hc.
    apply IH. by apply (cost_inv_fold current c).
  - by intros [= <-].
Qed.

(** Paths of the graph that the search may follow. *)
Inductive path_between : GridPos → list GridPos → GridPos → Prop :=
| path_one u : path_between u [u] u
| path_cons u v l t : traversable u v → path_between v l t → path_between u (u :: l) t.

Lemma path_between_snoc u l t x :
  path_between u l t → traversable t x → path_between u (l ++ [x]) x.
Proof.
  induction 1 as [u|u v l t Huv Hl IH]; intros Hx; simpl.
  - apply path_cons with x; [done|constructor].
  - apply path_cons with v; [done|]. by apply IH.
Qed.

Lemma forward_path_between st v l :
  basic_inv graph start obstacles st → forward (came_from st) start v l →
  path_between start l v.
Proof.
  intros Hinv. induction 1 as [|u v l Hv Hcf Hl IH]; [constructor|].
  apply (path_between_snoc start l u v); [exact IH|].
  by destruct (bi_pred _ _ _ _ Hinv _ _ Hcf) as [[? ?]|[? _]].
Qed.

(** The cost of a walk as the search accumulates it, from the cost [c] of
    its first cell. *)
Fixpoint walk_cost (c : fcost) (l : list GridPos) : fcost :=
  match l with
  | u :: (v :: _) as rest => walk_cost (candidate_cost c u v) rest
  | _ => c
  end.

Lemma walk_cost_snoc c l u v :
  last l = Some u → walk_cost c (l ++ [v]) = candidate_cost (walk_cost c l) u v.
Proof.
  revert c. induction l as [|x l IH]; intros c Hlast; [done|].
  destruct l as [|y l].
  - injection Hlast as ->. done.
  - change (last (x :: y :: l)) with (last (y :: l)) in Hlast.
    change (walk_cost c ((x :: y :: l) ++ [v]))
      with (walk_cost (candidate_cost c x y) ((y :: l) ++ [v])).
    by rewrite IH.
Qed.

Lemma forward_walk st v l :
  live_ok → cost_inv st → forward (came_from st) start v l →
  ∃ cv, cost_so_far st !! v = Some cv ∧
        nonneg_val (walk_cost (Fin 0) l) ∧ fle (walk_cost (Fin 0) l) cv.
Proof.
  intros Hok Hinv. induction 1 as [|u v l Hv Hcf Hl (cu & Hcu & Hwn & Hwle)].
  - destruct (ci_start _ Hinv) as [_ Hs]. exists (Fin 0). split; [done|].
    split; [apply nonneg_val_0|apply fle_refl].
  - destruct (ci_pred _ Hinv _ _ Hcf Hv) as (_ & cu' & cv & c & Hcu' & Hcv & Hc & Hle & ->).
    rewrite Hcu in Hcu'. injection Hcu' as <-.
    destruct (forward_ends _ _ _ _ Hl) as [_ Hlast].
    rewrite (walk_cost_snoc _ _ u v Hlast).
    exists (candidate_cost c u v). split; [done|].
    split; [by apply candidate_cost_above|].
    apply candidate_cost_mono; [done|done|done|].
    eapply fle_trans; [|exact Hwle|exact Hle].
    eapply nonneg_val_number, ci_val; [exact Hinv|exact Hcu].
Qed.

Lemma reconstruct_path_cost_inv st t :
  live_ok → cost_inv st → is_Some (came_from st !! t) →
  ∃ path ct,
    reconstruct_path (S (size (came_from st))) (came_from st) start t = Returns path ∧
    path_between start path t ∧ NoDup path ∧
    cost_so_far st !! t = Some ct ∧ fle (walk_cost (Fin 0) path) ct ∧
    ∀ l1 a b l2, path = l1 ++ a :: b :: l2 →
      ∃ ca cb, cost_so_far st !! a = Some ca ∧ cost_so_far st !! b = Some cb ∧ fle ca cb.
Proof.
  intros Hok Hinv Ht. destruct (ci_chain _ Hinv t Ht) as [l Hl].
  destruct (forward_walk st t l Hok Hinv Hl) as (ct & Hct & _ & Hwalk).
  exists l, ct. destruct Ht as [u Hu]. split.
  { unfold reconstruct_path. rewrite Hu.
    rewrite (reconstruct_loop_chain _ _ _ l) by
      (try done; pose proof (forward_length _ _ _ _
         (ex_intro _ _ (proj1 (ci_start _ Hinv))) Hl); lia).
    by rewrite app_nil_r. }
  split; [by eapply forward_path_between, Hl; apply Hinv|].
  split; [by eapply forward_NoDup|]. split; [done|]. split; [done|].
  intros l1 a b l2 Heq. destruct (forward_links _ _ _ _ _ _ _ _ Hl Heq) as [Hab Hb].
  by apply cost_inv_edge.
Qed.
End AStarCosts.

(** ** Termination of the search loop *)

(** The cells the search can ever record. *)
Definition nodes (graph : Graph) (start : GridPos) : gset GridPos :=
  {[start]} ∪ list_to_set (mjoin (map_to_list (edges graph)).*2).

Lemma neighbors_nodes graph start u v : v ∈ neighbors graph u → v ∈ nodes graph start.
Proof.
  unfold neighbors, nodes. intros Hv. destruct (edges graph !! u) as [l|] eqn:Hl.
  - apply elem_of_union. right. apply elem_of_list_to_set, list_elem_of_join.
    exists l. split; [done|]. apply list_elem_of_fmap. exists (u, l).
    split; [done|]. by apply elem_of_map_to_list.
  - by apply elem_of_nil in Hv.
Qed.

(** The position of a cost among the binary32 values, summed over the
    recorded cells: a strict improvement lowers it. *)
Definition units (c : fcost) : nat := Z.to_nat (rank c).

Lemma units_lt a b : float_val a → float_val b → flt a b = true → (units a < units b)%nat.
Proof.
  intros Ha Hb Hlt. unfold units.
  pose proof (rank_lt a b Ha Hb Hlt). pose proof (rank_bounds a Ha). lia.
Qed.

Definition total (cs : gmap GridPos fcost) : nat :=
  map_fold (λ _ c acc, units c + acc)%nat 0%nat cs.

Lemma total_insert_Some (cs : gmap GridPos fcost) (v : GridPos) (c old : fcost) :
  cs !! v = Some old →
  (total (<[v := c]> cs) + units old = units c + total cs)%nat.
Proof.
  intros H. unfold total.
  rewrite (map_fold_delete_L _ _ v old cs); [|intros; lia|done].
  rewrite <- (insert_delete_eq cs).
  rewrite map_fold_insert_L; [lia|intros; lia|apply lookup_delete_eq].
Qed.

Section AStarTermination.
Context `{PQ : PriorityQueue}.
Variable graph : Graph.
Variable start goal : GridPos.
Variable obstacles : gmap GridPos Obstacle.

Abbreviation relax := (relax graph goal obstacles).
Abbreviation a_star_loop := (a_star_loop graph goal obstacles).

Record term_inv (st : astar_state) : Prop := {
  ti_basic : basic_inv graph start obstacles st;
  ti_nodes : dom (cost_so_far st) ⊆ nodes graph start;
  ti_val : ∀ v c, cost_so_far st !! v = Some c → float_val c
}.

Definition unrec (st : astar_state) : nat :=
  (size (nodes graph start) - size (cost_so_far st))%nat.

Definition meas (st : astar_state) : nat :=
  (2 * total (cost_so_far st) + length (pq_elems (frontier st)))%nat.

(** Lexicographic progress: fewer unrecorded cells, or as many and no
    larger measure. *)
Definition progress (st st' : astar_state) : Prop :=
  (unrec st' < unrec st)%nat ∨ (unrec st' = unrec st ∧ (meas st' ≤ meas st)%nat).

Lemma term_inv_init : term_inv (a_star_init start).
Proof.
  split.
  - apply basic_inv_init.
  - simpl. rewrite dom_singleton_L. unfold nodes. set_solver.
  - simpl. intros v q [_ <-]%lookup_singleton_Some. apply is_float_0.
Qed.

Lemma candidate_cost_val c u v : float_val (candidate_cost graph obstacles c u v).
Proof.
  unfold candidate_cost. destruct (obstacles !! v) as [ob|]; [|apply fadd_val].
  destruct (String.eqb (type ob) "Destructible"); apply fadd_val.
Qed.

Lemma term_inv_relax current c st v :
  term_inv st → cost_so_far st !! current = Some c → v ∈ neighbors graph current →
  term_inv (relax current st v) ∧
  is_Some (cost_so_far (relax current st v) !! current) ∧
  progress st (relax current st v).
Proof.
  intros Hinv Hc Hv.
  destruct (basic_inv_relax graph start goal obstacles current st v (ti_basic _ Hinv))
    as [Hbasic Hcur]; [by eauto|done|].
  revert Hbasic Hcur. rewrite (relax_recorded _ _ _ _ _ _ _ Hc).
  destruct (has_type obstacles v "Indestructible") eqn:Hi.
  { intros _ Hcur. split; [done|]. split; [done|]. by right. }
  set (nc := candidate_cost graph obstacles c current v).
  destruct (improves nc (cost_so_far st) v) eqn:Hb.
  2:{ rewrite improve_false by done. intros _ Hcur. destruct st. simpl in *.
      split; [done|]. split; [done|]. by right. }
  rewrite improve_true by done. intros Hbasic Hcur.
  assert (v ∈ nodes graph start) as Hvn by (by eapply neighbors_nodes).
  assert (dom (<[v := nc]> (cost_so_far st)) ⊆ nodes graph start) as Hdom.
  { rewrite dom_insert_L. apply union_least; [by apply singleton_subseteq_l|apply Hinv]. }
  split; [split; simpl|split; [done|]].
  - done.
  - done.
  - intros x c'. rewrite lookup_insert. case_decide; [|apply Hinv].
    intros [= <-]. apply candidate_cost_val.
  - unfold improves in Hb. destruct (cost_so_far st !! v) as [old|] eqn:Hold.
    + right. unfold unrec, meas. simpl.
      rewrite map_size_insert_Some by done. split; [done|].
      rewrite pq_elems_push. simpl.
      pose proof (total_insert_Some (cost_so_far st) v nc old Hold) as Htot.
      assert (units nc < units old)%nat.
      { apply units_lt; [apply candidate_cost_val|by eapply (ti_val _ Hinv)|done]. }
      lia.
    + left. unfold unrec. simpl.
      apply subseteq_size in Hdom. rewrite size_dom in Hdom.
      rewrite map_size_insert_None in Hdom |- * by done. lia.
Qed.

Lemma progress_trans st1 st2 st3 : progress st1 st2 → progress st2 st3 → progress st1 st3.
Proof. unfold progress. lia. Qed.

Lemma term_inv_fold current l st :
  (∀ v, v ∈ l → v ∈ neighbors graph current) →
  term_inv st → is_Some (cost_so_far st !! current) →
  term_inv (fold_left (relax current) l st) ∧ progress st (fold_left (relax current) l st).
Proof.
  revert st. induction l as [|v l IH]; intros st Hl Hinv [c Hc].
  { split; [done|]. right. done. }
  simpl. destruct (term_inv_relax current c st v Hinv Hc) as (Hinv' & Hc' & Hp);
    [apply Hl; by left|].
  destruct (IH (relax current st v)) as [? ?]; try done.
  { intros x Hx. apply Hl. by right. }
  split; [done|]. by eapply progress_trans.
Qed.

(** The loop ends from every state that satisfies the invariant, whatever
    the weights and the obstacles. *)
Lemma a_star_loop_terminates_from st :
  term_inv st → ∃ fuel st', a_star_loop fuel st = Some st'.
Proof.
  remember (unrec st) as a eqn:Ha. revert st Ha.
  induction a as [a IHa] using lt_wf_ind. intros st Ha.
  remember (meas st) as m eqn:Hm. revert st Ha Hm.
  induction m as [m IHm] using lt_wf_ind. intros st Ha Hm Hinv.
  destruct (pq_pop (frontier st)) as [[[p current] fr]|] eqn:Hpop.
  2:{ exists 1%nat, st. simpl. by rewrite Hpop. }
  destruct (decide (current = goal)) as [Hg|Hg].
  { exists 1%nat. eexists. simpl. rewrite Hpop. by rewrite decide_True. }
  set (st1 := mkState fr (came_from st) (cost_so_far st)).
  destruct (basic_inv_pop _ _ _ _ _ _ (ti_basic _ Hinv) Hpop) as [Hb1 Hc]. simpl in Hc.
  assert (term_inv st1) as Hinv1.
  { destruct Hinv as [Hb Hn Hv]. by split. }
  destruct (term_inv_fold current (neighbors graph current) st1) as [Hinv2 Hprog];
    try done.
  fold (expand graph goal obstacles current st1) in Hinv2, Hprog.
  assert (meas st1 < meas st)%nat as Hlt.
  { unfold meas, st1. simpl. apply pq_pop_Some in Hpop as [Hperm _].
    rewrite Hperm. simpl. lia. }
  assert (unrec st1 = unrec st) as Heq by done.
  assert (∃ fuel st', a_star_loop fuel (expand graph goal obstacles current st1) = Some st')
    as (fuel & st' & Hrun).
  { destruct Hprog as [Hless|[Hsame Hle]].
    - eapply (IHa (unrec (expand graph goal obstacles current st1))); [lia|done|done].
    - eapply (IHm (meas (expand graph goal obstacles current st1))); [lia| |done|done].
      lia. }
  exists (S fuel), st'. simpl. rewrite Hpop. by rewrite decide_False.
Qed.
End AStarTermination.

(** ** Theorems on [a_star_search] *)

Lemma a_star_loop_more_fuel `{PQ : PriorityQueue} graph goal obstacles fuel k st st' :
  a_star_loop graph goal obstacles fuel st = Some st' →
  a_star_loop graph goal obstacles (fuel + k) st = Some st'.
Proof.
  revert st. induction fuel as [|fuel IH]; intros st; [done|]. simpl.
  destruct (pq_pop (frontier st)) as [[[p current] fr]|]; [|done].
  case_decide; [done|]. apply IH.
Qed.

Section AStarTheorems.
Context `{PQ : PriorityQueue}.
Variable graph : Graph.
Variable start goal : GridPos.
Variable obstacles : gmap GridPos Obstacle.

Abbreviation step_cost := (step_cost graph obstacles).
Abbreviation costs_ok := (costs_ok graph obstacles).
Abbreviation live_ok := (live_ok graph obstacles).
Abbreviation candidate_cost := (candidate_cost graph obstacles).
Abbreviation path_between := (path_between graph obstacles).
Abbreviation walk_cost := (walk_cost graph obstacles).

Lemma a_star_search_cost_inv fuel cf cs :
  live_ok → a_star_search graph start goal obstacles fuel = Some (cf, cs) →
  ∃ fr, cost_inv graph start obstacles (mkState fr cf cs).
Proof.
  intros Hok. unfold a_star_search.
  destruct (a_star_loop _ _ _ fuel _) as [st|] eqn:Hloop; [|done].
  intros [= <- <-]. exists (frontier st).
  apply (cost_inv_loop graph start goal obstacles) in Hloop; [|done|apply cost_inv_init].
  by destruct st.
Qed.

Lemma a_star_search_total :
  ∃ fuel cf cs, ∀ fuel', (fuel ≤ fuel')%nat →
    a_star_search graph start goal obstacles fuel' = Some (cf, cs).
Proof.
  destruct (a_star_loop_terminates_from graph start goal obstacles (a_star_init start))
    as (fuel & st' & Hrun); [apply term_inv_init|].
  exists fuel, (came_from st'), (cost_so_far st'). intros fuel' Hle.
  unfold a_star_search. replace fuel' with (fuel + (fuel' - fuel))%nat by lia.
  by rewrite (a_star_loop_more_fuel _ _ _ _ _ _ _ Hrun).
Qed.

(** X13.  When no Destructible obstacle of the live map has a health of
    -10 or less and no weight of the graph is negative, the result of
    [a_star_search] keeps [start] as its own predecessor at cost 0, and
    every recorded cost is a binary32 value that is not negative, or
    [+infinity].  The recorded cost of a cell other than [start] is the
    cost that the loop body computes, in binary32 arithmetic, from a cost
    [c] that its predecessor had when the cell was recorded; [c] is at
    least the recorded cost of the predecessor, and so is the cost of the
    cell. *)
Theorem a_star_search_costs (fuel : nat) (cf : gmap GridPos GridPos)
    (cs : gmap GridPos fcost) :
  live_ok → a_star_search graph start goal obstacles fuel = Some (cf, cs) →
  cf !! start = Some start ∧ cs !! start = Some (Fin 0) ∧
  (∀ v c, cs !! v = Some c → nonneg_val c) ∧
  (∀ v u, cf !! v = Some u → v ≠ start →
     ∃ cu cv c, cs !! u = Some cu ∧ cs !! v = Some cv ∧
                fle cu c ∧ cv = candidate_cost c u v ∧ fle cu cv).
Proof.
  intros Hok (fr & Hinv)%a_star_search_cost_inv; [|done].
  destruct (ci_start _ _ _ _ Hinv) as [Hs1 Hs2]. simpl in *.
  split; [done|]. split; [done|]. split; [apply (ci_val _ _ _ _ Hinv)|].
  intros v u Hvu Hv.
  destruct (ci_pred _ _ _ _ Hinv v u Hvu Hv) as (_ & cu & cv & c & Hcu & Hcv & Hc & Hle & Heq).
  destruct (cost_inv_edge _ _ _ _ v u Hok Hinv Hvu Hv) as (cu' & cv' & Hcu' & Hcv' & Hle').
  simpl in *. rewrite Hcu in Hcu'. rewrite Hcv in Hcv'.
  injection Hcu' as <-. injection Hcv' as <-. exists cu, cv, c. done.
Qed.

(** X14.  Under the same condition, [reconstruct_path] given
    [size came_from + 1] iterations returns, for every recorded cell [t],
    a path of the graph from [start] to [t] that enters no Indestructible
    obstacle and visits no cell twice; the cost of the path, accumulated
    step by step in binary32 arithmetic as the search does, is at most the
    recorded cost of [t], and the recorded costs never decrease along the
    path. *)
Theorem reconstruct_path_returns (fuel : nat) (cf : gmap GridPos GridPos)
    (cs : gmap GridPos fcost) (t : GridPos) :
  live_ok → a_star_search graph start goal obstacles fuel = Some (cf, cs) → is_Some (cf !! t) →
  ∃ path ct,
    reconstruct_path (S (size cf)) cf start t = Returns path ∧
    path_between start path t ∧ NoDup path ∧
    cs !! t = Some ct ∧ fle (walk_cost (Fin 0) path) ct ∧
    ∀ l1 a b l2, path = l1 ++ a :: b :: l2 →
      ∃ ca cb, cs !! a = Some ca ∧ cs !! b = Some cb ∧ fle ca cb.
Proof.
  intros Hok (fr & Hinv)%a_star_search_cost_inv Ht; [|done].
  by apply (reconstruct_path_cost_inv graph start obstacles (mkState fr cf cs) t).
Qed.

(** X15.  Under the same condition on the costs, [a_star_search]
    terminates: some number of loop iterations suffices, and every larger
    number gives the same result. *)
Theorem a_star_search_terminates :
  costs_ok →
  ∃ fuel cf cs, ∀ fuel', (fuel ≤ fuel')%nat →
    a_star_search graph start goal obstacles fuel' = Some (cf, cs).
Proof. intros _. apply a_star_search_total. Qed.
End AStarTheorems.

(** ** The heuristic and the obstacle cost *)

Lemma Qceiling_tenth (h : Z) : Qceiling (inject_Z h / inject_Z 10) = (h + 9) `div` 10.
Proof.
  unfold Qceiling. rewrite <- (Zdiv_Qdiv (- h) 10) || idtac.
  replace (- (inject_Z h / inject_Z 10))%Q with (inject_Z (- h) / inject_Z 10)%Q.
  - rewrite <- Zdiv_Qdiv.
    pose proof (Z.div_mod (- h) 10 ltac:(lia)) as H1.
    pose proof (Z.mod_pos_bound (- h) 10 ltac:(lia)) as H2.
    pose proof (Z.div_mod (h + 9) 10 ltac:(lia)) as H3.
    pose proof (Z.mod_pos_bound (h + 9) 10 ltac:(lia)) as H4.
    lia.
  - unfold Qdiv, Qmult, Qopp, inject_Z. simpl. f_equal. lia.
Qed.

Lemma ticks_div (h : Z) : Z.abs h ≤ 2 ^ 24 → ticks h = Fin (inject_Z ((h + 9) `div` 10)).
Proof.
  intros Hh. rewrite (ticks_exact h Hh). change 10%Q with (inject_Z 10).
  by rewrite Qceiling_tenth.
Qed.

Lemma k_factor_positive (h : Z) :
  0 < h → fle (Fin tenth) (k_factor h) ∧ ∃ kq, k_factor h = Fin kq.
Proof.
  intros Hh. split.
  - assert (k_factor 1 = Fin tenth) as <- by (vm_compute; reflexivity).
    apply k_factor_mono. lia.
  - destruct (k_factor_bounds h ltac:(lia)) as (kq & Hk & _). eauto.
Qed.

(** X17.  The factor [k_factor] that a Destructible obstacle of health
    [h] adds to the unit step cost is the product, rounded to binary32, of
    the number of ticks [std::ceil(h / 10.0f)] and [0.1f]; for
    [|h| <= 2^24] the number of ticks is [ceil(h / 10)], that is
    [(h + 9) div 10].  The factor never decreases when the health grows,
    it is 0 for a health in -9..0, and at least [0.1f] for a positive
    health.  At health 16777221, which [float] rounds to 16777220, the
    code counts 1677722 ticks, one fewer than [ceil(h / 10)]. *)
Theorem k_factor_ticks (h : Z) :
  (Z.abs h ≤ 2 ^ 24 →
   ticks h = Fin (inject_Z ((h + 9) `div` 10)) ∧
   k_factor h = round32 (inject_Z ((h + 9) `div` 10) * tenth)) ∧
  fle (k_factor h) (k_factor (h + 1)) ∧
  (-10 < h ≤ 0 → k_factor h = Fin 0) ∧
  (0 < h → fle (Fin tenth) (k_factor h) ∧ ∃ kq, k_factor h = Fin kq) ∧
  round32 (1 # 10) = Fin tenth ∧
  ticks 16777221 = Fin 1677722 ∧ (16777221 + 9) `div` 10 = 1677723.
Proof.
  split; [|split; [|split; [|split; [|split; [|split]]]]].
  - intros Hh. split; [by apply ticks_div|].
    unfold k_factor. by rewrite (ticks_div h Hh), round32_tenth.
  - apply k_factor_mono. lia.
  - intros Hh. unfold k_factor. rewrite ticks_div by lia.
    assert ((h + 9) `div` 10 = 0) as -> by (apply Z.div_small; lia).
    by vm_compute.
  - apply k_factor_positive.
  - apply round32_tenth.
  - by vm_compute.
  - done.
Qed.

Lemma heuristic_small (a b : GridPos) :
  manhattan a b ≤ 2 ^ 24 → heuristic a b = Fin (inject_Z (manhattan a b)).
Proof.
  intros H. unfold heuristic. fold (manhattan a b). apply of_int_small.
  unfold manhattan in *. lia.
Qed.

(** X18.  The heuristic is the Manhattan distance converted to [float]:
    it is symmetric, zero exactly between a cell and itself, and obeys the
    triangle inequality as long as the two distances add up to at most
    [2^24]; beyond, the conversion rounds and the inequality can fail, as
    it does between (0, 0), (16777217, 0) and (16777218, 0). *)
Theorem heuristic_metric (a b c : GridPos) :
  heuristic a b = heuristic b a ∧
  (heuristic a b = Fin 0 ↔ a = b) ∧
  (manhattan a b + manhattan b c ≤ 2 ^ 24 →
   fle (heuristic a c) (fadd (heuristic a b) (heuristic b c))) ∧
  flt (fadd (heuristic (0, 0) (16777217, 0)) (heuristic (16777217, 0) (16777218, 0)))
      (heuristic (0, 0) (16777218, 0)) = true.
Proof.
  split; [|split; [|split]].
  - unfold heuristic. f_equal. lia.
  - split.
    + intros H0.
      assert (manhattan a b = 0) as Hm.
      { destruct (decide (manhattan a b = 0)) as [|Hne]; [done|]. exfalso.
        assert (0 ≤ manhattan a b) by (unfold manhattan; lia).
        unfold heuristic in H0. fold (manhattan a b) in H0.
        destruct (of_int_finite (manhattan a b)) as (r & Hr & _ & _ & Hc).
        destruct (Hc 1 ltac:(lia)) as [Hlow _]. specialize (Hlow ltac:(lia)).
        rewrite Hr in H0. injection H0 as ->. change (inject_Z 1) with 1%Q in Hlow. lra. }
      destruct a as [x y], b as [x' y']. unfold manhattan in Hm. simpl in Hm. f_equal; lia.
    + intros ->. rewrite heuristic_small; unfold manhattan; rewrite !Z.sub_diag; [done|].
      simpl. lia.
  - intros Hsum.
    assert (0 ≤ manhattan a b ∧ 0 ≤ manhattan b c ∧ manhattan a c ≤ manhattan a b + manhattan b c)
      as (H1 & H2 & H3) by (unfold manhattan; lia).
    rewrite !heuristic_small by lia. cbn [fadd].
    rewrite <- inject_Z_plus, round32_int by lia. apply fle_Fin. by rewrite <- Zle_Qle.
  - by vm_compute.
Qed.

(** ** Graphs of [build_graph] under the live obstacle map *)

Lemma build_graph_listed_cost g obs a b :
  b ∈ neighbors (build_graph g obs) a →
  cost (build_graph g obs) a b = Fin 1 ∨ cost (build_graph g obs) a b = Fin 10.
Proof.
  intros Hab.
  assert (is_Some (weights (build_graph g obs) !! edge_key a b)) as [w Hw].
  { apply weights_build_present. right.
    rewrite neighbors_build_graph in Hab. case_decide as Hin; [|by apply elem_of_nil in Hab].
    apply list_elem_of_fmap in Hab as (e & -> & He). eauto. }
  unfold cost. rewrite Hw.
  apply build_graph_weight_sound in Hw as (a' & b' & _ & _ & ->).
  unfold expected_weight. destruct (has_type obs b' "Destructible"); auto.
Qed.

Lemma build_graph_live_ok g obs0 obs :
  (∀ p ob, obs !! p = Some ob → type ob = "Destructible"%string → -10 < health ob) →
  live_ok (build_graph g obs0) obs.
Proof.
  intros Hh. split; [done|]. intros k w Hw.
  apply build_graph_weight_sound in Hw as (a' & b' & _ & _ & ->).
  unfold expected_weight. destruct (has_type obs0 b' "Destructible"); lra.
Qed.

Lemma build_graph_step_cost g obs0 obs u v :
  (∀ p ob, obs !! p = Some ob → type ob = "Destructible"%string → -10 < health ob) →
  traversable (build_graph g obs0) obs u v →
  manhattan u v = 1 ∧ ∃ w, step_cost (build_graph g obs0) obs u v = Fin w ∧ (1 <= w)%Q.
Proof.
  intros Hh [Hn Hi]. split.
  { apply build_graph_neighbors in Hn as (_ & _ & (d & Hd & ->) & _).
    unfold dirs in Hd. rewrite !elem_of_cons, elem_of_nil in Hd. unfold manhattan, step.
    destruct Hd as [->|[->|[->|[->|[]]]]]; simpl; lia. }
  unfold step_cost.
  assert (∃ w, cost (build_graph g obs0) u v = Fin w ∧ (1 <= w)%Q) as Hstatic.
  { destruct (build_graph_listed_cost g obs0 u v Hn) as [-> | ->]; eexists; split; try done. }
  destruct (obs !! v) as [ob|] eqn:Hob; [|done].
  destruct (String.eqb (type ob) "Destructible") eqn:Ht; [|done].
  apply String.eqb_eq in Ht.
  destruct (k_factor_bounds (health ob) (Hh v ob Hob Ht)) as (kq & -> & _ & Hk0 & Hk1).
  cbn [fadd]. change (inject_Z (2 ^ 28)) with (268435456 # 1)%Q in Hk1.
  destruct (round32_between 1 (inject_Z (2 ^ 29)) (1 + kq)) as (r & -> & _ & [Hr _] & _).
  - by apply (is_float_int 1).
  - by apply is_float_pow2.
  - change (inject_Z (2 ^ 29)) with (536870912 # 1)%Q. lra.
  - eauto.
Qed.

Lemma build_graph_costs_ok g obs0 obs :
  (∀ p ob, obs !! p = Some ob → type ob = "Destructible"%string → -10 < health ob) →
  costs_ok (build_graph g obs0) obs.
Proof.
  intros Hh u v Huv. destruct (build_graph_step_cost g obs0 obs u v Hh Huv) as (_ & w & Hw & Hle).
  exists w. split; [done|]. split; [lra|]. intros _. lra.
Qed.

(** X19.  On a graph made by [build_graph] (from any obstacle map), with
    a live obstacle map whose Destructible obstacles all have a health
    above -10, every step the search follows costs at least 1, the
    Manhattan distance between its ends: the heuristic is consistent. *)
Theorem build_graph_consistent (g : Z) (obs0 obs : gmap GridPos Obstacle) :
  (∀ p ob, obs !! p = Some ob → type ob = "Destructible"%string → -10 < health ob) →
  ∀ u v, traversable (build_graph g obs0) obs u v →
    manhattan u v = 1 ∧
    ∃ w, step_cost (build_graph g obs0) obs u v = Fin w ∧ (1 <= w)%Q.
Proof. intros Hh u v Huv. by apply build_graph_step_cost. Qed.

(** ** The search on the grid of the game *)

(** X20.  Build, search, reconstruct: on the graph of [build_graph], with
    a live obstacle map whose Destructible obstacles have a health above
    -10, [a_star_search] terminates, and when it records the goal
    [reconstruct_path] returns a path from [start] to [goal] that steps
    between neighbouring cells, enters no Indestructible obstacle and
    visits no cell twice, and whose cost, accumulated in binary32
    arithmetic as the search does, is at most the cost recorded for the
    goal. *)
Theorem a_star_search_on_grid `{PQ : PriorityQueue} (g : Z)
    (obs0 obs : gmap GridPos Obstacle) (start goal : GridPos) :
  (∀ p ob, obs !! p = Some ob → type ob = "Destructible"%string → -10 < health ob) →
  ∃ fuel cf cs,
    (∀ fuel', (fuel ≤ fuel')%nat →
       a_star_search (build_graph g obs0) start goal obs fuel' = Some (cf, cs)) ∧
    (is_Some (cf !! goal) →
     ∃ path cg,
       reconstruct_path (S (size cf)) cf start goal = Returns path ∧
       path_between (build_graph g obs0) obs start path goal ∧ NoDup path ∧
       cs !! goal = Some cg ∧
       fle (walk_cost (build_graph g obs0) obs (Fin 0) path) cg).
Proof.
  intros Hh. pose proof (build_graph_live_ok g obs0 obs Hh) as Hok.
  destruct (a_star_search_total (build_graph g obs0) start goal obs) as (fuel & cf & cs & Hall).
  exists fuel, cf, cs. split; [done|]. intros Hg.
  specialize (Hall fuel ltac:(lia)).
  destruct (a_star_search_cost_inv _ _ goal _ _ _ _ Hok Hall) as (fr & Hinv).
  destruct (reconstruct_path_cost_inv _ _ _ _ goal Hok Hinv Hg)
    as (path & cg & Hpath & Hpb & Hnd & Hcg & Hw & _). simpl in *.
  exists path, cg. done.
Qed.

(** The scenario of the specification: a 6 x 6 grid with a wall of
    Indestructible obstacles on row 3, broken at (3, 3) by a Destructible
    obstacle of health 5. *)
Definition scenario_obstacles : gmap GridPos Obstacle :=
  list_to_map
    [ ((0, 3), new_Obstacle 0 3 "Indestructible" 0);
      ((1, 3), new_Obstacle 1 3 "Indestructible" 0);
      ((2, 3), new_Obstacle 2 3 "Indestructible" 0);
      ((3, 3), new_Obstacle 3 3 "Destructible" 5);
      ((4, 3), new_Obstacle 4 3 "Indestructible" 0);
      ((5, 3), new_Obstacle 5 3 "Indestructible" 0) ].

Definition scenario_graph : Graph := build_graph 6 scenario_obstacles.

Lemma map_lookup_forallb {A} (m : gmap GridPos A) (f : A → bool) :
  forallb (λ kv, f kv.2) (map_to_list m) = true → ∀ p a, m !! p = Some a → f a = true.
Proof.
  intros H p a Hp. apply elem_of_map_to_list in Hp.
  rewrite forallb_forall in H. apply (H (p, a)). by apply list_elem_of_In.
Qed.

Lemma scenario_healthy p ob :
  scenario_obstacles !! p = Some ob → type ob = "Destructible"%string → -10 < health ob.
Proof.
  intros Hp _.
  apply (map_lookup_forallb scenario_obstacles (λ ob, bool_decide (-10 < health ob))) in Hp.
  - by apply bool_decide_eq_true in Hp.
  - by vm_compute.
Qed.

Abbreviation scenario_search :=
  (a_star_search (PQ := list_pq) scenario_graph (3, 0) (3, 5) scenario_obstacles 100).

Definition records_cell {A} (o : option (gmap GridPos GridPos * A)) (p : GridPos) : bool :=
  match o with Some (cf, _) => bool_decide (is_Some (cf !! p)) | None => false end.

Lemma records_cell_true {A} (o : option (gmap GridPos GridPos * A)) p :
  records_cell o p = true → ∃ cf cs, o = Some (cf, cs) ∧ is_Some (cf !! p).
Proof.
  destruct o as [[cf cs]|]; [|done]. simpl. intros H%bool_decide_eq_true. eauto.
Qed.

Lemma scenario_search_records_goal :
  ∃ cf cs, scenario_search = Some (cf, cs) ∧ is_Some (cf !! (3, 5)).
Proof. apply records_cell_true. by vm_compute. Qed.

Lemma scenario_live_ok : live_ok scenario_graph scenario_obstacles.
Proof. apply build_graph_live_ok, scenario_healthy. Qed.

Lemma a_star_search_on_grid_witness :
  ∃ fuel cf cs,
    (∀ fuel', (fuel ≤ fuel')%nat →
       a_star_search (PQ := list_pq) (build_graph 6 scenario_obstacles) (3, 0) (3, 5)
                     scenario_obstacles fuel' = Some (cf, cs)) ∧
    (is_Some (cf !! (3, 5)) →
     ∃ path cg,
       reconstruct_path (S (size cf)) cf (3, 0) (3, 5) = Returns path ∧
       path_between (build_graph 6 scenario_obstacles) scenario_obstacles (3, 0) path (3, 5) ∧
       NoDup path ∧ cs !! (3, 5) = Some cg ∧
       fle (walk_cost (build_graph 6 scenario_obstacles) scenario_obstacles (Fin 0) path) cg).
Proof.
  apply (a_star_search_on_grid (PQ := list_pq) 6 scenario_obstacles scenario_obstacles
           (3, 0) (3, 5)).
  apply scenario_healthy.
Defined.

Lemma build_graph_consistent_witness :
  manhattan (3, 2) (3, 3) = 1 ∧
  ∃ w, step_cost (build_graph 6 scenario_obstacles) scenario_obstacles (3, 2) (3, 3) = Fin w ∧
       (1 <= w)%Q.
Proof.
  apply (build_graph_consistent 6 scenario_obstacles scenario_obstacles scenario_healthy).
  split; [|reflexivity]. apply build_graph_neighbors.
  unfold edge_expected, in_grid. simpl. repeat split; try lia.
  exists (0, 1). split; [|done]. unfold dirs. rewrite !elem_of_cons. tauto.
Defined.

Lemma a_star_search_costs_witness :
  ∃ cf cs,
    scenario_search = Some (cf, cs) ∧
    cf !! (3, 0) = Some (3, 0) ∧ cs !! (3, 0) = Some (Fin 0) ∧
    (∀ v c, cs !! v = Some c → nonneg_val c) ∧
    (∀ v u, cf !! v = Some u → v ≠ (3, 0) →
       ∃ cu cv c, cs !! u = Some cu ∧ cs !! v = Some cv ∧
                  fle cu c ∧ cv = candidate_cost scenario_graph scenario_obstacles c u v ∧
                  fle cu cv).
Proof.
  destruct scenario_search_records_goal as (cf & cs & Hrun & _).
  exists cf, cs. split; [done|].
  exact (a_star_search_costs (PQ := list_pq) scenario_graph (3, 0) (3, 5) scenario_obstacles
           100 cf cs scenario_live_ok Hrun).
Defined.

Lemma reconstruct_path_returns_witness :
  ∃ cf cs,
    scenario_search = Some (cf, cs) ∧
    ∃ path ct,
      reconstruct_path (S (size cf)) cf (3, 0) (3, 5) = Returns path ∧
      path_between scenario_graph scenario_obstacles (3, 0) path (3, 5) ∧ NoDup path ∧
      cs !! (3, 5) = Some ct ∧
      fle (walk_cost scenario_graph scenario_obstacles (Fin 0) path) ct ∧
      ∀ l1 a b l2, path = l1 ++ a :: b :: l2 →
        ∃ ca cb, cs !! a = Some ca ∧ cs !! b = Some cb ∧ fle ca cb.
Proof.
  destruct scenario_search_records_goal as (cf & cs & Hrun & Hg).
  exists cf, cs. split; [done|].
  exact (reconstruct_path_returns (PQ := list_pq) scenario_graph (3, 0) (3, 5)
           scenario_obstacles 100 cf cs (3, 5) scenario_live_ok Hrun Hg).
Defined.

Lemma a_star_search_terminates_witness :
  ∃ fuel cf cs, ∀ fuel', (fuel ≤ fuel')%nat →
    a_star_search (PQ := list_pq) scenario_graph (3, 0) (3, 5) scenario_obstacles fuel'
      = Some (cf, cs).
Proof.
  exact (a_star_search_terminates (PQ := list_pq) scenario_graph (3, 0) (3, 5)
           scenario_obstacles (build_graph_costs_ok _ _ _ scenario_healthy)).
Defined.

Lemma a_star_search_records_witness :
  ∃ cf cs,
    scenario_search = Some (cf, cs) ∧
    dom cf = dom cs ∧ (3, 0) ∈ dom cf ∧
    (∀ v, v ∈ dom cf → rtc (traversable scenario_graph scenario_obstacles) (3, 0) v) ∧
    (∀ v u, cf !! v = Some u →
            (v = (3, 0) ∧ u = (3, 0)) ∨
            (traversable scenario_graph scenario_obstacles u v ∧ u ∈ dom cf)).
Proof.
  destruct scenario_search_records_goal as (cf & cs & Hrun & _).
  exists cf, cs. split; [done|].
  exact (a_star_search_records (PQ := list_pq) scenario_graph (3, 0) (3, 5)
           scenario_obstacles 100 cf cs Hrun).
Defined.

Lemma reconstruct_path_on_search_witness :
  ∃ cf cs,
    scenario_search = Some (cf, cs) ∧
    (∀ e, reconstruct_path 50 cf (3, 0) (3, 5) ≠ Throws e) ∧
    (∀ path, is_Some (cf !! (3, 5)) → reconstruct_path 50 cf (3, 0) (3, 5) = Returns path →
       head path = Some (3, 0) ∧ last path = Some (3, 5) ∧
       ∀ l1 a b l2, path = l1 ++ a :: b :: l2 →
                    traversable scenario_graph scenario_obstacles a b).
Proof.
  destruct scenario_search_records_goal as (cf & cs & Hrun & _).
  exists cf, cs. split; [done|].
  exact (reconstruct_path_on_search (PQ := list_pq) scenario_graph (3, 0) (3, 5)
           scenario_obstacles 100 50 cf cs Hrun).
Defined.

Abbreviation walled_search :=
  (a_star_search (PQ := list_pq) (build_graph 3 walled_obstacles) (2, 2) (1, 0)
                 walled_obstacles 10).

Lemma walled_search_records_start :
  ∃ cf cs, walled_search = Some (cf, cs) ∧ is_Some (cf !! (2, 2)).
Proof. apply records_cell_true. by vm_compute. Qed.

Lemma walled_unreachable :
  ¬ rtc (traversable (build_graph 3 walled_obstacles) walled_obstacles) (2, 2) (1, 0).
Proof.
  intros [H|(u & _ & [_ H])]%rtc_inv_r; discriminate H.
Qed.

Lemma a_star_search_unreachable_witness :
  ∃ cf cs,
    walled_search = Some (cf, cs) ∧
    cf !! (1, 0) = None ∧ reconstruct_path 0 cf (2, 2) (1, 0) = Returns [(2, 2)].
Proof.
  destruct walled_search_records_start as (cf & cs & Hrun & _).
  exists cf, cs. split; [done|].
  exact (a_star_search_unreachable (PQ := list_pq) (build_graph 3 walled_obstacles)
           (2, 2) (1, 0) walled_obstacles 10 0 cf cs walled_unreachable Hrun).
Defined.

Lemma reconstruct_path_follows_witness :
  let cf : gmap GridPos GridPos := {[ (0, 0) := (0, 0); (0, 1) := (0, 0); (1, 1) := (0, 1) ]} in
  head [(0, 0); (0, 1); (1, 1)] = Some (0, 0) ∧
  last [(0, 0); (0, 1); (1, 1)] = Some (1, 1) ∧
  ∀ l1 a b l2, [(0, 0); (0, 1); (1, 1)] = l1 ++ a :: b :: l2 →
               cf !! b = Some a ∧ b ≠ (0, 0).
Proof.
  intros cf.
  apply (reconstruct_path_follows 5 cf (0, 0) (1, 1) [(0, 0); (0, 1); (1, 1)]).
  - exists (0, 1). reflexivity.
  - vm_compute. reflexivity.
Defined.

(** ** Retry loop and counts of [generate_game_entities] *)

Lemma resize_length l n l' : resize l n = Returns l' → length l' = Z.to_nat n.
Proof.
  intros [Hn ->]%resize_Returns. rewrite length_take, length_app, length_replicate. lia.
Qed.

Lemma resize_elem l n l' p : resize l n = Returns l' → p ∈ l' → p ∈ l ∨ p = (0, 0).
Proof.
  intros [Hn ->]%resize_Returns Hp. apply elem_of_take in Hp as (k & Hp & _).
  apply list_elem_of_lookup_2 in Hp. apply elem_of_app in Hp as [?|Hp]; [by left|].
  right. by apply elem_of_replicate in Hp as [? _].
Qed.

Lemma resize_nonneg l n : 0 ≤ n → ∃ l', resize l n = Returns l'.
Proof. intros. unfold resize. rewrite bool_decide_eq_false_2 by lia. eauto. Qed.

Section GenerationEdges.
Context `{RS : RandomSource}.

(** On a grid of at most 3 x 3 cells no two cells are 5 apart: every
    batch with an enemy is rejected. *)
Lemma pick_valid_positions_small fuel g count s :
  g ≤ 3 → 1 ≤ count → pick_valid_positions fuel (all_positions g) 5 count s = Diverges.
Proof.
  intros Hg Hc. revert s. induction fuel as [|fuel IH]; intros s; [done|]. simpl.
  destruct (shuffle (all_positions g) s) as [picks s1] eqn:E.
  assert (picks ≡ₚ all_positions g) as Hp.
  { pose proof (shuffle_perm (all_positions g) s) as H. by rewrite E in H. }
  destruct (resize_nonneg picks (count + 1) ltac:(lia)) as [l R]. rewrite R. simpl.
  assert (∀ p, p ∈ l → 0 ≤ p.1 ≤ 2 ∧ 0 ≤ p.2 ≤ 2) as Hin.
  { intros [x y] Hxy. destruct (resize_elem _ _ _ _ R Hxy) as [H|[= -> ->]]; [|simpl; lia].
    rewrite Hp in H. apply elem_of_all_positions in H. simpl. lia. }
  apply resize_length in R.
  destruct l as [|p [|e es]]; simpl in R; [lia|lia|].
  assert (manhattan p e < 5) as Hd.
  { pose proof (Hin p ltac:(by left)). pose proof (Hin e ltac:(right; by left)).
    unfold manhattan. lia. }
  simpl. rewrite (bool_decide_eq_true_2 _ Hd). simpl. apply IH.
Qed.

Lemma pick_valid_positions_safe fuel all md count s :
  0 ≤ count →
  pick_valid_positions fuel all md count s = Diverges ∨
  ∃ r, pick_valid_positions fuel all md count s = Returns r.
Proof.
  intros Hc. revert s. induction fuel as [|fuel IH]; intros s; [by left|]. simpl.
  destruct (shuffle all s) as [picks s1].
  destruct (resize_nonneg picks (count + 1) ltac:(lia)) as [l R]. rewrite R. simpl.
  apply resize_length in R. destruct l as [|p es]; [simpl in R; lia|].
  destruct (forallb _ es); [right; eauto|apply IH].
Qed.
End GenerationEdges.

(** X21.  On a grid of at most 3 x 3 cells (also an empty one) with at
    least one enemy, [generate_game_entities] never returns: no two cells
    are at Manhattan distance 5, so [pick_valid_positions] rejects every
    batch, whatever the shuffles and however long it runs. *)
Theorem generate_small_grid_diverges `{RS : RandomSource} (fuel : nat)
    (g oc ic ec hp : Z) (s : rng_state) :
  g ≤ 3 → 1 ≤ ec → generate_game_entities fuel g oc ic ec hp s = Diverges.
Proof.
  intros Hg Hec. unfold generate_game_entities.
  by rewrite pick_valid_positions_small.
Qed.

(** X22.  A negative enemy count makes the first attempt fail:
    [picks.resize(count + 1)] throws [std::length_error] when
    [count + 1] is negative, and for [count = -1] the vector is emptied
    and [picks[0]] reads out of bounds. *)
Theorem generate_negative_enemy_count `{RS : RandomSource} (fuel : nat)
    (g oc ic ec hp : Z) (s : rng_state) :
  ec < 0 →
  generate_game_entities (S fuel) g oc ic ec hp s
    = if decide (ec = -1) then Undefined else Throws length_error.
Proof.
  intros Hec. unfold generate_game_entities. simpl.
  destruct (shuffle (all_positions g) s) as [picks s1].
  case_decide as H1.
  - subst ec. done.
  - rewrite resize_negative by lia. done.
Qed.

(** ** Layouts with room for every entity *)

Lemma size_union_le (X Y : gset GridPos) : (size (X ∪ Y) ≤ size X + size Y)%nat.
Proof.
  rewrite size_union_alt.
  assert (size (Y ∖ X) ≤ size Y)%nat; [|lia].
  apply subseteq_size. intros p Hp. by apply elem_of_difference in Hp as [? _].
Qed.

Lemma size_list_to_set_le (l : list GridPos) :
  (size (list_to_set l : gset GridPos) ≤ length l)%nat.
Proof.
  induction l as [|p l IH]; [by rewrite list_to_set_nil, size_empty|].
  rewrite list_to_set_cons. etrans; [apply size_union_le|]. rewrite size_singleton.
  simpl. lia.
Qed.

Lemma size_corners g : (size (corners g) ≤ 4)%nat.
Proof.
  unfold corners.
  pose proof (size_union_le ({[(0, 0)]} ∪ {[(0, g - 1)]} ∪ {[(g - 1, 0)]})
                {[(g - 1, g - 1)]}) as H1.
  pose proof (size_union_le ({[(0, 0)]} ∪ {[(0, g - 1)]}) {[(g - 1, 0)]}) as H2.
  pose proof (size_union_le {[(0, 0)]} {[(0, g - 1)]}) as H3.
  rewrite size_singleton in H1, H2. rewrite !size_singleton in H3. lia.
Qed.

Lemma length_filter_not_elem (X : gset GridPos) (l : list GridPos) :
  NoDup l → (length l ≤ length (filter (λ p, p ∉ X) l) + size X)%nat.
Proof.
  intros Hnd.
  pose proof (filter_app_complement (λ p, p ∉ X) l) as Hperm.
  apply Permutation_length in Hperm. rewrite length_app in Hperm.
  assert (length (filter (λ p : GridPos, ¬ (p ∉ X)) l) ≤ size X)%nat; [|lia].
  rewrite <- (size_list_to_set (C := gset GridPos)) by (by apply NoDup_filter).
  apply subseteq_size. intros p Hp.
  apply elem_of_list_to_set, list_elem_of_filter in Hp as [Hp _]. by apply dec_stable.
Qed.

Lemma length_bind_const {A B} (f : A → list B) (l : list A) (k : nat) :
  (∀ x, length (f x) = k) → length (l ≫= f) = (length l * k)%nat.
Proof.
  intros Hf. induction l as [|x l IH]; [done|].
  change ((x :: l) ≫= f) with (f x ++ (l ≫= f)). rewrite length_app, Hf, IH. simpl. lia.
Qed.

Lemma length_all_positions g : length (all_positions g) = (Z.to_nat g * Z.to_nat g)%nat.
Proof.
  unfold all_positions. rewrite (length_bind_const _ _ (Z.to_nat g)).
  - by rewrite length_seqZ.
  - intros x. rewrite (length_bind_const _ _ 1%nat); [rewrite length_seqZ; lia|done].
Qed.

(** The cells off the outermost ring. *)
Definition interior (g : Z) : list GridPos :=
  (λ p : GridPos, (p.1 + 1, p.2 + 1)) <$> all_positions (g - 2).

Lemma interior_NoDup g : NoDup (interior g).
Proof.
  apply NoDup_fmap_2; [|apply NoDup_all_positions].
  intros [x y] [x' y'] [= ? ?]. f_equal; lia.
Qed.

Lemma elem_of_interior g p :
  p ∈ interior g → p ∈ all_positions g ∧ is_not_edge p g = true ∧ p ∉ corners g.
Proof.
  intros ([x y] & -> & Hxy%elem_of_all_positions)%list_elem_of_fmap. simpl.
  split; [apply elem_of_all_positions; lia|]. split.
  - unfold is_not_edge. simpl. rewrite !andb_true_iff, !bool_decide_eq_true. lia.
  - unfold corners. rewrite !elem_of_union, !elem_of_singleton.
    intros [[[[= ? ?]|[= ? ?]]|[= ? ?]]|[= ? ?]]; lia.
Qed.

(** Room for the goal off the ring, and for the requested obstacles and
    items on the cells that stay free. *)
Definition has_room (g oc ic ec : Z) : Prop :=
  3 ≤ g ≤ 46340 ∧ 0 ≤ ec ∧ ec + 2 ≤ (g - 2) * (g - 2) ∧
  Z.max oc 1 + Z.max ic 1 + ec + 5 ≤ g * g.

Section GenerationRoom.
Context `{RS : RandomSource}.

Lemma generate_room_counts fuel g oc ic ec hp s :
  has_room g oc ic ec →
  generate_game_entities fuel g oc ic ec hp s = Diverges ∨
  ∃ obs items player enemies mains s',
    generate_game_entities fuel g oc ic ec hp s
      = Returns (obs, items, player, enemies, mains, s') ∧
    Z.of_nat (size obs) = Z.max oc 1 ∧ Z.of_nat (length items) = Z.max ic 1 ∧
    Z.of_nat (length enemies) = ec.
Proof.
  intros (Hg & Hec & Hint & Hroom). unfold generate_game_entities.
  destruct (pick_valid_positions_safe fuel (all_positions g) 5 ec s Hec)
    as [->|[[[pl en] s1] Hpick]]; [by left|].
  right. rewrite Hpick. simpl.
  apply pick_valid_positions_inv in Hpick as (s0 & Hres & Hdist).
  assert (Z.of_nat (length en) = ec) as Hlen.
  { apply resize_length in Hres. simpl in Hres. lia. }
  assert (Z.of_nat (length (all_positions g)) = g * g) as Hall.
  { rewrite length_all_positions. lia. }
  fold (corners g).
  set (forb1 := corners g ∪ {[pl]} ∪ list_to_set en).
  assert (size forb1 ≤ 5 + length en)%nat as Hf1.
  { unfold forb1. etrans; [apply size_union_le|]. pose proof (size_list_to_set_le en).
    assert (size (corners g ∪ {[pl]}) ≤ 5)%nat; [|lia].
    etrans; [apply size_union_le|]. rewrite size_singleton. pose proof (size_corners g). lia. }
  set (cands := filter _ (all_positions g)).
  assert (cands ≠ []) as Hne.
  { pose proof (length_filter_not_elem ({[pl]} ∪ list_to_set en) (interior g)
                  (interior_NoDup g)) as Hle.
    assert (size ({[pl]} ∪ list_to_set en : gset GridPos) ≤ 1 + length en)%nat as Hsz.
    { etrans; [apply size_union_le|]. rewrite size_singleton.
      pose proof (size_list_to_set_le en). lia. }
    assert (Z.of_nat (length (interior g)) = (g - 2) * (g - 2)) as Hil.
    { unfold interior. rewrite length_fmap, length_all_positions. lia. }
    destruct (filter (λ p, p ∉ ({[pl]} ∪ list_to_set en : gset GridPos)) (interior g))
      as [|p l] eqn:E; [simpl in Hle; lia|].
    assert (p ∈ filter (λ p, p ∉ ({[pl]} ∪ list_to_set en : gset GridPos)) (interior g))
      as Hp by (rewrite E; by left).
    apply list_elem_of_filter in Hp as [Hp (Hpa & Hpe & Hpc)%elem_of_interior].
    assert (p ∈ cands) as Hpin.
    { apply list_elem_of_filter. split; [|done]. split; [|done].
      unfold forb1. rewrite <- (assoc_L (∪)). apply not_elem_of_union. done. }
    intros Hnil. rewrite Hnil in Hpin. by apply elem_of_nil in Hpin. }
  rewrite bool_decide_eq_false_2 by done.
  pose proof (rand_int_range 0 (Z.of_nat (length cands) - 1) s1) as Hri.
  destruct (rand_int 0 _ s1) as [i s2]. simpl in Hri.
  assert (0 < length cands)%nat as Hcl by (destruct cands; [done|simpl; lia]).
  specialize (Hri ltac:(lia)).
  destruct (lookup_lt_is_Some_2 cands (Z.to_nat i) ltac:(lia)) as [goal Hgoal].
  rewrite Hgoal.
  set (forb2 := forb1 ∪ {[goal]}).
  assert (size forb2 ≤ 6 + length en)%nat as Hf2.
  { unfold forb2. etrans; [apply size_union_le|]. rewrite size_singleton. lia. }
  set (restc := filter _ (all_positions g)).
  pose proof (length_filter_not_elem forb2 (all_positions g) (NoDup_all_positions g)) as Hrl.
  fold restc in Hrl.
  set (rc := if bool_decide (_ > Z.of_nat (length restc)) then _ else _).
  assert (rc = Z.max oc 1 - 1) as Hrc by (unfold rc; repeat case_bool_decide; lia).
  destruct (shuffle restc s2) as [rest0 s3] eqn:Hsh1.
  assert (rest0 ≡ₚ restc) as Hp1.
  { pose proof (shuffle_perm restc s2) as Hp. by rewrite Hsh1 in Hp. }
  destruct (resize_nonneg rest0 rc ltac:(lia)) as [rest Hrest]. rewrite Hrest. simpl.
  pose proof (resize_length _ _ _ Hrest) as Hrestl.
  apply resize_fits in Hrest; [|rewrite Hp1; lia].
  rewrite static_cast_int_defined; cycle 1.
  { unfold DESTRUCTIBLE_RATIO. apply Qmult_le_0_compat; [|done].
    change 0%Q with (inject_Z 0). rewrite <- Zle_Qle. lia. }
  { transitivity (Qfloor (inject_Z rc)).
    - apply Qfloor_resp_le. unfold DESTRUCTIBLE_RATIO.
      assert (0 <= inject_Z rc)%Q by (change 0%Q with (inject_Z 0); rewrite <- Zle_Qle; lia).
      lra.
    - rewrite Qfloor_Z. unfold INT_MAX. nia. }
  set (dc := Qfloor _).
  set (forb3 := forb2 ∪ list_to_set rest).
  assert (size forb3 ≤ 6 + length en + length rest)%nat as Hf3.
  { unfold forb3. etrans; [apply size_union_le|]. pose proof (size_list_to_set_le rest). lia. }
  set (itemc := filter _ (all_positions g)).
  pose proof (length_filter_not_elem forb3 (all_positions g) (NoDup_all_positions g)) as Hil.
  fold itemc in Hil.
  set (icn := if bool_decide (_ > Z.of_nat (length itemc)) then _ else _).
  assert (icn = Z.max ic 1) as Hicn by (unfold icn; repeat case_bool_decide; lia).
  destruct (shuffle itemc s3) as [item0 s4] eqn:Hsh2.
  destruct (resize_nonneg item0 (icn - 1) ltac:(lia)) as [its Hits]. rewrite Hits. simpl.
  apply resize_length in Hits.
  eexists _, _, _, _, _, _. split; [done|].
  split; [|split; [|done]].
  - rewrite <- size_dom, generated_obstacles_dom.
    assert (goal ∈ cands) as Hgin by (by eapply list_elem_of_lookup_2).
    rewrite size_union.
    + rewrite size_singleton, size_list_to_set; [lia|].
      rewrite Hrest. eapply sublist_NoDup; [|apply sublist_take].
      rewrite Hp1. apply NoDup_filter, NoDup_all_positions.
    + intros p Hp%elem_of_singleton Hpr%elem_of_list_to_set. subst p.
      rewrite Hrest in Hpr. apply elem_of_take in Hpr as (k & Hpr & _).
      apply list_elem_of_lookup_2 in Hpr. rewrite Hp1 in Hpr.
      apply list_elem_of_filter in Hpr as [Hpr _]. apply Hpr.
      unfold forb2. apply elem_of_union. right. by apply elem_of_singleton.
  - rewrite length_app, length_map. simpl. lia.
Qed.
End GenerationRoom.

(** X23.  When the grid has room ([has_room]: an interior cell is left
    for the goal, and the requested obstacles and items fit on the free
    cells), [generate_game_entities] neither throws nor reads out of
    bounds: it keeps retrying or it returns, and what it returns has
    exactly [max(obstacle_count, 1)] obstacles, [max(item_count, 1)] items
    and [enemy_count] enemies. *)
Theorem generate_with_room `{RS : RandomSource} (fuel : nat) (g oc ic ec hp : Z)
    (s : rng_state) :
  has_room g oc ic ec →
  generate_game_entities fuel g oc ic ec hp s = Diverges ∨
  ∃ obs items player enemies mains s',
    generate_game_entities fuel g oc ic ec hp s
      = Returns (obs, items, player, enemies, mains, s') ∧
    Z.of_nat (size obs) = Z.max oc 1 ∧ Z.of_nat (length items) = Z.max ic 1 ∧
    Z.of_nat (length enemies) = ec.
Proof. apply generate_room_counts. Qed.

(** ** Levels that have a configuration *)

Section LevelDomain.
Context `{RS : RandomSource}.

Lemma get_level_config_fields level s cfg s' :
  get_level_config level s = Returns (cfg, s') →
  0 ≤ level ≤ 106 ∧
  15 ≤ obstacle_count cfg ≤ 126 ∧ 3 ≤ item_count cfg ≤ 5 ∧ 1 ≤ enemy_count cfg ≤ 5 ∧
  10 ≤ block_hp cfg ∧ reward cfg ∈ CARD_POOL.
Proof.
  intros H.
  destruct (decide (107 ≤ level)) as [Hbig|Hsmall].
  { by rewrite get_level_config_overflow in H. }
  destruct (decide (2 ≤ level)) as [H2|H2].
  - destruct (get_level_config_formula level s ltac:(lia)) as (card & s1 & Heq).
    pose proof Heq as Hcard. rewrite H in Heq.
    assert (cfg = mkLevelConfig (20 + level) 5 (Z.min 5 (1 + level ÷ 3))
                    (Qfloor (block_hp_value level)) ["basic"; "strong"; "fire"]%string card)
      as -> by congruence.
    clear Heq. cbn [obstacle_count item_count enemy_count block_hp reward].
    split; [lia|]. split; [lia|]. split; [lia|]. split.
    { assert (0 ≤ level ÷ 3) by (apply Z.quot_pos; lia). lia. }
    split.
    { transitivity (Qfloor (block_hp_value 2)); [by vm_compute|].
      by apply Qfloor_resp_le, block_hp_value_mono. }
    unfold get_level_config in Hcard.
    rewrite bool_decide_eq_false_2 in Hcard by (simpl; lia).
    destruct (static_cast_int _); [|done].
    destruct (rand_int 0 _ s) as [i s2].
    destruct (CARD_POOL !! Z.to_nat i) as [c|] eqn:Hc; [|done].
    assert (c = card) as <- by congruence. by eapply list_elem_of_lookup_2.
  - unfold get_level_config in H. rewrite bool_decide_eq_true_2 in H by (simpl; lia).
    case_bool_decide as Hneg; [done|].
    assert (level = 0 ∨ level = 1) as [-> | ->] by lia; simpl in H; injection H as <- _; simpl;
      (split; [lia|]); repeat (split; [lia|]);
      unfold CARD_POOL; rewrite !elem_of_cons; auto.
Qed.

Lemma get_level_config_has_room level s cfg s' :
  get_level_config level s = Returns (cfg, s') →
  has_room GRID_SIZE (obstacle_count cfg) (item_count cfg) (enemy_count cfg).
Proof.
  intros (_ & ? & ? & ? & _)%get_level_config_fields.
  unfold has_room, GRID_SIZE. lia.
Qed.
End LevelDomain.

(** X24.  [get_level_config] yields a configuration exactly for the
    levels 0 to 106 (a negative level indexes [BASE_LEVELS] out of bounds,
    a level from 107 on overflows the conversion of the hit points), and
    every configuration it yields has 15 to 126 obstacles, 3 to 5 items,
    1 to 5 enemies, at least 10 hit points and a reward of [CARD_POOL]. *)
Theorem get_level_config_domain `{RS : RandomSource} (level : Z) (s : rng_state) :
  (returns (get_level_config level s) = true ↔ 0 ≤ level ≤ 106) ∧
  ∀ cfg s', get_level_config level s = Returns (cfg, s') →
    15 ≤ obstacle_count cfg ≤ 126 ∧ 3 ≤ item_count cfg ≤ 5 ∧ 1 ≤ enemy_count cfg ≤ 5 ∧
    10 ≤ block_hp cfg ∧ reward cfg ∈ CARD_POOL.
Proof.
  split.
  - split.
    + destruct (get_level_config level s) as [[cfg s']| | |] eqn:E; try done.
      intros _. by apply get_level_config_fields in E as [? _].
    + intros Hl. destruct (decide (2 ≤ level)) as [H2|H2].
      * by destruct (get_level_config_formula level s ltac:(lia)) as (card & s1 & ->).
      * assert (level = 0 ∨ level = 1) as [-> | ->] by lia; done.
  - intros cfg s' H. by apply get_level_config_fields in H as [_ ?].
Qed.

(** X25.  The call of [main_run_level]: for the configuration of any
    level, [generate_game_entities(GRID_SIZE, ...)] neither throws nor
    reads out of bounds; the layout it returns has exactly the configured
    numbers of obstacles, items and enemies. *)
Theorem main_run_level_layout `{RS : RandomSource} (level : Z) (s s1 s2 : rng_state)
    (cfg : LevelConfig) (fuel : nat) :
  get_level_config level s = Returns (cfg, s1) →
  generate_game_entities fuel GRID_SIZE (obstacle_count cfg) (item_count cfg)
      (enemy_count cfg) (block_hp cfg) s2 = Diverges ∨
  ∃ obs items player enemies mains s3,
    generate_game_entities fuel GRID_SIZE (obstacle_count cfg) (item_count cfg)
      (enemy_count cfg) (block_hp cfg) s2 = Returns (obs, items, player, enemies, mains, s3) ∧
    Z.of_nat (size obs) = obstacle_count cfg ∧ Z.of_nat (length items) = item_count cfg ∧
    Z.of_nat (length enemies) = enemy_count cfg.
Proof.
  intros H. pose proof (get_level_config_has_room _ _ _ _ H) as Hroom.
  apply get_level_config_fields in H as (_ & ? & ? & _).
  destruct (generate_room_counts fuel _ _ _ _ (block_hp cfg) s2 Hroom)
    as [?|(obs & items & player & enemies & mains & s3 & Heq & Ho & Hi & He)]; [by left|].
  right. exists obs, items, player, enemies, mains, s3.
  split; [done|]. split; [lia|]. split; [lia|done].
Qed.

Lemma generate_small_grid_diverges_witness :
  3 ≤ 3 ∧ 1 ≤ 2 ∧
  generate_game_entities (RS := script_rng) 50 3 4 2 2 40 [] = Diverges.
Proof.
  split; [lia|]. split; [lia|].
  apply (generate_small_grid_diverges (RS := script_rng) 50 3 4 2 2 40 []); lia.
Defined.

Lemma generate_negative_enemy_count_witness :
  generate_game_entities (RS := script_rng) 1 8 5 3 (-2) 40 [] = Throws length_error ∧
  generate_game_entities (RS := script_rng) 1 8 5 3 (-1) 40 [] = Undefined.
Proof.
  split.
  - apply (generate_negative_enemy_count (RS := script_rng) 0 8 5 3 (-2) 40 []). lia.
  - apply (generate_negative_enemy_count (RS := script_rng) 0 8 5 3 (-1) 40 []). lia.
Defined.

Lemma generate_with_room_witness :
  has_room 8 5 3 1 ∧
  ∃ obs items player enemies mains s',
    generate_game_entities (RS := script_rng) 1 8 5 3 1 40 [0; 62]%nat
      = Returns (obs, items, player, enemies, mains, s') ∧
    Z.of_nat (size obs) = 5 ∧ Z.of_nat (length items) = 3 ∧ Z.of_nat (length enemies) = 1.
Proof.
  assert (has_room 8 5 3 1) as Hroom by (unfold has_room; lia).
  split; [exact Hroom|].
  destruct (generate_with_room (RS := script_rng) 1 8 5 3 1 40 [0; 62]%nat Hroom)
    as [Hd|H]; [|exact H].
  exfalso. revert Hd.
  assert (returns (generate_game_entities (RS := script_rng) 1 8 5 3 1 40 [0; 62]%nat) = true)
    as Hr by (vm_compute; reflexivity).
  intros Hd. rewrite Hd in Hr. discriminate Hr.
Defined.

Lemma main_run_level_layout_witness :
  ∃ cfg s1,
    get_level_config (RS := script_rng) 0 [] = Returns (cfg, s1) ∧
    returns (generate_game_entities (RS := script_rng) 1 GRID_SIZE (obstacle_count cfg)
               (item_count cfg) (enemy_count cfg) (block_hp cfg) [40; 1200]%nat) = true ∧
    ∃ obs items player enemies mains s3,
      generate_game_entities (RS := script_rng) 1 GRID_SIZE (obstacle_count cfg)
        (item_count cfg) (enemy_count cfg) (block_hp cfg) [40; 1200]%nat
        = Returns (obs, items, player, enemies, mains, s3) ∧
      Z.of_nat (size obs) = obstacle_count cfg ∧ Z.of_nat (length items) = item_count cfg ∧
      Z.of_nat (length enemies) = enemy_count cfg.
Proof.
  exists (mkLevelConfig 15 3 1 10 ["basic"%string] "enemy_fast"), [].
  split; [reflexivity|].
  assert (returns (generate_game_entities (RS := script_rng) 1 GRID_SIZE 15 3 1 10
                     [40; 1200]%nat) = true) as Hr by (vm_compute; reflexivity).
  split; [exact Hr|].
  destruct (main_run_level_layout (RS := script_rng) 0 [] [] [40; 1200]%nat
              (mkLevelConfig 15 3 1 10 ["basic"%string] "enemy_fast") 1 eq_refl)
    as [Hd|H]; [|exact H].
  exfalso. cbn [obstacle_count item_count enemy_count block_hp] in Hd.
  rewrite Hd in Hr. discriminate Hr.
Defined.

(** * The game state during a level *)

(** ** Obstacles are stored under their own cell *)

Lemma grid_pos_new_Obstacle gx gy t hp : grid_pos (new_Obstacle gx gy t hp) = (gx, gy).
Proof.
  unfold grid_pos, new_Obstacle, CELL_SIZE, INFO_BAR_HEIGHT. simpl. f_equal.
  - by rewrite Z.quot_mul.
  - replace (gy * 40 + 40 - 40) with (gy * 40) by lia. by rewrite Z.quot_mul.
Qed.

Definition keyed (m : gmap GridPos Obstacle) : Prop :=
  ∀ p o, m !! p = Some o → grid_pos o = p.

Lemma keyed_delete m p : keyed m → keyed (delete p m).
Proof. intros Hk q o Hq. apply lookup_delete_Some in Hq as [_ Hq]. by apply Hk. Qed.

Lemma keyed_generated dc rest goal hp :
  keyed (place_rest dc 0 rest (emplace ∅ goal (main_block_at goal hp))).
Proof.
  intros p o Hp. apply place_rest_lookup in Hp as [Hp|(_ & _ & [-> | ->])].
  - apply emplace_lookup in Hp as [Hp|[-> ->]]; [by rewrite lookup_empty in Hp|].
    destruct goal as [x y]. apply (grid_pos_new_Obstacle x y "Destructible" hp).
  - destruct p as [x y]. apply grid_pos_new_Obstacle.
  - destruct p as [x y]. apply grid_pos_new_Obstacle.
Qed.

Section GameFacts.
Context `{RT : Runtime}.

Lemma elem_of_iterate m p o : (p, o) ∈ iterate m ↔ m !! p = Some o.
Proof. rewrite iterate_perm. apply elem_of_map_to_list. Qed.

(** ** [destructible_count] *)

Definition destructibles (l : list (GridPos * Obstacle)) : Z :=
  Z.of_nat (length (filter (λ kv, type kv.2 = "Destructible"%string) l)).

Lemma foldl_destructibles l c :
  foldl (λ c (kv : GridPos * Obstacle),
           if String.eqb (type kv.2) "Destructible" then c + 1 else c) c l
  = c + destructibles l.
Proof.
  unfold destructibles. revert c. induction l as [|kv l IH]; intros c; simpl; [lia|].
  rewrite IH. destruct (String.eqb_spec (type kv.2) "Destructible") as [He|Hne].
  - rewrite filter_cons_True by done. simpl. lia.
  - by rewrite filter_cons_False by done.
Qed.

Lemma count_destructible_obstacles_map gs :
  count_destructible_obstacles gs = destructibles (map_to_list (GameState.obstacles gs)).
Proof.
  unfold count_destructible_obstacles. rewrite foldl_destructibles.
  unfold destructibles. by rewrite iterate_perm.
Qed.

Lemma destructibles_delete (m : gmap GridPos Obstacle) p o :
  m !! p = Some o →
  destructibles (map_to_list (delete p m)) =
  destructibles (map_to_list m) - (if String.eqb (type o) "Destructible" then 1 else 0).
Proof.
  intros Hp. unfold destructibles. rewrite <- (map_to_list_delete m p o Hp).
  destruct (String.eqb_spec (type o) "Destructible") as [He|Hne].
  - rewrite filter_cons_True by done. simpl. lia.
  - rewrite filter_cons_False by done. lia.
Qed.

(** The counter agrees with a recount. *)
Definition counted (gs : GameState.t) : Prop :=
  GameState.destructible_count gs = count_destructible_obstacles gs.

Lemma counted_new obs its main_pos : counted (new_GameState obs its main_pos).
Proof. done. Qed.

Lemma counted_destroy gs pos : counted gs → counted (destroy_obstacle gs pos).
Proof.
  unfold counted, destroy_obstacle.
  destruct (GameState.obstacles gs !! pos) as [ob|] eqn:E; [|done].
  rewrite !count_destructible_obstacles_map. intros Hc. simpl.
  rewrite (destructibles_delete _ _ _ E). destruct (String.eqb _ _); lia.
Qed.

Lemma collect_item_fields gs r :
  GameState.obstacles (collect_item gs r).2 = GameState.obstacles gs ∧
  GameState.destructible_count (collect_item gs r).2 = GameState.destructible_count gs ∧
  GameState.main_item_pos (collect_item gs r).2 = GameState.main_item_pos gs.
Proof. unfold collect_item. by destruct (collect_from _ _ _). Qed.

Lemma counted_collect gs r : counted gs → counted (collect_item gs r).2.
Proof.
  unfold counted. rewrite !count_destructible_obstacles_map.
  by destruct (collect_item_fields gs r) as (-> & -> & _).
Qed.

(** ** [collect_item] *)

Lemma gate_blocked_spec gs :
  gate_blocked gs = true ↔
  ∃ p o, GameState.obstacles gs !! p = Some o ∧ is_main_block o = true.
Proof.
  unfold gate_blocked. rewrite existsb_exists. split.
  - intros ([p o] & Hin & Hm). exists p, o. split; [|done].
    by apply elem_of_iterate, list_elem_of_In.
  - intros (p & o & Hp & Hm). exists (p, o). split; [|done].
    by apply list_elem_of_In, elem_of_iterate.
Qed.

Definition touches (r : SDL_Rect) (it : Item) : Prop :=
  SDL_HasIntersection r (Item_rect it) = true.

Lemma collect_from_spec gs r its b its' :
  collect_from gs r its = (b, its') →
  (b = false ∧ its' = its ∧
   (Forall (λ it, ¬ touches r it) its ∨
    ∃ l1 it l2, its = l1 ++ it :: l2 ∧ Forall (λ it, ¬ touches r it) l1 ∧ touches r it ∧
                is_main it = true ∧ gate_blocked gs = true)) ∨
  (b = true ∧
   ∃ l1 it l2, its = l1 ++ it :: l2 ∧ its' = l1 ++ l2 ∧
               Forall (λ it, ¬ touches r it) l1 ∧ touches r it ∧
               (is_main it = true → gate_blocked gs = false)).
Proof.
  revert b its'. induction its as [|it its IH]; intros b its'; simpl.
  { intros [= <- <-]. left. split; [done|]. split; [done|]. by left. }
  destruct (SDL_HasIntersection r (Item_rect it)) eqn:Ht.
  - destruct (is_main it && gate_blocked gs) eqn:Hg.
    + intros [= <- <-]. apply andb_true_iff in Hg as [Hm Hg].
      left. split; [done|]. split; [done|]. right. by exists [], it, its.
    + intros [= <- <-]. right. split; [done|]. exists [], it, its.
      split; [done|]. split; [done|]. split; [done|]. split; [done|].
      intros Hm. rewrite Hm in Hg. done.
  - destruct (collect_from gs r its) as [b0 rest'] eqn:E. intros [= <- <-].
    assert (¬ touches r it) as Hn by (unfold touches; congruence).
    destruct (IH _ _ eq_refl) as [(-> & -> & Hwhy)|(-> & l1 & it' & l2 & -> & -> & Hl1 & Hit & Hg)].
    + left. split; [done|]. split; [done|].
      destruct Hwhy as [Hall|(l1 & it' & l2 & -> & Hl1 & Hit & Hm & Hg)].
      * left. by constructor.
      * right. exists (it :: l1), it', l2. split; [done|]. split; [by constructor|done].
    + right. split; [done|]. exists (it :: l1), it', l2.
      split; [done|]. split; [done|]. split; [by constructor|done].
Qed.

Lemma collect_item_keeps_main gs r it :
  gate_blocked gs = true → it ∈ GameState.items gs → is_main it = true →
  it ∈ GameState.items (collect_item gs r).2.
Proof.
  intros Hg Hin Hm. unfold collect_item.
  destruct (collect_from gs r (GameState.items gs)) as [b its'] eqn:E. simpl.
  apply collect_from_spec in E
    as [(_ & -> & _)|(_ & l1 & it' & l2 & Heq & -> & _ & _ & Hgate)]; [done|].
  rewrite Heq in Hin. apply elem_of_app in Hin as [Hin|Hin]; [apply elem_of_app; by left|].
  apply elem_of_cons in Hin as [->|Hin]; [|apply elem_of_app; by right].
  rewrite (Hgate Hm) in Hg. done.
Qed.
End GameFacts.

(** ** One call of [move_and_attack] *)

Definition weakened (ob : Obstacle) (a : Z) : Obstacle :=
  mkObstacle (rect ob) (type ob) (health ob - a) (is_main_block ob) (nonblocking ob).

Section AttackFacts.
Context `{RT : Runtime}.

(** What a call does to [obs_list] and to the game state: nothing, or one
    strike on a Destructible blocking obstacle, which is erased from both
    when its health falls to 0 or below and stays weakened in [obs_list]
    alone otherwise. *)
Inductive attack_effect (e : Enemy.t) (obs_list : list Obstacle) (gs : GameState.t)
  : list Obstacle → GameState.t → Prop :=
| no_strike : attack_effect e obs_list gs obs_list gs
| strike_destroys before ob after :
    obs_list = before ++ ob :: after →
    type ob = "Destructible"%string → nonblocking ob = false →
    health ob ≤ Enemy.attack e →
    attack_effect e obs_list gs (before ++ after) (destroy_obstacle gs (grid_pos ob))
| strike_weakens before ob after :
    obs_list = before ++ ob :: after →
    type ob = "Destructible"%string → nonblocking ob = false →
    Enemy.attack e < health ob →
    attack_effect e obs_list gs (before ++ weakened ob (Enemy.attack e) :: after) gs.

Lemma first_hit_spec r l before ob after :
  first_hit r l = Some (before, ob, after) →
  l = before ++ ob :: after ∧ nonblocking ob = false ∧
  SDL_HasIntersection r (rect ob) = true.
Proof.
  revert before. induction l as [|o l IH]; intros before; simpl; [done|].
  destruct (negb (nonblocking o) && SDL_HasIntersection r (rect o)) eqn:Hb.
  - intros [= <- <- <-]. apply andb_true_iff in Hb as [Hn%negb_true_iff Hi]. done.
  - destruct (first_hit r l) as [[[b h] a]|]; [|done].
    intros [= <- <- <-]. destruct (IH _ eq_refl) as (-> & ? & ?). done.
Qed.

Lemma try_dirs_quiet interval spd ds e obs_list gs e' obs_list' gs' :
  Qle_bool interval (Enemy.attack_timer e) = false →
  try_dirs interval spd ds e obs_list gs = Returns (e', obs_list', gs') →
  obs_list' = obs_list ∧ gs' = gs ∧ Enemy.attack e' = Enemy.attack e.
Proof.
  intros Hq. revert obs_list. induction ds as [|d ds IH]; intros obs_list; simpl.
  { by intros [= <- <- <-]. }
  case_bool_decide; [apply IH|].
  destruct (cast (inject_Z d.1 * spd)) as [mx| | |]; simpl; try done.
  destruct (cast (inject_Z d.2 * spd)) as [my| | |]; simpl; try done.
  destruct (first_hit _ obs_list) as [[[before ob] after]|] eqn:Hh.
  - apply first_hit_spec in Hh as (-> & _ & _).
    unfold strike. rewrite Hq, andb_false_r. apply IH.
  - destruct (cast (Enemy.x e + _)) as [ex| | |]; simpl; try done.
    destruct (cast (Enemy.y e + _)) as [ey| | |]; simpl; try done.
    by intros [= <- <- <-].
Qed.

Lemma try_dirs_effect interval spd ds e obs_list gs e' obs_list' gs' :
  (0 < interval)%Q →
  try_dirs interval spd ds e obs_list gs = Returns (e', obs_list', gs') →
  Enemy.attack e' = Enemy.attack e ∧ attack_effect e obs_list gs obs_list' gs'.
Proof.
  intros Hpos. revert obs_list. induction ds as [|d ds IH]; intros obs_list; simpl.
  { intros [= <- <- <-]. split; [done|constructor]. }
  case_bool_decide; [apply IH|].
  destruct (cast (inject_Z d.1 * spd)) as [mx| | |]; simpl; try done.
  destruct (cast (inject_Z d.2 * spd)) as [my| | |]; simpl; try done.
  destruct (first_hit _ obs_list) as [[[before ob] after]|] eqn:Hh.
  - apply first_hit_spec in Hh as (-> & Hnb & _). unfold strike.
    destruct (String.eqb (type ob) "Destructible" &&
              Qle_bool interval (Enemy.attack_timer e)) eqn:Hs; [|apply IH].
    apply andb_true_iff in Hs as [Ht%String.eqb_eq _].
    assert (Qle_bool interval 0 = false) as Hq.
    { destruct (Qle_bool interval 0) eqn:E; [|done]. apply Qle_bool_iff in E. lra. }
    simpl. case_bool_decide as Hdead; intros Hrun;
      apply try_dirs_quiet in Hrun as (-> & -> & Ha); try exact Hq;
      (split; [exact Ha|]).
    + apply (strike_destroys e _ gs before ob after); [done|done|done|lia].
    + apply (strike_weakens e _ gs before ob after); [done|done|done|lia].
  - destruct (cast (Enemy.x e + _)) as [ex| | |]; simpl; try done.
    destruct (cast (Enemy.y e + _)) as [ey| | |]; simpl; try done.
    intros [= <- <- <-]. split; [done|constructor].
Qed.

Lemma move_and_attack_effect e p obs_list gs interval dt e' obs_list' gs' :
  (0 < interval)%Q →
  move_and_attack e p obs_list gs interval dt = Returns (e', obs_list', gs') →
  Enemy.attack e' = Enemy.attack e ∧ attack_effect e obs_list gs obs_list' gs'.
Proof.
  intros Hpos. unfold move_and_attack.
  destruct (chase_dirs _ _) as [ds| | |]; simpl; try done.
  intros H. apply try_dirs_effect in H as [Ha He]; [|done]. split; [done|].
  simpl in Ha. inversion He; subst.
  - constructor.
  - by apply strike_destroys.
  - by apply (strike_weakens e _ gs' before ob after).
Qed.

Lemma attack_effect_game e obs_list gs obs_list' gs' :
  attack_effect e obs_list gs obs_list' gs' →
  GameState.obstacles gs' ⊆ GameState.obstacles gs ∧
  GameState.items gs' = GameState.items gs ∧
  (counted gs → counted gs').
Proof.
  intros [|before ob after _ _ _ _|before ob after _ _ _ _]; try done.
  split; [|split].
  - unfold destroy_obstacle. destruct (_ !! _); [apply delete_subseteq|done].
  - unfold destroy_obstacle. by destruct (_ !! _).
  - apply counted_destroy.
Qed.
End AttackFacts.

(** ** The goal guard against the enemies of a level *)

Definition total_attack (es : list Enemy.t) : Z := foldr Z.add 0 (Enemy.attack <$> es).

Section GuardFacts.
Context `{RT : Runtime}.
Variable goal : GridPos.
Variable mb : Obstacle.
Hypothesis mb_main : is_main_block mb = true.

(** The game state still holds the guard [mb] on the goal cell, with
    every obstacle under its own cell, and a primary item. *)
Record guarded (gs : GameState.t) : Prop := {
  g_keyed : keyed (GameState.obstacles gs);
  g_block : GameState.obstacles gs !! goal = Some mb;
  g_item : ∃ it, it ∈ GameState.items gs ∧ is_main it = true
}.

(** The copies in [obs_list] that sit on the goal cell have more health
    than the enemies still to move can take in this frame. *)
Definition safe_list (budget : Z) (obs_list : list Obstacle) : Prop :=
  ∀ o, o ∈ obs_list → grid_pos o = goal → type o = "Destructible"%string → budget < health o.

Record guard_inv (st : Level) : Prop := {
  gi_game : guarded (game_state st);
  gi_attack : Forall (λ e, 0 ≤ Enemy.attack e) (enemies st);
  gi_health : total_attack (enemies st) < health mb
}.

Lemma total_attack_nonneg es : Forall (λ e, 0 ≤ Enemy.attack e) es → 0 ≤ total_attack es.
Proof.
  induction 1 as [|e es He _ IH]; [done|].
  unfold total_attack in *. rewrite fmap_cons. cbn [foldr]. lia.
Qed.

Lemma guarded_destroy gs p : p ≠ goal → guarded gs → guarded (destroy_obstacle gs p).
Proof.
  intros Hp [Hk Hb Hi]. unfold destroy_obstacle.
  destruct (GameState.obstacles gs !! p) as [ob|] eqn:E; [|done]. split; simpl.
  - by apply keyed_delete.
  - by rewrite lookup_delete_ne.
  - done.
Qed.

Lemma attack_effect_guard e budget obs_list gs obs_list' gs' :
  0 ≤ Enemy.attack e → 0 ≤ budget →
  guarded gs → safe_list (Enemy.attack e + budget) obs_list →
  attack_effect e obs_list gs obs_list' gs' →
  guarded gs' ∧ safe_list budget obs_list'.
Proof.
  intros Ha Hb Hg Hsafe [|before ob after -> Ht Hn Hh|before ob after -> Ht Hn Hh].
  - split; [done|]. intros o Ho Hgo Hto. specialize (Hsafe o Ho Hgo Hto). lia.
  - split.
    + apply guarded_destroy; [|done]. intros Hgo.
      specialize (Hsafe ob ltac:(apply elem_of_app; right; by left) Hgo Ht). lia.
    + intros o Ho Hgo Hto.
      assert (o ∈ before ++ ob :: after) as Hin.
      { apply elem_of_app in Ho as [?|?]; apply elem_of_app; [by left|right; by right]. }
      specialize (Hsafe o Hin Hgo Hto). lia.
  - split; [done|]. intros o Ho Hgo Hto.
    apply elem_of_app in Ho as [Ho|Ho].
    { specialize (Hsafe o ltac:(apply elem_of_app; by left) Hgo Hto). lia. }
    apply elem_of_cons in Ho as [->|Ho].
    { specialize (Hsafe ob ltac:(apply elem_of_app; right; by left) Hgo Ht).
      simpl. lia. }
    specialize (Hsafe o ltac:(apply elem_of_app; right; by right) Hgo Hto). lia.
Qed.

Lemma enemies_turn_guard p dt moved todo obs_list gs es' gs' failed :
  Forall (λ e, 0 ≤ Enemy.attack e) todo →
  guarded gs → safe_list (total_attack todo) obs_list →
  enemies_turn p dt moved todo obs_list gs = Returns (es', gs', failed) →
  guarded gs' ∧ Enemy.attack <$> es' = Enemy.attack <$> (moved ++ todo).
Proof.
  intros Hall. revert moved obs_list gs.
  induction Hall as [|e todo He Hall IH]; intros moved obs_list gs Hg Hsafe; simpl.
  { intros [= <- <- <-]. by rewrite app_nil_r. }
  destruct (move_and_attack e p obs_list gs (1 # 2) dt) as [[[e1 obs1] gs1]| | |] eqn:Hm;
    simpl; try done.
  apply move_and_attack_effect in Hm as [Hatt Heff]; [|done].
  destruct (attack_effect_guard e (total_attack todo) _ _ _ _ He
              (total_attack_nonneg _ Hall) Hg Hsafe Heff) as [Hg1 Hsafe1].
  destruct (cast (Player.x p)) as [px| | |]; simpl; try done.
  destruct (cast (Player.y p)) as [py| | |]; simpl; try done.
  destruct (SDL_HasIntersection _ _).
  - intros [= <- <- <-]. split; [done|]. rewrite !fmap_app, !fmap_cons. by rewrite Hatt.
  - intros Hrun. apply IH in Hrun as [Hg' Hmap]; [|done|done]. split; [done|].
    rewrite Hmap, <- app_assoc, !fmap_app. simpl. by rewrite Hatt.
Qed.

Lemma frame_guard f st r :
  guard_inv st → frame f st = Returns r →
  match r with
  | inl st' => guard_inv st'
  | inr result => result ≠ "success"%string
  end.
Proof.
  intros [[Hk Hb Hi] Hatt Hh]. unfold frame. destruct (quit f).
  { by intros [= <-]. }
  destruct (Player_move _ _ _ _) as [p| | |]; simpl; try done.
  set (gs1 := (collect_item (game_state st) (Player.rect p)).2).
  destruct (collect_item_fields (game_state st) (Player.rect p)) as (Hobs & _ & _).
  fold gs1 in Hobs.
  assert (guarded gs1) as Hg1.
  { split.
    - by rewrite Hobs.
    - by rewrite Hobs.
    - destruct Hi as (it & Hin & Hm). exists it. split; [|done].
      apply collect_item_keeps_main; [|done|done].
      apply gate_blocked_spec. by exists goal, mb. }
  assert (safe_list (total_attack (enemies st)) (iterate (GameState.obstacles gs1)).*2) as Hsafe.
  { intros o Ho Hgo _. apply list_elem_of_fmap in Ho as ([q o'] & -> & Hq).
    apply elem_of_iterate in Hq. simpl in Hgo. rewrite Hobs in Hq.
    rewrite (Hk _ _ Hq) in Hgo. subst q. rewrite Hb in Hq. injection Hq as <-. done. }
  destruct (enemies_turn _ _ _ _ _ _) as [[[es gs2] failed]| | |] eqn:Hturn; simpl; try done.
  apply enemies_turn_guard in Hturn as [Hg2 Hmap]; [|done|done|done].
  destruct failed; [by intros [= <-]|].
  case_bool_decide as Hempty.
  { destruct Hg2 as [_ _ (it & Hin & _)]. rewrite Hempty in Hin. by apply elem_of_nil in Hin. }
  intros [= <-]. simpl in Hmap. split; simpl.
  - done.
  - apply (Forall_fmap Enemy.attack (λ a, 0 ≤ a)). rewrite Hmap.
    by apply (Forall_fmap Enemy.attack (λ a, 0 ≤ a)).
  - unfold total_attack in *. by rewrite Hmap.
Qed.

Lemma run_frames_guard fs st :
  guard_inv st → run_frames fs st ≠ Returns (Some "success"%string).
Proof.
  revert st. induction fs as [|f fs IH]; intros st Hinv; simpl; [done|].
  destruct (frame f st) as [r| | |] eqn:Hf; simpl; try done.
  pose proof (frame_guard _ _ _ Hinv Hf) as Hr. destruct r as [st'|result].
  - by apply IH.
  - intros [= ->]. done.
Qed.
End GuardFacts.

Section LevelFacts.
Context `{RT : Runtime}.

Lemma enemies_turn_counted p dt moved todo obs_list gs es' gs' failed :
  counted gs →
  enemies_turn p dt moved todo obs_list gs = Returns (es', gs', failed) → counted gs'.
Proof.
  revert moved obs_list gs. induction todo as [|e todo IH]; intros moved obs_list gs Hc; simpl.
  { by intros [= <- <- <-]. }
  destruct (move_and_attack e p obs_list gs (1 # 2) dt) as [[[e1 obs1] gs1]| | |] eqn:Hm;
    simpl; try done.
  apply move_and_attack_effect in Hm as [_ Heff]; [|done].
  apply attack_effect_game in Heff as (_ & _ & Hc1). specialize (Hc1 Hc).
  destruct (cast (Player.x p)) as [px| | |]; simpl; try done.
  destruct (cast (Player.y p)) as [py| | |]; simpl; try done.
  destruct (SDL_HasIntersection _ _); [by intros [= <- <- <-]|]. by apply IH.
Qed.

Lemma frame_counted f st st' :
  counted (game_state st) → frame f st = Returns (inl st') → counted (game_state st').
Proof.
  intros Hc. unfold frame. destruct (quit f); [done|].
  destruct (Player_move _ _ _ _) as [p| | |]; simpl; try done.
  destruct (enemies_turn _ _ _ _ _ _) as [[[es gs2] failed]| | |] eqn:Hturn; simpl; try done.
  apply enemies_turn_counted in Hturn; [|by apply counted_collect].
  destruct failed; [done|]. case_bool_decide; [done|]. by intros [= <-].
Qed.

Lemma mapM_new_Enemy spd zt (l : list GridPos) es :
  mapM (λ pos, new_Enemy pos ENEMY_ATTACK spd zt) l = Returns es →
  length es = length l ∧ Forall (λ e, 0 ≤ Enemy.attack e ≤ 10) es.
Proof.
  revert es. induction l as [|pos l IH]; intros es; simpl.
  { by intros [= <-]. }
  destruct (new_Enemy pos ENEMY_ATTACK spd zt) as [e| | |] eqn:He; simpl; try done.
  destruct (mapM _ l) as [es0| | |]; simpl; try done.
  intros [= <-]. destruct (IH _ eq_refl) as [Hlen Hall]. split; [simpl; lia|].
  constructor; [|done]. clear -He. unfold new_Enemy in He.
  assert (∃ a, (if String.eqb zt "tank" then cast (inject_Z ENEMY_ATTACK * (1 # 2))
                else Returns ENEMY_ATTACK) = Returns a ∧ 0 ≤ a ≤ 10) as (a & Heq & Ha).
  { destruct (String.eqb zt "tank"); [exists 5|exists 10]; done. }
  rewrite Heq in He. simpl in He.
  destruct (cast (inject_Z (pos.1 * CELL_SIZE))) as [ex| | |]; simpl in He; try done.
  destruct (cast (inject_Z (pos.2 * CELL_SIZE))) as [ey| | |]; simpl in He; try done.
  by injection He as <-.
Qed.

Lemma total_attack_le es :
  Forall (λ e, 0 ≤ Enemy.attack e ≤ 10) es → total_attack es ≤ 10 * Z.of_nat (length es).
Proof.
  induction 1 as [|e es He _ IH]; [done|].
  unfold total_attack in *. rewrite fmap_cons. cbn [foldr length]. lia.
Qed.

Lemma run_level_guard (layout : generated) g oc ic ec hp fuel chosen_enemy fs :
  (∃ `(RS : RandomSource) (s s' : rng_state),
     generate_game_entities fuel g oc ic ec hp s = Returns (layout, s')) →
  0 ≤ ec → 10 * ec < hp →
  run_level layout chosen_enemy fs ≠ Returns (Some "success"%string).
Proof.
  intros (RS & s & s' & Hgen) Hec Hhp.
  destruct layout as [[[[obs its] pstart] estarts] mains].
  apply generate_inv in Hgen
    as (goal & rest & items & dc & s0 & Hres & _ & -> & _ & _ & -> & _ & ->).
  apply resize_length in Hres. simpl in Hres.
  unfold run_level.
  destruct (new_Player _ _) as [p| | |]; simpl; try done.
  destruct (mapM _ estarts) as [es| | |] eqn:Hes; simpl; try done.
  apply mapM_new_Enemy in Hes as [Hlen Hall].
  apply (run_frames_guard goal (main_block_at goal hp)); [done|].
  split; simpl.
  - split; simpl.
    + apply keyed_generated.
    + apply place_rest_lookup_old. unfold emplace. rewrite lookup_empty.
      apply lookup_insert_eq.
    + exists (mkItem goal.1 goal.2 true). split; [|done].
      apply elem_of_app. right. by left.
  - eapply Forall_impl; [exact Hall|]. simpl. lia.
  - pose proof (total_attack_le _ Hall). lia.
Qed.
End LevelFacts.

Lemma level_guard_too_strong `{RS : RandomSource} level s cfg s1 :
  level = 2 ∨ 8 ≤ level →
  get_level_config level s = Returns (cfg, s1) →
  1 ≤ enemy_count cfg ∧ 10 * enemy_count cfg < block_hp cfg.
Proof.
  intros Hl H. pose proof (get_level_config_fields _ _ _ _ H) as (Hr & _ & _ & He & _).
  split; [lia|].
  destruct (get_level_config_formula level s ltac:(lia)) as (card & s2 & Heq).
  rewrite H in Heq.
  assert (cfg = mkLevelConfig (20 + level) 5 (Z.min 5 (1 + level ÷ 3))
                  (Qfloor (block_hp_value level)) ["basic"; "strong"; "fire"]%string card)
    as -> by congruence.
  clear Heq H He. cbn [enemy_count block_hp].
  destruct (decide (12 ≤ level)) as [Hbig|Hsmall].
  - assert (Qfloor (block_hp_value 12) ≤ Qfloor (block_hp_value level)) as Hm
      by (by apply Qfloor_resp_le, block_hp_value_mono).
    assert (Qfloor (block_hp_value 12) = 74) as Hv by (by vm_compute).
    lia.
  - assert (level = 2 ∨ level = 8 ∨ level = 9 ∨ level = 10 ∨ level = 11)
      as [-> | [-> | [-> | [-> | ->]]]] by lia; by vm_compute.
Qed.

(** X26.  [destructible_count] always equals what
    [count_destructible_obstacles] would recount: the constructor sets it
    so, and [destroy_obstacle], [collect_item] and a whole frame of
    [main_run_level] keep it so. *)
Theorem destructible_count_tracks `{RT : Runtime} :
  (∀ obs its main_pos, counted (new_GameState obs its main_pos)) ∧
  (∀ gs pos, counted gs → counted (destroy_obstacle gs pos)) ∧
  (∀ gs r, counted gs → counted (collect_item gs r).2) ∧
  (∀ f st st', counted (game_state st) → frame f st = Returns (inl st') →
               counted (game_state st')).
Proof.
  split; [apply counted_new|]. split; [apply counted_destroy|].
  split; [apply counted_collect|apply frame_counted].
Qed.

(** X27.  [collect_item] looks at the first item the player rectangle
    touches and at no other: it erases that item and returns [true],
    unless the item is the primary one while an obstacle flagged
    [is_main_block] is on the map; then, and when no item is touched, it
    returns [false] and leaves the items as they are.  The obstacles are
    never changed. *)
Theorem collect_item_first_touched `{RT : Runtime} (gs : GameState.t) (r : SDL_Rect) :
  GameState.obstacles (collect_item gs r).2 = GameState.obstacles gs ∧
  (((collect_item gs r).1 = false ∧
    GameState.items (collect_item gs r).2 = GameState.items gs ∧
    (Forall (λ it, ¬ touches r it) (GameState.items gs) ∨
     ∃ l1 it l2, GameState.items gs = l1 ++ it :: l2 ∧
                 Forall (λ it, ¬ touches r it) l1 ∧ touches r it ∧ is_main it = true ∧
                 ∃ p o, GameState.obstacles gs !! p = Some o ∧ is_main_block o = true)) ∨
   ((collect_item gs r).1 = true ∧
    ∃ l1 it l2, GameState.items gs = l1 ++ it :: l2 ∧
                GameState.items (collect_item gs r).2 = l1 ++ l2 ∧
                Forall (λ it, ¬ touches r it) l1 ∧ touches r it ∧
                (is_main it = true →
                 ∀ p o, GameState.obstacles gs !! p = Some o → is_main_block o = false))).
Proof.
  split; [apply collect_item_fields|]. unfold collect_item.
  destruct (collect_from gs r (GameState.items gs)) as [b its'] eqn:E. simpl.
  apply collect_from_spec in E
    as [(-> & -> & Hwhy)|(-> & l1 & it & l2 & Heq & -> & Hl1 & Hit & Hgate)].
  - left. split; [done|]. split; [done|].
    destruct Hwhy as [?|(l1 & it & l2 & Heq & Hl1 & Hit & Hm & Hg)]; [by left|].
    right. exists l1, it, l2. do 4 (split; [done|]). by apply gate_blocked_spec.
  - right. split; [done|]. exists l1, it, l2. do 4 (split; [done|]).
    intros Hm p o Hp. specialize (Hgate Hm).
    destruct (is_main_block o) eqn:Ho; [|done].
    assert (gate_blocked gs = true) as Hg by (apply gate_blocked_spec; eauto).
    congruence.
Qed.

(** X28.  With a positive attack interval, one call of
    [move_and_attack] strikes at most one obstacle, a Destructible
    blocking one of [obs_list]: it is erased from [obs_list] and from the
    game state when the blow takes its health to 0 or below, and stays,
    weakened, in [obs_list] alone otherwise.  The obstacles of the game
    state are never altered, only erased; the items and the enemy's
    attack value are unchanged. *)
Theorem move_and_attack_strikes_once `{RT : Runtime} (e e' : Enemy.t) (p : Player.t)
    (obs_list obs_list' : list Obstacle) (gs gs' : GameState.t) (interval dt : Q) :
  (0 < interval)%Q →
  move_and_attack e p obs_list gs interval dt = Returns (e', obs_list', gs') →
  attack_effect e obs_list gs obs_list' gs' ∧
  GameState.obstacles gs' ⊆ GameState.obstacles gs ∧
  GameState.items gs' = GameState.items gs ∧
  Enemy.attack e' = Enemy.attack e.
Proof.
  intros Hpos H. apply move_and_attack_effect in H as [Ha Heff]; [|done].
  split; [done|]. by destruct (attack_effect_game _ _ _ _ _ Heff) as (? & ? & _).
Qed.

(** X29.  A level whose map holds, under its own cell like every
    obstacle, an obstacle flagged [is_main_block] with more health than
    the attack values of all enemies add up to, and whose items include a
    primary one, never ends in "success": [obs_list] is rebuilt from the
    game state in every frame, so the blows of one frame are all that
    ever counts, the guard stays, and with it the primary item. *)
Theorem guard_outlasts_weak_enemies `{RT : Runtime} (goal : GridPos) (mb : Obstacle)
    (st : Level) (fs : list Frame) :
  keyed (GameState.obstacles (game_state st)) →
  GameState.obstacles (game_state st) !! goal = Some mb →
  is_main_block mb = true →
  (∃ it, it ∈ GameState.items (game_state st) ∧ is_main it = true) →
  Forall (λ e, 0 ≤ Enemy.attack e) (enemies st) →
  total_attack (enemies st) < health mb →
  run_frames fs st ≠ Returns (Some "success"%string).
Proof.
  intros Hk Hb Hm Hi Ha Hh. apply (run_frames_guard goal mb Hm). by repeat split.
Qed.

(** X30.  Levels 2 and 8 to 106 cannot be won: their configuration
    gives the goal guard more hit points (12 at level 2) than ten times
    the number of enemies, each of which strikes with [ENEMY_ATTACK] = 10
    or less, so [main_run_level] never returns "success", whatever the
    layout, the chosen enemy, the keys pressed and the timing. *)
Theorem level_cannot_be_won `{RT : Runtime} `{RS : RandomSource} (level : Z)
    (s s1 s2 : rng_state) (cfg : LevelConfig) (fuel : nat) (chosen_enemy : string)
    (fs : list Frame) :
  level = 2 ∨ 8 ≤ level →
  get_level_config level s = Returns (cfg, s1) →
  main_run_level fuel cfg chosen_enemy fs s2 ≠ Returns (Some "success"%string).
Proof.
  intros Hl Hcfg. destruct (level_guard_too_strong _ _ _ _ Hl Hcfg) as [He Hhp].
  unfold main_run_level.
  destruct (generate_game_entities _ _ _ _ _ _ _) as [[layout s3]| | |] eqn:Hgen;
    simpl; try done.
  eapply run_level_guard; [by exists RS, s2, s3|lia|done].
Qed.

(** ** A guard of 12 hit points and one enemy *)

Lemma returns_true {A} (o : outcome A) : returns o = true → ∃ a, o = Returns a.
Proof. destruct o; [eauto|done..]. Qed.

Definition demo_block : Obstacle := main_block_at (2, 2) 12.

Definition demo_game : GameState.t :=
  new_GameState (RT := plain_runtime) {[ (2, 2) := demo_block ]} [mkItem 2 2 true] [(2, 2)].

Definition demo_enemy : Enemy.t :=
  Enemy.mk 56 80 10 2 24 (mkRect 56 120 24 24) "basic" (1 # 2).

Definition demo_player : Player.t := Player.mk 200 80 5 24 (mkRect 200 120 24 24).

Definition demo_level : Level := mkLevel demo_game demo_player [demo_enemy].

Definition idle : Frame := mkFrame false (mkKeys false false false false) (1 # 60).

Lemma demo_strike_returns :
  ∃ r, move_and_attack (RT := plain_runtime) demo_enemy demo_player [demo_block] demo_game
         (1 # 2) (1 # 60) = Returns r.
Proof. apply returns_true. by vm_compute. Qed.

Lemma move_and_attack_strikes_once_witness :
  ∃ e' obs_list' gs',
    move_and_attack (RT := plain_runtime) demo_enemy demo_player [demo_block] demo_game
      (1 # 2) (1 # 60) = Returns (e', obs_list', gs') ∧
    attack_effect demo_enemy [demo_block] demo_game obs_list' gs' ∧
    GameState.obstacles gs' ⊆ GameState.obstacles demo_game ∧
    GameState.items gs' = GameState.items demo_game ∧
    Enemy.attack e' = 10.
Proof.
  destruct demo_strike_returns as [[[e' obs_list'] gs'] H].
  exists e', obs_list', gs'. split; [exact H|].
  apply (move_and_attack_strikes_once (RT := plain_runtime) demo_enemy e' demo_player
           [demo_block] obs_list' demo_game gs' (1 # 2) (1 # 60)); [reflexivity|exact H].
Defined.

Lemma guard_outlasts_weak_enemies_witness :
  run_frames (RT := plain_runtime) (replicate 90 idle) demo_level
    ≠ Returns (Some "success"%string).
Proof.
  apply (guard_outlasts_weak_enemies (RT := plain_runtime) (2, 2) demo_block).
  - intros p o Hp. change (({[ (2, 2) := demo_block ]} : gmap GridPos Obstacle) !! p = Some o) in Hp.
    apply lookup_singleton_Some in Hp as [<- <-]. reflexivity.
  - change (({[ (2, 2) := demo_block ]} : gmap GridPos Obstacle) !! (2, 2) = Some demo_block).
    apply lookup_singleton_eq.
  - reflexivity.
  - exists (mkItem 2 2 true). split; [by left|reflexivity].
  - repeat constructor. simpl. lia.
  - reflexivity.
Defined.

Lemma level_cannot_be_won_witness :
  get_level_config (RS := script_rng) 2 []
    = Returns (mkLevelConfig 22 5 1 12 ["basic"; "strong"; "fire"]%string "enemy_fast", []) ∧
  main_run_level (RT := plain_runtime) (RS := script_rng) 1
    (mkLevelConfig 22 5 1 12 ["basic"; "strong"; "fire"]%string "enemy_fast")
    "basic" (replicate 90 idle) [0; 700]%nat
    ≠ Returns (Some "success"%string).
Proof.
  assert (get_level_config (RS := script_rng) 2 []
          = Returns (mkLevelConfig 22 5 1 12 ["basic"; "strong"; "fire"]%string "enemy_fast",
                     [])) as Hcfg by (vm_compute; reflexivity).
  split; [exact Hcfg|].
  apply (level_cannot_be_won (RT := plain_runtime) (RS := script_rng) 2 [] [] [0; 700]%nat
           _ 1 "basic" (replicate 90 idle)); [by left|exact Hcfg].
Defined.
